(** * prometheus-lnd-exporter: the collector (collector.go), verified

    A shallow embedding of [LndExporter], its constructor, [Describe],
    [getGrpcClient] and [Collect], followed by the properties of the
    scrape that the specification states.

    Conventions of the embedding:
    - Go integers ([uint32], [uint64], [int64], [int]) are [Z];
    - [float64] is IEEE-754 binary64 as specified by [SpecFloat]
      (precision 53, maximal exponent 1024), round to nearest even;
    - the exporter's [metrics] map is a [gmap string Desc];
    - [Collect] is written in a state-and-exit monad [Go]: the state holds
      the exporter object (with its mutex), the open connections, the trace
      of observable events and the stack of deferred calls;
    - everything outside the repository that [Collect] calls (the file
      system, TLS and macaroon loading, [grpc.Dial] and the eight RPCs of
      the node) is an oracle of a [World]. *)

From Stdlib Require Import ZArith Floats.SpecFloat.
From stdpp Require Import base option list strings pretty gmap fin_maps.

Local Open Scope Z_scope.
Local Open Scope string_scope.
Local Open Scope list_scope.

(** ** float64 *)

Module F64.

Definition prec : Z := 53.
Definition emax : Z := 1024.

Definition float64 : Type := spec_float.

(** Conversion [float64(x)] of an integer. *)
Definition of_Z (x : Z) : float64 := binary_normalize prec emax x 0 false.

Definition zero : float64 := S754_zero false.
Definition one : float64 := of_Z 1.

Definition sub (x y : float64) : float64 := SFsub prec emax x y.
Definition div (x y : float64) : float64 := SFdiv prec emax x y.

(** The Go comparison [x > y]. *)
Definition gtb (x y : float64) : bool := SFltb y x.

(** [m * 2^e] as a float, for writing expected values. *)
Definition pow2 (m : positive) (e : Z) : float64 := S754_finite false m e.

(** [x] is the integer [a], exactly: a zero for 0, or a finite float
    [±m * 2^e] with [e >= -52] and that value. *)
Definition represents (x : float64) (a : Z) : Prop :=
  match x with
  | S754_zero _ => a = 0
  | S754_finite s m e =>
      -52 <= e /\ cond_Zopp s (Z.pos m * 2 ^ (e + 52)) = a * 2 ^ 52
  | _ => False
  end.

End F64.

Abbreviation float64 := F64.float64.

(** ** prometheus descriptors and samples *)

Definition error : Type := string.

(** A descriptor, with the error that [NewDesc] recorded in it, if any. *)
Record Desc := mkDesc {
  fqName : string;
  help : string;
  variableLabels : list string;
  err : option error
}.

Inductive ValueType := CounterValue | GaugeValue.

Record Metric := mkMetric {
  desc : Desc;
  valType : ValueType;
  value : float64;
  labelValues : list string
}.

(** The names that the client library accepts (package model, which is not
    among the sources): a metric name is [[a-zA-Z_:][a-zA-Z0-9_:]*], a label
    name is [[a-zA-Z_][a-zA-Z0-9_]*]. *)
Module model.

Definition isLetter (b : Ascii.ascii) : bool :=
  let n := Ascii.N_of_ascii b in
  ((97 <=? n) && (n <=? 122) || (65 <=? n) && (n <=? 90))%N.

Definition isDigit (b : Ascii.ascii) : bool :=
  let n := Ascii.N_of_ascii b in ((48 <=? n) && (n <=? 57))%N.

(** The bytes 95 and 58. *)
Definition isUnderscore (b : Ascii.ascii) : bool := (Ascii.N_of_ascii b =? 95)%N.
Definition isColon (b : Ascii.ascii) : bool := (Ascii.N_of_ascii b =? 58)%N.

Fixpoint metricNameRest (n : string) : bool :=
  match n with
  | EmptyString => true
  | String b n' =>
      (isLetter b || isDigit b || isUnderscore b || isColon b) && metricNameRest n'
  end.

Definition IsValidMetricName (n : string) : bool :=
  match n with
  | EmptyString => false
  | String b n' => (isLetter b || isUnderscore b || isColon b) && metricNameRest n'
  end.

Fixpoint labelNameRest (n : string) : bool :=
  match n with
  | EmptyString => true
  | String b n' => (isLetter b || isDigit b || isUnderscore b) && labelNameRest n'
  end.

Definition IsValidLabelName (n : string) : bool :=
  match n with
  | EmptyString => false
  | String b n' => (isLetter b || isUnderscore b) && labelNameRest n'
  end.

End model.

(** [checkLabelName]: a valid label name that does not start with the
    reserved prefix. *)
Definition checkLabelName (l : string) : bool :=
  model.IsValidLabelName l && negb (String.prefix "__" l).

(** [prometheus.NewDesc(fqName, help, labels, nil)] of the client library:
    the descriptor is built in any case, and it carries an error when the
    name is not a valid metric name, when a label name is not valid, or
    when a label name comes twice. The text of the errors is that of the
    library without the quoting of the names. *)
Definition NewDesc (fqName help : string) (labels : list string) : Desc :=
  mkDesc fqName help labels
    (if negb (model.IsValidMetricName fqName) then
       Some (fqName +:+ " is not a valid metric name")
     else
       match list_find (fun l => checkLabelName l = false) labels with
       | Some (_, l) =>
           Some (l +:+ " is not a valid label name for metric " +:+ fqName)
       | None =>
           if bool_decide (NoDup labels) then None
           else Some "duplicate label names"
       end).
Global Arguments NewDesc : simpl never.

Definition newGlobalMetric (namespace metricName docString : string)
    (labels : list string) : Desc :=
  NewDesc (namespace +:+ "_" +:+ metricName) docString labels.

(** ** The exporter *)

(** [time.Duration] is a count of nanoseconds. *)
Definition Duration : Type := Z.
Definition Second : Duration := 1000000000.

Record LndExporter := mkLndExporter {
  mutexLocked : bool;                 (* the embedded sync.Mutex *)
  metrics : gmap string Desc;
  rpcAddr : string;
  tlsCertPath : string;
  macaroonPath : string;
  timeout : Duration;
  exportPeerMetrics : bool;
  exportPaymentMetrics : bool
}.

(** The map literal of [NewLightningExporter]. *)
Definition catalogTable (namespace : string) : list (string * Desc) :=
  [ ("lnd_up", newGlobalMetric namespace "lnd_up" "up" []);
    ("forwarding_history_info",
       newGlobalMetric namespace "forwarding_history_info" "forwarding_history_info"
         [ "peer_alias_in"; "peer_alias_out"; "amount_in"; "amount_out"; "fee";
           "channel_id_in"; "channel_id_out"; "timestamp_ns" ]);
    ("network_capacity_sats_total",
       newGlobalMetric namespace "network_capacity_sats_total" "network_capacity_sats_total" []);
    ("network_channels_total",
       newGlobalMetric namespace "network_channels_total" "network_channels_total" []);
    ("network_nodes_total",
       newGlobalMetric namespace "network_nodes_total" "network_nodes_total" []);
    ("instance_info",
       newGlobalMetric namespace "instance_info" "instance_info" ["alias"; "pubkey"; "version"]);
    ("wallet_balance_sats",
       newGlobalMetric namespace "wallet_balance_sats" "The wallet balance." ["status"]);
    ("peers",
       newGlobalMetric namespace "peers" "Number of currently connected peers." []);
    ("channels",
       newGlobalMetric namespace "channels" "Number of channels" ["status"]);
    ("block_height",
       newGlobalMetric namespace "block_height"
         "The node’s current view of the height of the best block" []);
    ("synced_to_chain",
       newGlobalMetric namespace "synced_to_chain"
         "The node’s current view of the height of the best block" []);
    ("channel_limbo_balance_sats",
       newGlobalMetric namespace "channel_limbo_balance_sats"
         "The balance in satoshis encumbered in pending channels" []);
    ("channels_pending",
       newGlobalMetric namespace "channel_pending" "The total pending channels"
         ["status"; "forced"]);
    ("channels_waiting_close",
       newGlobalMetric namespace "channel_waiting_close"
         "Channels waiting for closing tx to confirm" []);
    ("channels_balance_sats",
       newGlobalMetric namespace "channels_balance_sats"
         "Sum of all channel funds available" []);
    ("channel_balance_sats",
       newGlobalMetric namespace "channel_balance_sats" "The channel local balance"
         [ "active"; "remote_pubkey"; "chan_point"; "chan_id"; "capacity";
           "commit_fee"; "private"; "initiator" ]);
    ("channel_balance_percentage",
       newGlobalMetric namespace "channel_balance_percentage" "The channel local balance"
         [ "active"; "remote_pubkey"; "chan_point"; "chan_id"; "capacity";
           "commit_fee"; "private"; "initiator" ]);
    ("peer_info",
       newGlobalMetric namespace "peer_info" "peer_info"
         ["addr"; "remote_pubkey"; "direction"]);
    ("peer_info_received_bytes_total",
       newGlobalMetric namespace "peer_info_received_bytes_total"
         "peer_info_received_bytes_total" ["addr"]);
    ("peer_info_sent_bytes_total",
       newGlobalMetric namespace "peer_info_sent_bytes_total"
         "peer_info_sent_bytes_total" ["addr"]) ].

Definition catalog (namespace : string) : gmap string Desc :=
  list_to_map (catalogTable namespace).

Definition NewLightningExporter (namespace rpcAddr tlsCertPath macaroonPath : string)
    (timeout : Duration) (exportPeerMetrics : bool) : LndExporter :=
  {| mutexLocked := false;
     rpcAddr := rpcAddr;
     tlsCertPath := tlsCertPath;
     macaroonPath := macaroonPath;
     timeout := timeout;
     metrics := catalog namespace;
     exportPeerMetrics := exportPeerMetrics;
     exportPaymentMetrics := true |}.


(** ** Messages of the node's RPC interface (package lnrpc)

    Only the fields that the collector reads. *)

Module lnrpc.

Record GetInfoResponse := {
  Alias : string;
  IdentityPubkey : string;
  Version : string;
  NumPeers : Z;
  NumActiveChannels : Z;
  NumPendingChannels : Z;
  NumInactiveChannels : Z;
  BlockHeight : Z;
  SyncedToChain : bool
}.

Record WalletBalanceResponse := {
  UnconfirmedBalance : Z;
  ConfirmedBalance : Z
}.

(** The collector only takes the length of the four lists. *)
Definition PendingEntry : Type := unit.

Record PendingChannelsResponse := {
  TotalLimboBalance : Z;
  PendingOpenChannels : list PendingEntry;
  PendingClosingChannels : list PendingEntry;
  PendingForceClosingChannels : list PendingEntry;
  WaitingCloseChannels : list PendingEntry
}.

Record ChannelBalanceResponse := { Balance : Z }.

Record ForwardingEvent := {
  PeerAliasIn : string;
  PeerAliasOut : string;
  AmtIn : Z;
  AmtOut : Z;
  Fee : Z;
  ChanIdIn : Z;
  ChanIdOut : Z;
  TimestampNs : Z
}.

Record ForwardingHistoryResponse := { ForwardingEvents : list ForwardingEvent }.

Record NetworkInfo := {
  TotalNetworkCapacity : Z;
  NumChannels : Z;
  NumNodes : Z
}.

Record Channel := {
  Active : bool;
  RemotePubkey : string;
  ChannelPoint : string;
  ChanId : Z;
  Capacity : Z;
  CommitFee : Z;
  LocalBalance : Z;
  Private : bool;
  Initiator : bool
}.

Record ListChannelsResponse := { Channels : list Channel }.

Record Peer := {
  Address : string;
  PubKey : string;
  Inbound : bool;
  BytesRecv : Z;
  BytesSent : Z
}.

Record ListPeersResponse := { Peers : list Peer }.

End lnrpc.

(** ** The outside world *)

Inductive result (A : Type) : Type :=
| Ok (a : A)
| Err (err : error).
Arguments Ok {A} a.
Arguments Err {A} err.

Definition is_ok {A} (r : result A) : bool :=
  match r with Ok _ => true | Err _ => false end.

Definition ClientConn : Type := nat.
Definition TransportCredentials : Type := string.
Definition Macaroon : Type := string.
Definition MacaroonCredential : Type := string.

(** [context.WithTimeout(context.Background(), d)]. *)
Record Context := WithTimeout { ctxTimeout : Duration }.

(** [maxMsgRecvSize] of exporter.go. *)
Definition maxMsgRecvSize : Z := 1 * 1024 * 1024 * 50.

Inductive DialOption :=
| WithTransportCredentials (creds : TransportCredentials)
| WithPerRPCCredentials (creds : MacaroonCredential)
| WithDefaultCallOptions (maxCallRecvMsgSize : Z).

Record World := {
  NewClientTLSFromFile : string -> string -> result TransportCredentials;
  ReadFile : string -> result string;
  UnmarshalBinary : string -> result Macaroon;
  NewMacaroonCredential : Macaroon -> result MacaroonCredential;
  Dial : string -> list DialOption -> result ClientConn;
  rpcGetInfo : ClientConn -> Context -> result lnrpc.GetInfoResponse;
  rpcWalletBalance : ClientConn -> Context -> result lnrpc.WalletBalanceResponse;
  rpcPendingChannels : ClientConn -> Context -> result lnrpc.PendingChannelsResponse;
  rpcChannelBalance : ClientConn -> Context -> result lnrpc.ChannelBalanceResponse;
  rpcForwardingHistory : ClientConn -> Context -> result lnrpc.ForwardingHistoryResponse;
  rpcGetNetworkInfo : ClientConn -> Context -> result lnrpc.NetworkInfo;
  rpcListChannels : ClientConn -> Context -> result lnrpc.ListChannelsResponse;
  rpcListPeers : ClientConn -> Context -> result lnrpc.ListPeersResponse
}.

(** ** Observable events, state, and the monad of Go code *)

Inductive RpcMethod :=
| GetInfo | WalletBalance | PendingChannels | ChannelBalance
| ForwardingHistory | GetNetworkInfo | ListChannels | ListPeers.

Global Instance RpcMethod_eq_dec : EqDecision RpcMethod.
Proof. solve_decision. Defined.

Inductive Event :=
| EvLock
| EvUnlock
| EvLog (msg : string)
| EvDial (addr : string)
| EvClose (con : ClientConn)
| EvCancel (ctx : Context)
| EvRpc (m : RpcMethod) (con : ClientConn) (ctx : Context)
| EvSend (m : Metric).

(** A call registered by [defer]. *)
Inductive Deferred :=
| DUnlock
| DClose (con : ClientConn)
| DCancel (ctx : Context).

Record GoState := mkState {
  self : LndExporter;            (* the object behind the receiver pointer [c] *)
  openConns : list ClientConn;   (* connections dialled and not yet closed *)
  trace : list Event;            (* events so far, oldest first *)
  deferred : list Deferred       (* deferred calls, most recent first *)
}.

(** How a statement sequence stops before its end. *)
Inductive Exit :=
| ExitReturn
| ExitPanic (msg : string)
| ExitBlocked.

Definition Go (A : Type) : Type := GoState -> GoState * (A + Exit).

Global Instance Go_ret : MRet Go := fun A a s => (s, inl a).
Global Instance Go_bind : MBind Go := fun A B f m s =>
  match m s with
  | (s', inl a) => f a s'
  | (s', inr x) => (s', inr x)
  end.

Definition add_events (evs : list Event) (s : GoState) : GoState :=
  mkState (self s) (openConns s) (trace s ++ evs) (deferred s).

Definition emit (e : Event) : Go unit := fun s => (add_events [e] s, inl tt).
Definition exit {A} (x : Exit) : Go A := fun s => (s, inr x).
Definition panic {A} (msg : string) : Go A := exit (ExitPanic msg).
(** The statement [return]. *)
Definition return_ {A} : Go A := exit ExitReturn.

(** Reading a field of the receiver, [c.f]. *)
Definition read {A} (f : LndExporter -> A) : Go A := fun s => (s, inl (f (self s))).

Definition set_locked (b : bool) (c : LndExporter) : LndExporter :=
  mkLndExporter b (metrics c) (rpcAddr c) (tlsCertPath c) (macaroonPath c)
    (timeout c) (exportPeerMetrics c) (exportPaymentMetrics c).

(** [c.Lock()]: a goroutine that finds the mutex held waits. *)
Definition Lock : Go unit := fun s =>
  if mutexLocked (self s) then (s, inr ExitBlocked)
  else (mkState (set_locked true (self s)) (openConns s) (trace s ++ [EvLock]) (deferred s),
        inl tt).

(** [c.Unlock()]. *)
Definition Unlock : Go unit := fun s =>
  if mutexLocked (self s)
  then (mkState (set_locked false (self s)) (openConns s) (trace s ++ [EvUnlock]) (deferred s),
        inl tt)
  else (s, inr (ExitPanic "sync: unlock of unlocked mutex")).

Definition defer (d : Deferred) : Go unit := fun s =>
  (mkState (self s) (openConns s) (trace s) (d :: deferred s), inl tt).

Fixpoint remove_conn (con : ClientConn) (l : list ClientConn) : list ClientConn :=
  match l with
  | [] => []
  | x :: l' => if Nat.eqb x con then l' else x :: remove_conn con l'
  end.

(** [con.Close()]. *)
Definition Close (con : ClientConn) : Go unit := fun s =>
  (mkState (self s) (remove_conn con (openConns s)) (trace s ++ [EvClose con]) (deferred s),
   inl tt).

(** [grpc.Dial(addr, opts...)]. *)
Definition grpcDial (w : World) (addr : string) (opts : list DialOption)
    : Go (result ClientConn) := fun s =>
  match Dial w addr opts with
  | Ok con =>
      (mkState (self s) (con :: openConns s) (trace s ++ [EvDial addr]) (deferred s),
       inl (Ok con))
  | Err err => (add_events [EvDial addr] s, inl (Err err))
  end.

Definition logPrintf (msg : string) : Go unit := emit (EvLog msg).
(** [log.Println(a, err)] separates its operands by a space. *)
Definition logPrintln (a : string) (err : error) : Go unit :=
  emit (EvLog (a +:+ " " +:+ err)).

(** [ch <- m]. *)
Definition send (m : Metric) : Go unit := emit (EvSend m).

(** One RPC on the connection, under the context. *)
Definition invoke {A} (m : RpcMethod) (oracle : ClientConn -> Context -> result A)
    (con : ClientConn) (ctx : Context) : Go (result A) :=
  emit (EvRpc m con ctx) ;; mret (oracle con ctx).

(** [for _, x := range l { body }] over a slice. *)
Fixpoint forRange {A} (l : list A) (body : A -> Go unit) : Go unit :=
  match l with
  | [] => mret tt
  | x :: l' => body x ;; forRange l' body
  end.

(** How a call ends for its caller. *)
Inductive Outcome :=
| Returned
| Panicked (msg : string)
| Blocked.

Definition runDeferredCall (d : Deferred) : Go unit :=
  match d with
  | DUnlock => Unlock
  | DClose con => Close con
  | DCancel ctx => emit (EvCancel ctx)
  end.

(** Deferred calls run last-registered first, also while panicking. *)
Fixpoint runDefers (ds : list Deferred) (o : Outcome) (s : GoState)
    : GoState * Outcome :=
  match ds with
  | [] => (s, o)
  | d :: ds' =>
      match runDeferredCall d s with
      | (s', inl _) => runDefers ds' o s'
      | (s', inr (ExitPanic msg)) => runDefers ds' (Panicked msg) s'
      | (s', inr ExitReturn) => runDefers ds' o s'
      | (s', inr ExitBlocked) => (s', Blocked)
      end
  end.

(** A call of a function whose body is [body]: the body runs with an empty
    stack of deferred calls, which is unwound when the body ends, returns
    or panics; a blocked goroutine stays where it is. *)
Definition call (body : Go unit) (s : GoState) : GoState * Outcome :=
  let saved := deferred s in
  let '(s1, r) := body (mkState (self s) (openConns s) (trace s) []) in
  let o := match r with
           | inl _ | inr ExitReturn => Returned
           | inr (ExitPanic msg) => Panicked msg
           | inr ExitBlocked => Blocked
           end in
  match o with
  | Blocked => (s1, Blocked)
  | _ =>
      let '(s2, o') :=
        runDefers (deferred s1) o (mkState (self s1) (openConns s1) (trace s1) []) in
      (mkState (self s2) (openConns s2) (trace s2) saved, o')
  end.

(** ** strconv and small helpers of collector.go *)

Module strconv.
Definition FormatBool (b : bool) : string := if b then "true" else "false".
(** [FormatUint(x, 10)] and [FormatInt(x, 10)]: decimal digits, with a
    leading minus sign for a negative [int64]. *)
Definition FormatUint (x : Z) : string := pretty x.
Definition FormatInt (x : Z) : string := pretty x.
(** [ParseBool(str)]: the twelve spellings that the Go library accepts. The
    text of the error is that of the library without the quoting of [str]. *)
Definition ParseBool (str : string) : result bool :=
  if bool_decide (str ∈ ["1"; "t"; "T"; "true"; "TRUE"; "True"]) then Ok true
  else if bool_decide (str ∈ ["0"; "f"; "F"; "false"; "FALSE"; "False"]) then Ok false
  else Err ("strconv.ParseBool: parsing " +:+ str +:+ ": invalid syntax").
End strconv.

Definition boolToFloat (b : bool) : float64 :=
  if negb b then F64.zero else F64.one.

(** [len(l)] as the integer that [float64(len(l))] converts. *)
Definition len {A} (l : list A) : Z := Z.of_nat (length l).

(** Modelled from the spec: [prometheus.MustNewConstMetric] belongs to the
    client library, which is not among the sources. The invariant of a
    Sample, "label-value count equals the descriptor's label-name count",
    is what the constructor enforces: it panics when the counts differ.
    The first argument is the result of indexing [c.metrics]: a key that is
    absent gives a nil descriptor, and dereferencing it panics.

    The constructor of the library also panics on a descriptor that carries
    the error of [NewDesc]. That branch is not part of this model: [Collect]
    is embedded as it runs in the program, on a collector that the registry
    has accepted, and [Register] below accepts no descriptor that carries an
    error. What is proved about panics is stated for such a collector.
    (The library refuses as well a label value that is not valid UTF-8; the
    label values of [Collect] are constants, decimal numbers and string
    fields of proto3 messages, which are valid UTF-8 once decoded.) *)
Definition MustNewConstMetric (d : option Desc) (vt : ValueType) (v : float64)
    (lbls : list string) : Go Metric :=
  match d with
  | None => panic "invalid memory address or nil pointer dereference"
  | Some d =>
      if Nat.eqb (length lbls) (length (variableLabels d))
      then mret (mkMetric d vt v lbls)
      else panic "inconsistent label cardinality"
  end.

(** [c.metrics[key]]. *)
Definition metric (key : string) : Go (option Desc) :=
  read (fun c => metrics c !! key).

(** [ch <- prometheus.MustNewConstMetric(c.metrics[key], vt, v, lbls...)]. *)
Definition sendConstMetric (key : string) (vt : ValueType) (v : float64)
    (lbls : list string) : Go unit :=
  d ← metric key;
  m ← MustNewConstMetric d vt v lbls;
  send m.

(** ** getGrpcClient *)

Definition getGrpcClient (w : World) (rpcAddr tlsCertPath macaroonPath : string)
    : Go (result ClientConn) :=
  match NewClientTLSFromFile w tlsCertPath "" with
  | Err err =>
      logPrintln "Cannot get node tls credentials" err ;;
      mret (Err err)
  | Ok tlsCreds =>
  match ReadFile w macaroonPath with
  | Err err =>
      logPrintln "Cannot read macaroon file" err ;;
      mret (Err err)
  | Ok macaroonBytes =>
  match UnmarshalBinary w macaroonBytes with
  | Err err =>
      logPrintln "Cannot unmarshal macaroon" err ;;
      mret (Err err)
  | Ok mac =>
  match NewMacaroonCredential w mac with
  | Err err => mret (Err err)
  | Ok macOpts =>
      let opts := [ WithTransportCredentials tlsCreds;
                    WithPerRPCCredentials macOpts;
                    WithDefaultCallOptions maxMsgRecvSize ] in
      r ← grpcDial w rpcAddr opts;
      match r with
      | Err err =>
          logPrintf ("grpc.Dial() err: " +:+ err) ;;
          mret (Err err)
      | Ok conn => mret (Ok conn)
      end
  end end end end.

(** ** Collect *)

(** Lines 166-183: the samples of the node status. *)
Definition sendInfo (stats : lnrpc.GetInfoResponse) : Go unit :=
  sendConstMetric "instance_info" GaugeValue F64.one
    [ lnrpc.Alias stats; lnrpc.IdentityPubkey stats; lnrpc.Version stats ] ;;
  sendConstMetric "peers" GaugeValue (F64.of_Z (lnrpc.NumPeers stats)) [] ;;
  sendConstMetric "channels" GaugeValue
    (F64.of_Z (lnrpc.NumActiveChannels stats)) ["active"] ;;
  sendConstMetric "channels" GaugeValue
    (F64.of_Z (lnrpc.NumPendingChannels stats)) ["pending"] ;;
  sendConstMetric "channels" GaugeValue
    (F64.of_Z (lnrpc.NumInactiveChannels stats)) ["inactive"] ;;
  sendConstMetric "block_height" GaugeValue (F64.of_Z (lnrpc.BlockHeight stats)) [] ;;
  sendConstMetric "synced_to_chain" GaugeValue
    (boolToFloat (lnrpc.SyncedToChain stats)) [].

(** Lines 185-192. *)
Definition probeWalletBalance (w : World) (con : ClientConn) (ctx : Context)
    : Go unit :=
  r ← invoke WalletBalance (rpcWalletBalance w) con ctx;
  match r with
  | Ok walletStats =>
      sendConstMetric "wallet_balance_sats" GaugeValue
        (F64.of_Z (lnrpc.UnconfirmedBalance walletStats)) ["unconfirmed"] ;;
      sendConstMetric "wallet_balance_sats" GaugeValue
        (F64.of_Z (lnrpc.ConfirmedBalance walletStats)) ["confirmed"]
  | Err err => logPrintf ("rpcClient.GetWalletStats err: " +:+ err)
  end.

(** Lines 194-207. *)
Definition probePendingChannels (w : World) (con : ClientConn) (ctx : Context)
    : Go unit :=
  r ← invoke PendingChannels (rpcPendingChannels w) con ctx;
  match r with
  | Ok pendingChannelsStats =>
      sendConstMetric "channel_limbo_balance_sats" GaugeValue
        (F64.of_Z (lnrpc.TotalLimboBalance pendingChannelsStats)) [] ;;
      sendConstMetric "channels_pending" GaugeValue
        (F64.of_Z (len (lnrpc.PendingOpenChannels pendingChannelsStats)))
        ["opening"; "false"] ;;
      sendConstMetric "channels_pending" GaugeValue
        (F64.of_Z (len (lnrpc.PendingClosingChannels pendingChannelsStats)))
        ["closing"; "false"] ;;
      sendConstMetric "channels_pending" GaugeValue
        (F64.of_Z (len (lnrpc.PendingForceClosingChannels pendingChannelsStats)))
        ["closing"; "true"] ;;
      sendConstMetric "channels_waiting_close" GaugeValue
        (F64.of_Z (len (lnrpc.WaitingCloseChannels pendingChannelsStats))) []
  | Err err => logPrintf ("rpcClient.GetPendingChannelsStats err: " +:+ err)
  end.

(** Lines 209-214. *)
Definition probeChannelBalance (w : World) (con : ClientConn) (ctx : Context)
    : Go unit :=
  r ← invoke ChannelBalance (rpcChannelBalance w) con ctx;
  match r with
  | Ok channelsBalanceStats =>
      sendConstMetric "channels_balance_sats" GaugeValue
        (F64.of_Z (lnrpc.Balance channelsBalanceStats)) []
  | Err err => logPrintf ("rpcClient.GetChannelsBalanceStats err: " +:+ err)
  end.

(** Lines 221-233: one sample per forwarding event. *)
Definition sendForwardingEvent (f : lnrpc.ForwardingEvent) : Go unit :=
  sendConstMetric "forwarding_history_info" GaugeValue F64.one
    [ lnrpc.PeerAliasIn f;
      lnrpc.PeerAliasOut f;
      strconv.FormatUint (lnrpc.AmtIn f);
      strconv.FormatUint (lnrpc.AmtOut f);
      strconv.FormatUint (lnrpc.Fee f);
      strconv.FormatUint (lnrpc.ChanIdIn f);
      strconv.FormatUint (lnrpc.ChanIdOut f);
      strconv.FormatUint (lnrpc.TimestampNs f) ].

(** Lines 218-237. *)
Definition probeForwardingHistory (w : World) (con : ClientConn) (ctx : Context)
    : Go unit :=
  enabled ← read exportPaymentMetrics;
  if enabled : bool then
    r ← invoke ForwardingHistory (rpcForwardingHistory w) con ctx;
    match r with
    | Ok fwdHistoryStats =>
        forRange (lnrpc.ForwardingEvents fwdHistoryStats) sendForwardingEvent
    | Err err => logPrintf ("rpcClient.ForwardingHistory err: " +:+ err)
    end
  else mret tt.

(** Lines 239-246 (a failure is not logged). *)
Definition probeNetworkInfo (w : World) (con : ClientConn) (ctx : Context)
    : Go unit :=
  r ← invoke GetNetworkInfo (rpcGetNetworkInfo w) con ctx;
  match r with
  | Ok networkInfo =>
      sendConstMetric "network_capacity_sats_total" GaugeValue
        (F64.of_Z (lnrpc.TotalNetworkCapacity networkInfo)) [] ;;
      sendConstMetric "network_channels_total" GaugeValue
        (F64.of_Z (lnrpc.NumChannels networkInfo)) [] ;;
      sendConstMetric "network_nodes_total" GaugeValue
        (F64.of_Z (lnrpc.NumNodes networkInfo)) []
  | Err _ => mret tt
  end.

(** Lines 250-259. *)
Definition channelLabels (channel : lnrpc.Channel) : list string :=
  [ strconv.FormatBool (lnrpc.Active channel);
    lnrpc.RemotePubkey channel;
    lnrpc.ChannelPoint channel;
    strconv.FormatUint (lnrpc.ChanId channel);
    strconv.FormatInt (lnrpc.Capacity channel);
    strconv.FormatInt (lnrpc.CommitFee channel);
    strconv.FormatBool (lnrpc.Private channel);
    strconv.FormatBool (lnrpc.Initiator channel) ].

(** Line 261. *)
Definition realCapacity (channel : lnrpc.Channel) : float64 :=
  F64.sub (F64.of_Z (lnrpc.Capacity channel)) (F64.of_Z (lnrpc.CommitFee channel)).

(** Lines 249-271: the body of the loop over the open channels. *)
Definition sendChannel (channel : lnrpc.Channel) : Go unit :=
  let lbls := channelLabels channel in
  (if F64.gtb (realCapacity channel) F64.zero then
     let balancePercentage :=
       F64.div (F64.of_Z (lnrpc.LocalBalance channel)) (realCapacity channel) in
     sendConstMetric "channel_balance_percentage" GaugeValue balancePercentage lbls
   else mret tt) ;;
  sendConstMetric "channel_balance_sats" GaugeValue
    (F64.of_Z (lnrpc.LocalBalance channel)) lbls.

(** Lines 248-274. *)
Definition probeListChannels (w : World) (con : ClientConn) (ctx : Context)
    : Go unit :=
  r ← invoke ListChannels (rpcListChannels w) con ctx;
  match r with
  | Ok channelBalanceStats =>
      forRange (lnrpc.Channels channelBalanceStats) sendChannel
  | Err err => logPrintf ("rpcClient.GetChannelBalanceStats err: " +:+ err)
  end.

(** Lines 279-294: the body of the loop over the peers. *)
Definition sendPeer (peer : lnrpc.Peer) : Go unit :=
  let dir := if lnrpc.Inbound peer then "inbound" else "outbound" in
  sendConstMetric "peer_info" GaugeValue F64.one
    [ lnrpc.Address peer; lnrpc.PubKey peer; dir ] ;;
  sendConstMetric "peer_info_received_bytes_total" CounterValue
    (F64.of_Z (lnrpc.BytesRecv peer)) [ lnrpc.Address peer ] ;;
  sendConstMetric "peer_info_sent_bytes_total" CounterValue
    (F64.of_Z (lnrpc.BytesSent peer)) [ lnrpc.Address peer ].

(** Lines 276-298. *)
Definition probeListPeers (w : World) (con : ClientConn) (ctx : Context)
    : Go unit :=
  enabled ← read exportPeerMetrics;
  if enabled : bool then
    r ← invoke ListPeers (rpcListPeers w) con ctx;
    match r with
    | Ok peers => forRange (lnrpc.Peers peers) sendPeer
    | Err err => logPrintf ("rpcClient.ListPeers err: " +:+ err)
    end
  else mret tt.

(** The body of [Collect]. *)
Definition CollectBody (w : World) : Go unit :=
  Lock ;;
  defer DUnlock ;;
  addr ← read rpcAddr;
  certPath ← read tlsCertPath;
  macPath ← read macaroonPath;
  r ← getGrpcClient w addr certPath macPath;
  match r with
  | Err err =>
      logPrintf ("getGrpcClient() err: " +:+ err) ;;
      sendConstMetric "lnd_up" GaugeValue F64.zero [] ;;
      return_
  | Ok con =>
      defer (DClose con) ;;
      let ctx := WithTimeout (15 * Second) in
      defer (DCancel ctx) ;;
      r ← invoke GetInfo (rpcGetInfo w) con ctx;
      match r with
      | Err err =>
          logPrintf ("rpcClient.GetInfo() err: " +:+ err) ;;
          sendConstMetric "lnd_up" GaugeValue F64.zero [] ;;
          return_
      | Ok stats =>
          sendInfo stats ;;
          probeWalletBalance w con ctx ;;
          probePendingChannels w con ctx ;;
          probeChannelBalance w con ctx ;;
          probeForwardingHistory w con ctx ;;
          probeNetworkInfo w con ctx ;;
          probeListChannels w con ctx ;;
          probeListPeers w con ctx ;;
          sendConstMetric "lnd_up" GaugeValue F64.one []
      end
  end.

(** [c.Collect(ch)]: the events go to the trace of the state. *)
Definition Collect (w : World) (s : GoState) : GoState * Outcome :=
  call (CollectBody w) s.

(** [c.Describe(ch)]: [for _, m := range c.metrics { ch <- m }]. Go leaves
    the order of a range over a map unspecified, and it may change from one
    loop to the next: [order] is the order in which the runtime visits the
    entries during this call, any arrangement of the entries of the map. *)
Definition DescribeIn (order : list (string * Desc)) : list Desc := order.*2.

Definition Describe (c : LndExporter) (out : list Desc) : Prop :=
  exists order, order ≡ₚ map_to_list (metrics c) /\ out = DescribeIn order.

(** ** Registration (client library)

    [Registry.Register] of the client library, which is not among the
    sources, on a registry that holds no collector yet, as [main] calls it.
    The registry reads the descriptors that [Describe] sends, one after the
    other: a descriptor that carries an error is refused; so is a descriptor
    whose name came before with another help text or other label names
    ([dims] remembers them by name; the library compares hashes of them). A
    collector that sends no descriptor is accepted unchecked. *)
Fixpoint registerDescs (dims : gmap string (string * list string))
    (descs : list Desc) : result unit :=
  match descs with
  | [] => Ok tt
  | d :: descs =>
      match err d with
      | Some e => Err ("descriptor " +:+ fqName d +:+ " is invalid: " +:+ e)
      | None =>
          match dims !! fqName d with
          | Some dim =>
              if decide (dim = (help d, variableLabels d))
              then registerDescs dims descs
              else Err ("a previously registered descriptor with the same "
                        +:+ "fully-qualified name as " +:+ fqName d
                        +:+ " has different label names or a different help string")
          | None =>
              registerDescs (<[fqName d := (help d, variableLabels d)]> dims) descs
          end
      end
  end.

Definition Register (descs : list Desc) : result unit := registerDescs ∅ descs.

(** The namespaces with which the names that [newGlobalMetric] builds are
    valid metric names: the empty one (the name then starts with the
    underscore) and the valid metric names. *)
Definition validNamespace (ns : string) : bool :=
  match ns with
  | EmptyString => true
  | _ => model.IsValidMetricName ns
  end.

(** ** The skippable probes, in the order of [Collect] *)

Inductive Probe :=
| PWalletBalance | PPendingChannels | PChannelBalance | PForwardingHistory
| PNetworkInfo | PListChannels | PListPeers.

Global Instance Probe_eq_dec : EqDecision Probe.
Proof. solve_decision. Defined.

Definition probeOrder : list Probe :=
  [ PWalletBalance; PPendingChannels; PChannelBalance; PForwardingHistory;
    PNetworkInfo; PListChannels; PListPeers ].

Definition runProbe (w : World) (con : ClientConn) (ctx : Context) (p : Probe)
    : Go unit :=
  match p with
  | PWalletBalance => probeWalletBalance w con ctx
  | PPendingChannels => probePendingChannels w con ctx
  | PChannelBalance => probeChannelBalance w con ctx
  | PForwardingHistory => probeForwardingHistory w con ctx
  | PNetworkInfo => probeNetworkInfo w con ctx
  | PListChannels => probeListChannels w con ctx
  | PListPeers => probeListPeers w con ctx
  end.

Definition probeMethod (p : Probe) : RpcMethod :=
  match p with
  | PWalletBalance => WalletBalance
  | PPendingChannels => PendingChannels
  | PChannelBalance => ChannelBalance
  | PForwardingHistory => ForwardingHistory
  | PNetworkInfo => GetNetworkInfo
  | PListChannels => ListChannels
  | PListPeers => ListPeers
  end.

(** The flag that gates a probe, if any. *)
Definition probeEnabled (c : LndExporter) (p : Probe) : bool :=
  match p with
  | PForwardingHistory => exportPaymentMetrics c
  | PListPeers => exportPeerMetrics c
  | _ => true
  end.

(** Whether the RPC of a probe answers with an error. *)
Definition probeFails (w : World) (con : ClientConn) (ctx : Context) (p : Probe) : bool :=
  match p with
  | PWalletBalance => negb (is_ok (rpcWalletBalance w con ctx))
  | PPendingChannels => negb (is_ok (rpcPendingChannels w con ctx))
  | PChannelBalance => negb (is_ok (rpcChannelBalance w con ctx))
  | PForwardingHistory => negb (is_ok (rpcForwardingHistory w con ctx))
  | PNetworkInfo => negb (is_ok (rpcGetNetworkInfo w con ctx))
  | PListChannels => negb (is_ok (rpcListChannels w con ctx))
  | PListPeers => negb (is_ok (rpcListPeers w con ctx))
  end.

(** The keys of [c.metrics] that a probe sends samples of. *)
Definition probeKeys (p : Probe) : list string :=
  match p with
  | PWalletBalance => ["wallet_balance_sats"]
  | PPendingChannels =>
      ["channel_limbo_balance_sats"; "channels_pending"; "channels_waiting_close"]
  | PChannelBalance => ["channels_balance_sats"]
  | PForwardingHistory => ["forwarding_history_info"]
  | PNetworkInfo =>
      ["network_capacity_sats_total"; "network_channels_total"; "network_nodes_total"]
  | PListChannels => ["channel_balance_percentage"; "channel_balance_sats"]
  | PListPeers =>
      ["peer_info"; "peer_info_received_bytes_total"; "peer_info_sent_bytes_total"]
  end.

(** ** Vocabulary of the statements *)

(** The samples sent on the channel, in order. *)
Definition samples (tr : list Event) : list Metric :=
  omap (fun e => match e with EvSend m => Some m | _ => None end) tr.

(** The RPCs issued, in order. *)
Definition rpcs (tr : list Event) : list RpcMethod :=
  omap (fun e => match e with EvRpc m _ _ => Some m | _ => None end) tr.

(** A goroutine about to call [Collect] on the exporter [c]. *)
Definition fresh (c : LndExporter) : GoState := mkState c [] [] [].

(** The metric stream of one scrape: what [Collect] sends on the channel. *)
Definition emitted (w : World) (c : LndExporter) : list Metric :=
  samples (trace (Collect w (fresh c)).1).

(** The RPCs that one scrape issues. *)
Definition issued (w : World) (c : LndExporter) : list RpcMethod :=
  rpcs (trace (Collect w (fresh c)).1).

(** How the scrape ends for the caller of [Collect]. *)
Definition outcome (w : World) (c : LndExporter) : Outcome :=
  (Collect w (fresh c)).2.

(** What a piece of [Collect] sends when it runs on its own. *)
Definition samplesOf (m : Go unit) (c : LndExporter) : list Metric :=
  samples (trace (m (fresh c)).1).

(** The descriptor stored under a key of the catalog. *)
Definition descOf (namespace key : string) : Desc :=
  default (mkDesc "" "" [] None) (catalog namespace !! key).

Definition sample (namespace key : string) (vt : ValueType) (v : float64)
    (lbls : list string) : Metric :=
  mkMetric (descOf namespace key) vt v lbls.

(** The liveness sample. *)
Definition lndUp (namespace : string) (v : float64) : Metric :=
  sample namespace "lnd_up" GaugeValue v [].

Definition isLiveness (namespace : string) (m : Metric) : Prop :=
  fqName (desc m) = namespace +:+ "_lnd_up".

Global Instance isLiveness_dec namespace m : Decision (isLiveness namespace m).
Proof. unfold isLiveness. apply _. Defined.


(** A sample of one of the metrics of probe [p]. *)
Definition fromProbe (namespace : string) (p : Probe) (m : Metric) : Prop :=
  exists key, key ∈ probeKeys p /\ desc m = descOf namespace key.

(** The keys of the catalog, and the name of each metric after the
    namespace. *)
Definition catalogKeys : list string := (catalogTable "").*1.

Definition metricSuffix (key : string) : string := fqName (descOf "" key).

(** The keys of [c.metrics] of the samples of the node status. *)
Definition infoKeys : list string :=
  ["instance_info"; "peers"; "channels"; "block_height"; "synced_to_chain"].

(** A sample of the node status. *)
Definition fromInfo (namespace : string) (m : Metric) : Prop :=
  exists key, key ∈ infoKeys /\ desc m = descOf namespace key.

(** The context of a session: one deadline, 15 seconds after its start. *)
Definition sessionCtx : Context := WithTimeout (15 * Second).

(** The value that [getGrpcClient] returns in a world. *)
Definition connectResult (w : World) (c : LndExporter) : result ClientConn :=
  match NewClientTLSFromFile w (tlsCertPath c) "" with
  | Err err => Err err
  | Ok tlsCreds =>
  match ReadFile w (macaroonPath c) with
  | Err err => Err err
  | Ok macaroonBytes =>
  match UnmarshalBinary w macaroonBytes with
  | Err err => Err err
  | Ok mac =>
  match NewMacaroonCredential w mac with
  | Err err => Err err
  | Ok macOpts =>
      Dial w (rpcAddr c)
        [ WithTransportCredentials tlsCreds;
          WithPerRPCCredentials macOpts;
          WithDefaultCallOptions maxMsgRecvSize ]
  end end end end.

(** ** Worlds and messages for the examples *)

Definition demoInfo : lnrpc.GetInfoResponse :=
  {| lnrpc.Alias := "alice";
     lnrpc.IdentityPubkey := "02ab";
     lnrpc.Version := "0.18.0";
     lnrpc.NumPeers := 5;
     lnrpc.NumActiveChannels := 2;
     lnrpc.NumPendingChannels := 1;
     lnrpc.NumInactiveChannels := 0;
     lnrpc.BlockHeight := 840000;
     lnrpc.SyncedToChain := true |}.

Definition channelOf (capacity commitFee localBalance : Z) : lnrpc.Channel :=
  {| lnrpc.Active := true;
     lnrpc.RemotePubkey := "03cd";
     lnrpc.ChannelPoint := "txid:0";
     lnrpc.ChanId := 1;
     lnrpc.Capacity := capacity;
     lnrpc.CommitFee := commitFee;
     lnrpc.LocalBalance := localBalance;
     lnrpc.Private := false;
     lnrpc.Initiator := true |}.

(** A channel whose capacity and fee are above 2^53 and differ by one. *)
Definition hugeChannel : lnrpc.Channel :=
  channelOf 9007199254740993 9007199254740992 1.

(** A node that answers every RPC but WalletBalance, with the channels
    given. *)
Definition demoWorld (channels : list lnrpc.Channel) : World :=
  {| NewClientTLSFromFile := fun _ _ => Ok "tls";
     ReadFile := fun _ => Ok "macaroon bytes";
     UnmarshalBinary := fun _ => Ok "macaroon";
     NewMacaroonCredential := fun _ => Ok "credential";
     Dial := fun _ _ => Ok 7%nat;
     rpcGetInfo := fun _ _ => Ok demoInfo;
     rpcWalletBalance := fun _ _ => Err "wallet locked";
     rpcPendingChannels := fun _ _ =>
       Ok {| lnrpc.TotalLimboBalance := 0;
             lnrpc.PendingOpenChannels := [tt];
             lnrpc.PendingClosingChannels := [];
             lnrpc.PendingForceClosingChannels := [];
             lnrpc.WaitingCloseChannels := [] |};
     rpcChannelBalance := fun _ _ => Ok {| lnrpc.Balance := 45 |};
     rpcForwardingHistory := fun _ _ =>
       Ok {| lnrpc.ForwardingEvents :=
               [ {| lnrpc.PeerAliasIn := "bob";
                    lnrpc.PeerAliasOut := "carol";
                    lnrpc.AmtIn := 1001;
                    lnrpc.AmtOut := 1000;
                    lnrpc.Fee := 1;
                    lnrpc.ChanIdIn := 1;
                    lnrpc.ChanIdOut := 2;
                    lnrpc.TimestampNs := 1700000000000000000 |} ] |};
     rpcGetNetworkInfo := fun _ _ =>
       Ok {| lnrpc.TotalNetworkCapacity := 500000000000;
             lnrpc.NumChannels := 50000;
             lnrpc.NumNodes := 15000 |};
     rpcListChannels := fun _ _ => Ok {| lnrpc.Channels := channels |};
     rpcListPeers := fun _ _ =>
       Ok {| lnrpc.Peers :=
               [ {| lnrpc.Address := "10.0.0.2:9735";
                    lnrpc.PubKey := "03cd";
                    lnrpc.Inbound := false;
                    lnrpc.BytesRecv := 2048;
                    lnrpc.BytesSent := 1024 |} ] |} |}.

(** The same node when the macaroon file cannot be read. *)
Definition offlineWorld : World :=
  {| NewClientTLSFromFile := NewClientTLSFromFile (demoWorld []);
     ReadFile := fun _ => Err "open: no such file or directory";
     UnmarshalBinary := UnmarshalBinary (demoWorld []);
     NewMacaroonCredential := NewMacaroonCredential (demoWorld []);
     Dial := Dial (demoWorld []);
     rpcGetInfo := rpcGetInfo (demoWorld []);
     rpcWalletBalance := rpcWalletBalance (demoWorld []);
     rpcPendingChannels := rpcPendingChannels (demoWorld []);
     rpcChannelBalance := rpcChannelBalance (demoWorld []);
     rpcForwardingHistory := rpcForwardingHistory (demoWorld []);
     rpcGetNetworkInfo := rpcGetNetworkInfo (demoWorld []);
     rpcListChannels := rpcListChannels (demoWorld []);
     rpcListPeers := rpcListPeers (demoWorld []) |}.

(** The exporter that [main] registers, with the defaults of its flags. *)
Definition mainExporter : LndExporter :=
  NewLightningExporter "lnd" "localhost:10009" "/root/.lnd" "" (15 * Second) true.

(** The exporter of [main] with the forwarding-history probe switched off. *)
Definition noPaymentsExporter : LndExporter :=
  mkLndExporter false (catalog "lnd") "localhost:10009" "/root/.lnd" ""
    (15 * Second) true false.

(** The exporter with another stored timeout. *)
Definition withTimeout (t : Duration) (c : LndExporter) : LndExporter :=
  mkLndExporter (mutexLocked c) (metrics c) (rpcAddr c) (tlsCertPath c)
    (macaroonPath c) t (exportPeerMetrics c) (exportPaymentMetrics c).

Definition withTimeoutState (t : Duration) (s : GoState) : GoState :=
  mkState (withTimeout t (self s)) (openConns s) (trace s) (deferred s).

(** ** The samples of each piece of [Collect], written out

    These lists are what the lemmas of the next part show the code to send;
    the statements about [Collect] are phrased with [samplesOf], which runs
    the code itself. *)

Definition infoSamples (ns : string) (stats : lnrpc.GetInfoResponse) : list Metric :=
  [ sample ns "instance_info" GaugeValue F64.one
      [ lnrpc.Alias stats; lnrpc.IdentityPubkey stats; lnrpc.Version stats ];
    sample ns "peers" GaugeValue (F64.of_Z (lnrpc.NumPeers stats)) [];
    sample ns "channels" GaugeValue (F64.of_Z (lnrpc.NumActiveChannels stats)) ["active"];
    sample ns "channels" GaugeValue (F64.of_Z (lnrpc.NumPendingChannels stats)) ["pending"];
    sample ns "channels" GaugeValue (F64.of_Z (lnrpc.NumInactiveChannels stats)) ["inactive"];
    sample ns "block_height" GaugeValue (F64.of_Z (lnrpc.BlockHeight stats)) [];
    sample ns "synced_to_chain" GaugeValue (boolToFloat (lnrpc.SyncedToChain stats)) [] ].

Definition walletBalanceSamples (ns : string) (r : lnrpc.WalletBalanceResponse)
    : list Metric :=
  [ sample ns "wallet_balance_sats" GaugeValue
      (F64.of_Z (lnrpc.UnconfirmedBalance r)) ["unconfirmed"];
    sample ns "wallet_balance_sats" GaugeValue
      (F64.of_Z (lnrpc.ConfirmedBalance r)) ["confirmed"] ].

Definition pendingChannelsSamples (ns : string) (r : lnrpc.PendingChannelsResponse)
    : list Metric :=
  [ sample ns "channel_limbo_balance_sats" GaugeValue
      (F64.of_Z (lnrpc.TotalLimboBalance r)) [];
    sample ns "channels_pending" GaugeValue
      (F64.of_Z (len (lnrpc.PendingOpenChannels r))) ["opening"; "false"];
    sample ns "channels_pending" GaugeValue
      (F64.of_Z (len (lnrpc.PendingClosingChannels r))) ["closing"; "false"];
    sample ns "channels_pending" GaugeValue
      (F64.of_Z (len (lnrpc.PendingForceClosingChannels r))) ["closing"; "true"];
    sample ns "channels_waiting_close" GaugeValue
      (F64.of_Z (len (lnrpc.WaitingCloseChannels r))) [] ].

Definition channelBalanceSamples (ns : string) (r : lnrpc.ChannelBalanceResponse)
    : list Metric :=
  [ sample ns "channels_balance_sats" GaugeValue (F64.of_Z (lnrpc.Balance r)) [] ].

Definition forwardingEventSamples (ns : string) (f : lnrpc.ForwardingEvent)
    : list Metric :=
  [ sample ns "forwarding_history_info" GaugeValue F64.one
      [ lnrpc.PeerAliasIn f;
        lnrpc.PeerAliasOut f;
        strconv.FormatUint (lnrpc.AmtIn f);
        strconv.FormatUint (lnrpc.AmtOut f);
        strconv.FormatUint (lnrpc.Fee f);
        strconv.FormatUint (lnrpc.ChanIdIn f);
        strconv.FormatUint (lnrpc.ChanIdOut f);
        strconv.FormatUint (lnrpc.TimestampNs f) ] ].

Definition forwardingHistorySamples (ns : string) (r : lnrpc.ForwardingHistoryResponse)
    : list Metric :=
  flat_map (forwardingEventSamples ns) (lnrpc.ForwardingEvents r).

Definition networkInfoSamples (ns : string) (r : lnrpc.NetworkInfo) : list Metric :=
  [ sample ns "network_capacity_sats_total" GaugeValue
      (F64.of_Z (lnrpc.TotalNetworkCapacity r)) [];
    sample ns "network_channels_total" GaugeValue (F64.of_Z (lnrpc.NumChannels r)) [];
    sample ns "network_nodes_total" GaugeValue (F64.of_Z (lnrpc.NumNodes r)) [] ].

(** The balance-ratio sample of a channel. *)
Definition ratioSample (ns : string) (channel : lnrpc.Channel) : Metric :=
  sample ns "channel_balance_percentage" GaugeValue
    (F64.div (F64.of_Z (lnrpc.LocalBalance channel)) (realCapacity channel))
    (channelLabels channel).

(** The balance sample of a channel. *)
Definition balanceSample (ns : string) (channel : lnrpc.Channel) : Metric :=
  sample ns "channel_balance_sats" GaugeValue
    (F64.of_Z (lnrpc.LocalBalance channel)) (channelLabels channel).

Definition channelSamples (ns : string) (channel : lnrpc.Channel) : list Metric :=
  (if F64.gtb (realCapacity channel) F64.zero then [ratioSample ns channel] else [])
  ++ [balanceSample ns channel].

Definition listChannelsSamples (ns : string) (r : lnrpc.ListChannelsResponse)
    : list Metric :=
  flat_map (channelSamples ns) (lnrpc.Channels r).

Definition peerSamples (ns : string) (peer : lnrpc.Peer) : list Metric :=
  [ sample ns "peer_info" GaugeValue F64.one
      [ lnrpc.Address peer; lnrpc.PubKey peer;
        if lnrpc.Inbound peer then "inbound" else "outbound" ];
    sample ns "peer_info_received_bytes_total" CounterValue
      (F64.of_Z (lnrpc.BytesRecv peer)) [ lnrpc.Address peer ];
    sample ns "peer_info_sent_bytes_total" CounterValue
      (F64.of_Z (lnrpc.BytesSent peer)) [ lnrpc.Address peer ] ].

Definition listPeersSamples (ns : string) (r : lnrpc.ListPeersResponse) : list Metric :=
  flat_map (peerSamples ns) (lnrpc.Peers r).

(** The samples of a probe, from the answer of the node: those of the
    answer when the probe is switched on and answered, none otherwise. *)
Definition probeSamples (ns : string) (c : LndExporter) (w : World)
    (con : ClientConn) (ctx : Context) (p : Probe) : list Metric :=
  match p with
  | PWalletBalance =>
      match rpcWalletBalance w con ctx with
      | Ok r => walletBalanceSamples ns r
      | Err _ => []
      end
  | PPendingChannels =>
      match rpcPendingChannels w con ctx with
      | Ok r => pendingChannelsSamples ns r
      | Err _ => []
      end
  | PChannelBalance =>
      match rpcChannelBalance w con ctx with
      | Ok r => channelBalanceSamples ns r
      | Err _ => []
      end
  | PForwardingHistory =>
      if exportPaymentMetrics c then
        match rpcForwardingHistory w con ctx with
        | Ok r => forwardingHistorySamples ns r
        | Err _ => []
        end
      else []
  | PNetworkInfo =>
      match rpcGetNetworkInfo w con ctx with
      | Ok r => networkInfoSamples ns r
      | Err _ => []
      end
  | PListChannels =>
      match rpcListChannels w con ctx with
      | Ok r => listChannelsSamples ns r
      | Err _ => []
      end
  | PListPeers =>
      if exportPeerMetrics c then
        match rpcListPeers w con ctx with
        | Ok r => listPeersSamples ns r
        | Err _ => []
        end
      else []
  end.

(** The metric names of the table of [NewLightningExporter] (lines 41-83),
    in the order of the table: what follows the namespace and the
    underscore in the name of each descriptor. *)
Definition metricNames : list string :=
  [ "lnd_up"; "forwarding_history_info"; "network_capacity_sats_total";
    "network_channels_total"; "network_nodes_total"; "instance_info";
    "wallet_balance_sats"; "peers"; "channels"; "block_height";
    "synced_to_chain"; "channel_limbo_balance_sats"; "channel_pending";
    "channel_waiting_close"; "channels_balance_sats"; "channel_balance_sats";
    "channel_balance_percentage"; "peer_info";
    "peer_info_received_bytes_total"; "peer_info_sent_bytes_total" ].

(** The events after the RPC of a probe: the samples of an answer, or the
    log line of an error (if the probe logs one). *)
Definition answered {A} (r : result A) (f : A -> list Metric)
    (logPrefix : option string) : list Event :=
  match r with
  | Ok a => EvSend <$> f a
  | Err err =>
      match logPrefix with
      | Some prefix => [EvLog (prefix +:+ err)]
      | None => []
      end
  end.

Definition probeTrace (ns : string) (c : LndExporter) (w : World)
    (con : ClientConn) (ctx : Context) (p : Probe) : list Event :=
  if probeEnabled c p then
    EvRpc (probeMethod p) con ctx ::
    match p with
    | PWalletBalance =>
        answered (rpcWalletBalance w con ctx) (walletBalanceSamples ns)
          (Some "rpcClient.GetWalletStats err: ")
    | PPendingChannels =>
        answered (rpcPendingChannels w con ctx) (pendingChannelsSamples ns)
          (Some "rpcClient.GetPendingChannelsStats err: ")
    | PChannelBalance =>
        answered (rpcChannelBalance w con ctx) (channelBalanceSamples ns)
          (Some "rpcClient.GetChannelsBalanceStats err: ")
    | PForwardingHistory =>
        answered (rpcForwardingHistory w con ctx) (forwardingHistorySamples ns)
          (Some "rpcClient.ForwardingHistory err: ")
    | PNetworkInfo =>
        answered (rpcGetNetworkInfo w con ctx) (networkInfoSamples ns) None
    | PListChannels =>
        answered (rpcListChannels w con ctx) (listChannelsSamples ns)
          (Some "rpcClient.GetChannelBalanceStats err: ")
    | PListPeers =>
        answered (rpcListPeers w con ctx) (listPeersSamples ns)
          (Some "rpcClient.ListPeers err: ")
    end
  else [].

(** The events of [getGrpcClient]. *)
Definition connectTrace (w : World) (c : LndExporter) : list Event :=
  match NewClientTLSFromFile w (tlsCertPath c) "" with
  | Err err => [EvLog ("Cannot get node tls credentials" +:+ " " +:+ err)]
  | Ok tlsCreds =>
  match ReadFile w (macaroonPath c) with
  | Err err => [EvLog ("Cannot read macaroon file" +:+ " " +:+ err)]
  | Ok macaroonBytes =>
  match UnmarshalBinary w macaroonBytes with
  | Err err => [EvLog ("Cannot unmarshal macaroon" +:+ " " +:+ err)]
  | Ok mac =>
  match NewMacaroonCredential w mac with
  | Err err => []
  | Ok macOpts =>
      EvDial (rpcAddr c) ::
      match Dial w (rpcAddr c)
              [ WithTransportCredentials tlsCreds;
                WithPerRPCCredentials macOpts;
                WithDefaultCallOptions maxMsgRecvSize ] with
      | Err err => [EvLog ("grpc.Dial() err: " +:+ err)]
      | Ok _ => []
      end
  end end end end.

(** The events of the session on an established connection. *)
Definition sessionTrace (ns : string) (c : LndExporter) (w : World)
    (con : ClientConn) : list Event :=
  EvRpc GetInfo con sessionCtx ::
  match rpcGetInfo w con sessionCtx with
  | Err err =>
      [ EvLog ("rpcClient.GetInfo() err: " +:+ err); EvSend (lndUp ns F64.zero) ]
  | Ok stats =>
      (EvSend <$> infoSamples ns stats)
      ++ flat_map (probeTrace ns c w con sessionCtx) probeOrder
      ++ [ EvSend (lndUp ns F64.one) ]
  end.

(** All the events of one [Collect]. *)
Definition collectTrace (ns : string) (c : LndExporter) (w : World) : list Event :=
  [EvLock] ++ connectTrace w c ++
  match connectResult w c with
  | Err err =>
      [ EvLog ("getGrpcClient() err: " +:+ err); EvSend (lndUp ns F64.zero); EvUnlock ]
  | Ok con =>
      sessionTrace ns c w con ++ [ EvCancel sessionCtx; EvClose con; EvUnlock ]
  end.

(** ** exporter.go: the settings of [main]

    The environment is the map that [os.LookupEnv] reads; the command line
    is [os.Args[1:]]. *)

(** [getEnv(key, defaultValue)]. *)
Definition getEnv (env : gmap string string) (key defaultValue : string) : string :=
  match env !! key with
  | None => defaultValue
  | Some value => value
  end.

(** Package flag of the Go library, which is not among the sources: the
    parsing of the command line by [flag.Parse], for flags of the two kinds
    that [main] declares. *)
Module flag.

Inductive Kind := BoolFlag | StringFlag.

(** The value that a flag was set to. *)
Inductive Value := BoolValue (b : bool) | StringValue (s : string).

Definition ErrHelp : error := "flag: help requested".

(** The bytes 45 and 61. *)
Definition isMinus (b : Ascii.ascii) : bool := (Ascii.N_of_ascii b =? 45)%N.
Definition isEquals (b : Ascii.ascii) : bool := (Ascii.N_of_ascii b =? 61)%N.

(** What is before and what is after the first equals sign, if there is
    one. *)
Fixpoint cutAtEquals (s : string) : option (string * string) :=
  match s with
  | EmptyString => None
  | String b s' =>
      if isEquals b then Some (EmptyString, s')
      else
        match cutAtEquals s' with
        | Some (name, value) => Some (String b name, value)
        | None => None
        end
  end.

(** The loop of [FlagSet.Parse] over [parseOne]. An argument shorter than
    two bytes or without a leading minus ends the flags, and so does the
    argument of two minuses. One or two minuses are dropped; what is left is
    the name, up to an equals sign that is not its first byte, then the
    value. A name that is empty or starts with a minus or an equals sign is
    bad syntax. A name that was not declared is an error, the request for
    help when it is [help] or [h]. A boolean flag without a value is set to
    true, one with a value to what [ParseBool] makes of it; any other flag
    takes its value after the equals sign or else from the next argument,
    and fails when there is none. A flag given again is set again. The text
    of the errors is that of the library without the quoting of values. *)
Fixpoint parse (formal : gmap string Kind) (args : list string)
    (actual : gmap string Value) : result (gmap string Value) :=
  match args with
  | [] => Ok actual
  | s :: rest =>
      match s with
      | String b0 (String b1 s2) =>
          if negb (isMinus b0) then Ok actual
          else if isMinus b1 && bool_decide (s2 = EmptyString) then Ok actual
          else
            match (if isMinus b1 then s2 else String b1 s2) with
            | EmptyString => Err ("bad flag syntax: " +:+ s)
            | String n0 n' =>
                if isMinus n0 || isEquals n0 then Err ("bad flag syntax: " +:+ s)
                else
                  let '(name, value) :=
                    match cutAtEquals n' with
                    | Some (name', value) => (String n0 name', Some value)
                    | None => (String n0 n', None)
                    end in
                  match formal !! name with
                  | None =>
                      if bool_decide (name = "help" \/ name = "h") then Err ErrHelp
                      else Err ("flag provided but not defined: -" +:+ name)
                  | Some BoolFlag =>
                      match value with
                      | Some v =>
                          match strconv.ParseBool v with
                          | Ok b => parse formal rest (<[name := BoolValue b]> actual)
                          | Err _ =>
                              Err ("invalid boolean value " +:+ v +:+ " for -"
                                   +:+ name +:+ ": parse error")
                          end
                      | None => parse formal rest (<[name := BoolValue true]> actual)
                      end
                  | Some StringFlag =>
                      match value with
                      | Some v => parse formal rest (<[name := StringValue v]> actual)
                      | None =>
                          match rest with
                          | v :: rest' =>
                              parse formal rest' (<[name := StringValue v]> actual)
                          | [] => Err ("flag needs an argument: -" +:+ name)
                          end
                      end
                  end
            end
      | _ => Ok actual
      end
  end.

(** [flag.Parse()]: the flags that were set, or the error on which the
    program exits. *)
Definition Parse (formal : gmap string Kind) (args : list string)
    : result (gmap string Value) :=
  parse formal args ∅.

End flag.

Module main.

(** The values behind the pointers that [flag.String] and [flag.Bool]
    return, after [flag.Parse]. *)
Record Flags := {
  namespace : string;
  listenAddr : string;
  metricsPath : string;
  rpcAddr : string;
  tlsCertPath : string;
  macaroonPath : string;
  goMetrics : bool
}.

(** The flags that [main] declares (lines 50-63). *)
Definition formal : gmap string flag.Kind :=
  list_to_map
    [ ("namespace", flag.StringFlag);
      ("web.listen-address", flag.StringFlag);
      ("web.telemetry-path", flag.StringFlag);
      ("rpc.addr", flag.StringFlag);
      ("lnd.tls-cert-path", flag.StringFlag);
      ("lnd.macaroon-path", flag.StringFlag);
      ("go-metrics", flag.BoolFlag) ].

(** [*flag.String(name, value, usage)] after [flag.Parse]. *)
Definition flagString (actual : gmap string flag.Value) (name value : string)
    : string :=
  match actual !! name with
  | Some (flag.StringValue given) => given
  | _ => value
  end.

(** [*flag.Bool(name, value, usage)] after [flag.Parse]. *)
Definition flagBool (actual : gmap string flag.Value) (name : string) (value : bool)
    : bool :=
  match actual !! name with
  | Some (flag.BoolValue given) => given
  | _ => value
  end.

(** Lines 37-64 of exporter.go, once the flags are parsed: the defaults
    from the environment, then the flags. The error of [ParseBool] on
    GO_METRICS is dropped. *)
Definition settings (env : gmap string string) (actual : gmap string flag.Value)
    : Flags :=
  let defaultNamespace := getEnv env "NAMESPACE" "lnd" in
  let defaultListenAddress := getEnv env "LISTEN_ADDRESS" ":9113" in
  let defaultMetricsPath := getEnv env "TELEMETRY_PATH" "/metrics" in
  let defaultRpcAddr := getEnv env "RPC_ADDR" "localhost:10009" in
  let defaultTLSCertPath := getEnv env "TLS_CERT_PATH" "/root/.lnd" in
  let defaultMacaroonPath := getEnv env "MACAROON_PATH" "" in
  let defaultGoMetrics :=
    match strconv.ParseBool (getEnv env "GO_METRICS" "false") with
    | Ok b => b
    | Err _ => false
    end in
  {| namespace := flagString actual "namespace" defaultNamespace;
     listenAddr := flagString actual "web.listen-address" defaultListenAddress;
     metricsPath := flagString actual "web.telemetry-path" defaultMetricsPath;
     rpcAddr := flagString actual "rpc.addr" defaultRpcAddr;
     tlsCertPath := flagString actual "lnd.tls-cert-path" defaultTLSCertPath;
     macaroonPath := flagString actual "lnd.macaroon-path" defaultMacaroonPath;
     goMetrics := flagBool actual "go-metrics" defaultGoMetrics |}.

(** Lines 37-66: the settings of a run, or the error on which [flag.Parse]
    makes the program exit. *)
Definition parseFlags (env : gmap string string) (args : list string)
    : result Flags :=
  match flag.Parse formal args with
  | Err err => Err err
  | Ok actual => Ok (settings env actual)
  end.

Definition defaultTimeout : Duration := 15 * Second.

(** Lines 73-77: the collector that [main] hands to the registry. *)
Definition exporter (flags : Flags) : LndExporter :=
  NewLightningExporter (namespace flags) (rpcAddr flags)
    (tlsCertPath flags) (macaroonPath flags) defaultTimeout true.

(** Lines 66-78: [main] gets past [flag.Parse] with the settings [flags] and
    past [registry.MustRegister]: the registry is new, [out] is what
    [Describe] sends to it, and [MustRegister] panics unless [Register]
    accepts that. The collectors of the runtime metrics (lines 80-83) come
    after, and are of the client library. *)
Definition registered (env : gmap string string) (args : list string)
    (flags : Flags) (out : list Desc) : Prop :=
  parseFlags env args = Ok flags /\
  Describe (exporter flags) out /\
  Register out = Ok tt.

End main.

(** ** Vocabulary of the further properties *)

(** The lines logged, in order. *)
Definition logs (tr : list Event) : list string :=
  omap (fun e => match e with EvLog msg => Some msg | _ => None end) tr.

(** What a piece of [Collect] logs when it runs on its own. *)
Definition logsOf (m : Go unit) (c : LndExporter) : list string :=
  logs (trace (m (fresh c)).1).

(** The error of the RPC of a probe, if it answers with one. *)
Definition probeError (w : World) (con : ClientConn) (ctx : Context) (p : Probe)
    : option error :=
  let errorOf {A} (r : result A) :=
    match r with Ok _ => None | Err err => Some err end in
  match p with
  | PWalletBalance => errorOf (rpcWalletBalance w con ctx)
  | PPendingChannels => errorOf (rpcPendingChannels w con ctx)
  | PChannelBalance => errorOf (rpcChannelBalance w con ctx)
  | PForwardingHistory => errorOf (rpcForwardingHistory w con ctx)
  | PNetworkInfo => errorOf (rpcGetNetworkInfo w con ctx)
  | PListChannels => errorOf (rpcListChannels w con ctx)
  | PListPeers => errorOf (rpcListPeers w con ctx)
  end.

(** Two worlds give the RPC of a probe the same answer. *)
Definition sameAnswer (w1 w2 : World) (con : ClientConn) (ctx : Context) (p : Probe)
    : Prop :=
  match p with
  | PWalletBalance => rpcWalletBalance w1 con ctx = rpcWalletBalance w2 con ctx
  | PPendingChannels => rpcPendingChannels w1 con ctx = rpcPendingChannels w2 con ctx
  | PChannelBalance => rpcChannelBalance w1 con ctx = rpcChannelBalance w2 con ctx
  | PForwardingHistory =>
      rpcForwardingHistory w1 con ctx = rpcForwardingHistory w2 con ctx
  | PNetworkInfo => rpcGetNetworkInfo w1 con ctx = rpcGetNetworkInfo w2 con ctx
  | PListChannels => rpcListChannels w1 con ctx = rpcListChannels w2 con ctx
  | PListPeers => rpcListPeers w1 con ctx = rpcListPeers w2 con ctx
  end.

(** The time series that a sample belongs to: the name of its metric and
    its label values. *)
Definition seriesOf (m : Metric) : string * list string :=
  (fqName (desc m), labelValues m).

(** The labels of the sample of a forwarding event (lines 224-231). *)
Definition forwardingLabels (f : lnrpc.ForwardingEvent) : list string :=
  [ lnrpc.PeerAliasIn f;
    lnrpc.PeerAliasOut f;
    strconv.FormatUint (lnrpc.AmtIn f);
    strconv.FormatUint (lnrpc.AmtOut f);
    strconv.FormatUint (lnrpc.Fee f);
    strconv.FormatUint (lnrpc.ChanIdIn f);
    strconv.FormatUint (lnrpc.ChanIdOut f);
    strconv.FormatUint (lnrpc.TimestampNs f) ].

(** The eight RPCs, in the order of [Collect]. *)
Definition allRpcs : list RpcMethod :=
  [ GetInfo; WalletBalance; PendingChannels; ChannelBalance;
    ForwardingHistory; GetNetworkInfo; ListChannels; ListPeers ].

(** [getGrpcClient] as [Collect] calls it, on the fields of the exporter of
    a state. *)
Definition connect (w : World) (s : GoState) : GoState * (result ClientConn + Exit) :=
  getGrpcClient w (rpcAddr (self s)) (tlsCertPath (self s)) (macaroonPath (self s)) s.

(** An event of a scrape before it releases its resources: an RPC on the
    connection [con], the dial, a log line, a sample or the lock. *)
Definition beforeCleanup (con : ClientConn) (e : Event) : Prop :=
  match e with
  | EvRpc _ con' _ => con' = con
  | EvClose _ | EvCancel _ | EvUnlock => False
  | _ => True
  end.

(** An event of a scrape that has no connection: no RPC, and nothing to
    close or to cancel. *)
Definition withoutConnection (e : Event) : Prop :=
  match e with
  | EvRpc _ _ _ | EvClose _ | EvCancel _ => False
  | _ => True
  end.

(** The keys of [c.metrics] that [Collect] sends as counters (lines 291 and
    293), all others being gauges. *)
Definition counterKeys : list string :=
  ["peer_info_received_bytes_total"; "peer_info_sent_bytes_total"].

(** A sample of a key of the catalog, of the kind that the key has. *)
Definition kinded (ns : string) (m : Metric) : Prop :=
  exists key,
    key ∈ catalogKeys /\ desc m = descOf ns key /\
    valType m = if bool_decide (key ∈ counterKeys) then CounterValue else GaugeValue.


(** The environment variables that [main] looks up (lines 39-45). *)
Definition envNames : list string :=
  [ "NAMESPACE"; "LISTEN_ADDRESS"; "TELEMETRY_PATH"; "RPC_ADDR";
    "TLS_CERT_PATH"; "MACAROON_PATH"; "GO_METRICS" ].

(** A dial, if the event is one, is to [addr]. *)
Definition dialsOnly (addr : string) (e : Event) : Prop :=
  match e with
  | EvDial a => a = addr
  | _ => True
  end.

(** ** Vocabulary of the proofs *)

(** The exporter of the state holds the catalog of a namespace. *)
Definition has_catalog (ns : string) (s : GoState) : Prop :=
  metrics (self s) = catalog ns.

(** [m] runs to its end on [s], adds the events [evs] and gives [a]. *)
Definition steps {A} (m : Go A) (s : GoState) (evs : list Event) (a : A) : Prop :=
  m s = (add_events evs s, inl a).

(** An event other than those of the mutex. *)
Definition quietEvent (e : Event) : Prop :=
  match e with
  | EvLock | EvUnlock => False
  | _ => True
  end.

(** However [m] ends, it leaves the exporter object, the open connections
    and the deferred calls as they were, it adds only events that do not
    touch the mutex, and it does not block. *)
Definition keeps {A} (m : Go A) : Prop :=
  forall s,
    self (m s).1 = self s /\
    openConns (m s).1 = openConns s /\
    deferred (m s).1 = deferred s /\
    (m s).2 <> inr ExitBlocked /\
    exists evs, trace (m s).1 = trace s ++ evs /\ Forall quietEvent evs.

(** Running [m] commutes with replacing the [timeout] field of the
    exporter. *)
Definition oblivious {A} (m : Go A) : Prop :=
  forall t s, m (withTimeoutState t s) = (withTimeoutState t (m s).1, (m s).2).

(** An event under the session context, if it has a context. *)
Definition usesSessionCtx (e : Event) : Prop :=
  match e with
  | EvRpc _ _ ctx | EvCancel ctx => ctx = sessionCtx
  | _ => True
  end.

(** The events of one scrape, in program order. *)
Definition scrapeEvents (w : World) (c : LndExporter) : list Event :=
  trace (Collect w (fresh c)).1.

(** What an event of a goroutine does to the mutex, [None] when the event
    cannot happen now: [Lock] waits while the mutex is held. *)
Definition mutexAfter (held : bool) (e : Event) : option bool :=
  match e with
  | EvLock => if held then None else Some true
  | EvUnlock => if held then Some false else None
  | _ => Some held
  end.

(** [interleaving held t1 t2 g]: [g] is a schedule of two goroutines whose
    events are [t1] and [t2], from a mutex that is held or not; each event
    is taken from the head of one of the two, when the mutex allows it. *)
Inductive interleaving : bool -> list Event -> list Event -> list Event -> Prop :=
| interleaving_nil held : interleaving held [] [] []
| interleaving_left held held' e t1 t2 g :
    mutexAfter held e = Some held' ->
    interleaving held' t1 t2 g ->
    interleaving held (e :: t1) t2 (e :: g)
| interleaving_right held held' e t1 t2 g :
    mutexAfter held e = Some held' ->
    interleaving held' t1 t2 g ->
    interleaving held t1 (e :: t2) (e :: g).

(** * Part II: lemmas *)

(** ** The table of the descriptors *)

Ltac in_catalog := apply (bool_decide_unpack _); by vm_compute.

Lemma append_inv_head (p a b : string) : p +:+ a = p +:+ b -> a = b.
Proof. induction p as [|ch p IH]; simpl; [done|]. intros [=]. auto. Qed.

Lemma catalogKeys_NoDup : NoDup (catalogKeys).
Proof. apply (bool_decide_unpack _). by vm_compute. Qed.

Lemma metricSuffix_NoDup : NoDup (metricSuffix <$> catalogKeys).
Proof. apply (bool_decide_unpack _). by vm_compute. Qed.

Lemma catalogTable_keys ns : (catalogTable ns).*1 = catalogKeys.
Proof. done. Qed.

(** Each entry of the table is what the map gives at its key. *)
Lemma descOf_entries ns :
  Forall (fun kd => descOf ns kd.1 = kd.2) (catalogTable ns).
Proof.
  apply Forall_forall. intros [k d] Hin. unfold descOf, catalog.
  rewrite (elem_of_list_to_map_1 (catalogTable ns) k d); [done| |done].
  rewrite catalogTable_keys. apply catalogKeys_NoDup.
Qed.

Lemma fmap_snd_entries {A B} (f : A -> B) (l : list (A * B)) :
  Forall (fun kd => f kd.1 = kd.2) l -> l.*2 = f <$> l.*1.
Proof.
  induction 1 as [|[k d] l Hkd _ IH]; [done|].
  cbn [fmap list_fmap fst snd] in *. by rewrite IH, Hkd.
Qed.

Lemma catalogTable_descs ns : (catalogTable ns).*2 = descOf ns <$> catalogKeys.
Proof.
  rewrite <- (catalogTable_keys ns). apply fmap_snd_entries, descOf_entries.
Qed.

Lemma catalog_entry ns key :
  key ∈ catalogKeys -> (key, descOf ns key) ∈ catalogTable ns.
Proof.
  rewrite <- (catalogTable_keys ns).
  intros ([k d] & -> & Hin)%list_elem_of_fmap.
  pose proof (descOf_entries ns) as HF. rewrite Forall_forall in HF.
  specialize (HF _ Hin). cbn [fst snd] in *. by rewrite HF.
Qed.

Lemma catalog_lookup ns key :
  key ∈ catalogKeys -> catalog ns !! key = Some (descOf ns key).
Proof.
  intros Hk. apply elem_of_list_to_map_1; [|by apply catalog_entry].
  rewrite catalogTable_keys. apply catalogKeys_NoDup.
Qed.

(** The name and the label names of each entry: the name is the namespace
    and what the entry has after it in every namespace, the label names
    are those of every namespace. *)
Lemma catalogTable_names ns :
  Forall (fun kd => fqName kd.2 = ns +:+ metricSuffix kd.1 /\
                    variableLabels kd.2 = variableLabels (descOf "" kd.1))
    (catalogTable ns).
Proof.
  unfold catalogTable.
  repeat (constructor;
          [split; [unfold newGlobalMetric, NewDesc; cbn [fqName fst snd];
                   f_equal; by vm_compute
                  |by vm_compute]|]).
  constructor.
Qed.

Lemma descOf_fqName ns key :
  key ∈ catalogKeys -> fqName (descOf ns key) = ns +:+ metricSuffix key.
Proof.
  intros Hk%(catalog_entry ns).
  pose proof (catalogTable_names ns) as HF. rewrite Forall_forall in HF.
  exact (proj1 (HF _ Hk)).
Qed.

Lemma descOf_variableLabels ns key :
  key ∈ catalogKeys ->
  variableLabels (descOf ns key) = variableLabels (descOf "" key).
Proof.
  intros Hk%(catalog_entry ns).
  pose proof (catalogTable_names ns) as HF. rewrite Forall_forall in HF.
  exact (proj2 (HF _ Hk)).
Qed.

(** ** Running monadic code *)

Lemma add_events_nil s : add_events [] s = s.
Proof. destruct s; unfold add_events; simpl. by rewrite app_nil_r. Qed.

Lemma add_events_app e1 e2 s : add_events e2 (add_events e1 s) = add_events (e1 ++ e2) s.
Proof. unfold add_events; simpl. by rewrite app_assoc. Qed.

Lemma has_catalog_add_events ns evs s : has_catalog ns s -> has_catalog ns (add_events evs s).
Proof. done. Qed.
#[local] Hint Resolve has_catalog_add_events : core.

Lemma steps_ret {A} (a : A) s : steps (mret a) s [] a.
Proof. unfold steps. by rewrite add_events_nil. Qed.

Lemma steps_bind {A B} (m : Go A) (f : A -> Go B) s e1 e2 e a b :
  steps m s e1 a -> steps (f a) (add_events e1 s) e2 b -> e = e1 ++ e2 ->
  steps (m ≫= f) s e b.
Proof.
  unfold steps, mbind, Go_bind. intros -> -> ->. by rewrite add_events_app.
Qed.

Lemma steps_emit e s : steps (emit e) s [e] tt.
Proof. done. Qed.

Lemma steps_read {A} (f : LndExporter -> A) s : steps (read f) s [] (f (self s)).
Proof. unfold steps, read. by rewrite add_events_nil. Qed.

Lemma steps_invoke {A} m (oracle : ClientConn -> Context -> result A) con ctx s :
  steps (invoke m oracle con ctx) s [EvRpc m con ctx] (oracle con ctx).
Proof. done. Qed.

Lemma steps_sendConstMetric ns key vt v lbls s :
  has_catalog ns s ->
  catalog ns !! key = Some (descOf ns key) ->
  length lbls = length (variableLabels (descOf ns key)) ->
  steps (sendConstMetric key vt v lbls) s [EvSend (sample ns key vt v lbls)] tt.
Proof.
  intros Hc Hk Hl. unfold steps, sendConstMetric, metric, read, mbind, Go_bind.
  rewrite Hc, Hk. unfold MustNewConstMetric.
  apply Nat.eqb_eq in Hl. by rewrite Hl.
Qed.

Lemma steps_forRange {A} ns (body : A -> Go unit) (E : A -> list Event) l s :
  (forall x s', has_catalog ns s' -> steps (body x) s' (E x) tt) ->
  has_catalog ns s ->
  steps (forRange l body) s (flat_map E l) tt.
Proof.
  intros Hb. revert s. induction l as [|x l IH]; intros s Hs; simpl.
  - apply steps_ret.
  - eapply steps_bind; [by apply Hb | apply IH; auto | done].
Qed.

Ltac step_send ns :=
  eapply (steps_sendConstMetric ns);
  [ auto
  | apply catalog_lookup; in_catalog
  | rewrite descOf_variableLabels by in_catalog; reflexivity ].

Ltac step ns :=
  first
    [ eapply steps_bind; [ step_send ns | | reflexivity ]
    | step_send ns ].

Lemma sendInfo_steps ns stats s :
  has_catalog ns s -> steps (sendInfo stats) s (EvSend <$> infoSamples ns stats) tt.
Proof. intros Hc. unfold sendInfo. repeat step ns. Qed.

Lemma sendForwardingEvent_steps ns f s :
  has_catalog ns s ->
  steps (sendForwardingEvent f) s (EvSend <$> forwardingEventSamples ns f) tt.
Proof. intros Hc. unfold sendForwardingEvent. step ns. Qed.

Lemma sendChannel_steps ns channel s :
  has_catalog ns s ->
  steps (sendChannel channel) s (EvSend <$> channelSamples ns channel) tt.
Proof.
  intros Hc. unfold sendChannel, channelSamples.
  destruct (F64.gtb (realCapacity channel) F64.zero); simpl.
  - repeat step ns.
  - eapply steps_bind; [apply steps_ret | step ns | reflexivity].
Qed.

Lemma sendPeer_steps ns peer s :
  has_catalog ns s ->
  steps (sendPeer peer) s (EvSend <$> peerSamples ns peer) tt.
Proof. intros Hc. unfold sendPeer. repeat step ns. Qed.

Lemma fmap_flat_map {A B C} (f : B -> C) (g : A -> list B) (l : list A) :
  f <$> flat_map g l = flat_map (fun x => f <$> g x) l.
Proof.
  induction l as [|x l IH]; simpl; [done|]. by rewrite fmap_app, IH.
Qed.

Lemma forRange_steps {A} ns (body : A -> Go unit) (g : A -> list Metric) l s :
  (forall x s', has_catalog ns s' -> steps (body x) s' (EvSend <$> g x) tt) ->
  has_catalog ns s ->
  steps (forRange l body) s (EvSend <$> flat_map g l) tt.
Proof.
  intros Hb Hc. rewrite fmap_flat_map. by apply (steps_forRange ns).
Qed.

Lemma runProbe_steps ns w con ctx p s :
  has_catalog ns s ->
  steps (runProbe w con ctx p) s (probeTrace ns (self s) w con ctx p) tt.
Proof.
  intros Hc. unfold probeTrace.
  destruct p; simpl.
  - unfold probeWalletBalance.
    eapply steps_bind; [apply steps_invoke | | reflexivity].
    destruct (rpcWalletBalance w con ctx); simpl; [repeat step ns | apply steps_emit].
  - unfold probePendingChannels.
    eapply steps_bind; [apply steps_invoke | | reflexivity].
    destruct (rpcPendingChannels w con ctx); simpl; [repeat step ns | apply steps_emit].
  - unfold probeChannelBalance.
    eapply steps_bind; [apply steps_invoke | | reflexivity].
    destruct (rpcChannelBalance w con ctx); simpl; [repeat step ns | apply steps_emit].
  - unfold probeForwardingHistory.
    eapply steps_bind; [apply steps_read | | reflexivity].
    destruct (exportPaymentMetrics (self s)); [|apply steps_ret].
    eapply steps_bind; [apply steps_invoke | | reflexivity].
    destruct (rpcForwardingHistory w con ctx); simpl; [|apply steps_emit].
    apply (forRange_steps ns); [|done].
    intros; by apply sendForwardingEvent_steps.
  - unfold probeNetworkInfo.
    eapply steps_bind; [apply steps_invoke | | reflexivity].
    destruct (rpcGetNetworkInfo w con ctx); simpl; [repeat step ns | apply steps_ret].
  - unfold probeListChannels.
    eapply steps_bind; [apply steps_invoke | | reflexivity].
    destruct (rpcListChannels w con ctx); simpl; [|apply steps_emit].
    apply (forRange_steps ns); [|done].
    intros; by apply sendChannel_steps.
  - unfold probeListPeers.
    eapply steps_bind; [apply steps_read | | reflexivity].
    destruct (exportPeerMetrics (self s)); [|apply steps_ret].
    eapply steps_bind; [apply steps_invoke | | reflexivity].
    destruct (rpcListPeers w con ctx); simpl; [|apply steps_emit].
    apply (forRange_steps ns); [|done].
    intros; by apply sendPeer_steps.
Qed.

(** The seven probes of [CollectBody] are [runProbe] over [probeOrder]. *)
Lemma probes_steps ns w con ctx (k : Go unit) s evs :
  has_catalog ns s ->
  (forall s', has_catalog ns s' -> self s' = self s -> steps k s' evs tt) ->
  steps (probeWalletBalance w con ctx ;;
         probePendingChannels w con ctx ;;
         probeChannelBalance w con ctx ;;
         probeForwardingHistory w con ctx ;;
         probeNetworkInfo w con ctx ;;
         probeListChannels w con ctx ;;
         probeListPeers w con ctx ;;
         k) s
    (flat_map (probeTrace ns (self s) w con ctx) probeOrder ++ evs) tt.
Proof.
  intros Hc Hk.
  assert (flat_map (probeTrace ns (self s) w con ctx) probeOrder ++ evs
          = probeTrace ns (self s) w con ctx PWalletBalance
            ++ probeTrace ns (self s) w con ctx PPendingChannels
            ++ probeTrace ns (self s) w con ctx PChannelBalance
            ++ probeTrace ns (self s) w con ctx PForwardingHistory
            ++ probeTrace ns (self s) w con ctx PNetworkInfo
            ++ probeTrace ns (self s) w con ctx PListChannels
            ++ probeTrace ns (self s) w con ctx PListPeers ++ evs) as ->.
  { cbn [flat_map probeOrder]. rewrite app_nil_r. by rewrite <- !app_assoc. }
  eapply steps_bind;
    [apply (runProbe_steps ns w con ctx PWalletBalance); auto| |reflexivity].
  eapply steps_bind;
    [apply (runProbe_steps ns w con ctx PPendingChannels); auto| |reflexivity].
  eapply steps_bind;
    [apply (runProbe_steps ns w con ctx PChannelBalance); auto| |reflexivity].
  eapply steps_bind;
    [apply (runProbe_steps ns w con ctx PForwardingHistory); auto| |reflexivity].
  eapply steps_bind;
    [apply (runProbe_steps ns w con ctx PNetworkInfo); auto| |reflexivity].
  eapply steps_bind;
    [apply (runProbe_steps ns w con ctx PListChannels); auto 10| |reflexivity].
  eapply steps_bind;
    [apply (runProbe_steps ns w con ctx PListPeers); auto 10| |reflexivity].
  apply Hk; auto 10.
Qed.

(** ** [getGrpcClient] and [Collect], run *)

Lemma getGrpcClient_run w s :
  getGrpcClient w (rpcAddr (self s)) (tlsCertPath (self s)) (macaroonPath (self s)) s
  = (mkState (self s)
       (match connectResult w (self s) with
        | Ok con => con :: openConns s
        | Err _ => openConns s
        end)
       (trace s ++ connectTrace w (self s)) (deferred s),
     inl (connectResult w (self s))).
Proof.
  unfold getGrpcClient, connectResult, connectTrace.
  destruct (NewClientTLSFromFile w (tlsCertPath (self s)) "") as [tlsCreds|err]; [|done].
  destruct (ReadFile w (macaroonPath (self s))) as [macaroonBytes|err]; [|done].
  destruct (UnmarshalBinary w macaroonBytes) as [mac|err]; [|done].
  destruct (NewMacaroonCredential w mac) as [macOpts|err].
  2:{ unfold mret, Go_ret. destruct s; simpl. by rewrite app_nil_r. }
  unfold mbind, Go_bind, grpcDial.
  destruct (Dial w (rpcAddr (self s)) _) as [con|err]; simpl.
  - done.
  - unfold add_events; simpl. by rewrite <- app_assoc.
Qed.

Lemma set_locked_twice c :
  mutexLocked c = false -> set_locked false (set_locked true c) = c.
Proof. destruct c; simpl; by intros ->. Qed.

Lemma remove_conn_head con l : remove_conn con (con :: l) = l.
Proof. simpl. by rewrite Nat.eqb_refl. Qed.

Lemma connectResult_set_locked w b c :
  connectResult w (set_locked b c) = connectResult w c.
Proof. done. Qed.

Lemma connectTrace_set_locked w b c :
  connectTrace w (set_locked b c) = connectTrace w c.
Proof. done. Qed.

Lemma probeTrace_set_locked ns w b c con ctx p :
  probeTrace ns (set_locked b c) w con ctx p = probeTrace ns c w con ctx p.
Proof. by destruct p. Qed.

Lemma sessionTrace_set_locked ns w b c con :
  sessionTrace ns (set_locked b c) w con = sessionTrace ns c w con.
Proof.
  unfold sessionTrace. destruct (rpcGetInfo w con sessionCtx); [|done].
  do 2 f_equal.
Qed.

(** The session on an established connection: [GetInfo] and what follows. *)
Lemma session_run ns w con s :
  has_catalog ns s ->
  exists r,
    (r = inl tt \/ r = inr ExitReturn) /\
    (r0 ← invoke GetInfo (rpcGetInfo w) con sessionCtx;
     match r0 with
     | Err err =>
         logPrintf ("rpcClient.GetInfo() err: " +:+ err) ;;
         sendConstMetric "lnd_up" GaugeValue F64.zero [] ;;
         return_
     | Ok stats =>
         sendInfo stats ;;
         probeWalletBalance w con sessionCtx ;;
         probePendingChannels w con sessionCtx ;;
         probeChannelBalance w con sessionCtx ;;
         probeForwardingHistory w con sessionCtx ;;
         probeNetworkInfo w con sessionCtx ;;
         probeListChannels w con sessionCtx ;;
         probeListPeers w con sessionCtx ;;
         sendConstMetric "lnd_up" GaugeValue F64.one []
     end) s
    = (add_events (sessionTrace ns (self s) w con) s, r).
Proof.
  intros Hc. unfold sessionTrace.
  unfold mbind at 1, Go_bind at 1. rewrite steps_invoke.
  destruct (rpcGetInfo w con sessionCtx) as [stats|err].
  - exists (inl tt). split; [by left|].
    assert (steps (sendInfo stats ;;
         probeWalletBalance w con sessionCtx ;;
         probePendingChannels w con sessionCtx ;;
         probeChannelBalance w con sessionCtx ;;
         probeForwardingHistory w con sessionCtx ;;
         probeNetworkInfo w con sessionCtx ;;
         probeListChannels w con sessionCtx ;;
         probeListPeers w con sessionCtx ;;
         sendConstMetric "lnd_up" GaugeValue F64.one [])
       (add_events [EvRpc GetInfo con sessionCtx] s)
       ((EvSend <$> infoSamples ns stats)
        ++ flat_map (probeTrace ns (self s) w con sessionCtx) probeOrder
        ++ [EvSend (lndUp ns F64.one)]) tt) as H.
    { eapply steps_bind; [apply (sendInfo_steps ns); auto | | reflexivity].
      apply (probes_steps ns w con sessionCtx _
               (add_events (EvSend <$> infoSamples ns stats)
                  (add_events [EvRpc GetInfo con sessionCtx] s))); [auto|].
      intros s' Hc' _. step_send ns. }
    rewrite H. by rewrite add_events_app.
  - exists (inr ExitReturn). split; [by right|].
    unfold mbind at 1, Go_bind at 1. unfold logPrintf. rewrite steps_emit.
    unfold mbind at 1, Go_bind at 1.
    rewrite (steps_sendConstMetric ns "lnd_up" GaugeValue F64.zero []);
      [| auto
       | apply catalog_lookup; in_catalog
       | rewrite descOf_variableLabels by in_catalog; reflexivity ].
    unfold return_, exit. by rewrite !add_events_app.
Qed.

Lemma CollectBody_run ns w s :
  has_catalog ns s ->
  mutexLocked (self s) = false ->
  deferred s = [] ->
  exists s' r,
    CollectBody w s = (s', r) /\
    self s' = set_locked true (self s) /\
    match connectResult w (self s) with
    | Err err =>
        r = inr ExitReturn /\ openConns s' = openConns s /\
        deferred s' = [DUnlock] /\
        trace s' = trace s ++ [EvLock] ++ connectTrace w (self s)
                   ++ [ EvLog ("getGrpcClient() err: " +:+ err);
                        EvSend (lndUp ns F64.zero) ]
    | Ok con =>
        (r = inl tt \/ r = inr ExitReturn) /\ openConns s' = con :: openConns s /\
        deferred s' = [DCancel sessionCtx; DClose con; DUnlock] /\
        trace s' = trace s ++ [EvLock] ++ connectTrace w (self s)
                   ++ sessionTrace ns (self s) w con
    end.
Proof.
  intros Hc Hl Hd. unfold CollectBody.
  unfold mbind at 1, Go_bind at 1. unfold Lock at 1. rewrite Hl.
  unfold mbind at 1, Go_bind at 1. unfold defer at 1. cbn [self openConns trace deferred].
  rewrite Hd.
  set (s1 := mkState (set_locked true (self s)) (openConns s) (trace s ++ [EvLock]) [DUnlock]).
  assert (has_catalog ns s1) as Hc1 by exact Hc.
  do 3 (unfold mbind at 1, Go_bind at 1; unfold read at 1).
  unfold mbind at 1, Go_bind at 1.
  rewrite (getGrpcClient_run w s1).
  change (self s1) with (set_locked true (self s)).
  rewrite connectResult_set_locked, connectTrace_set_locked.
  destruct (connectResult w (self s)) as [con|err].
  - unfold mbind at 1, Go_bind at 1. unfold defer at 1.
    unfold mbind at 1, Go_bind at 1. unfold defer at 1.
    cbn [self openConns trace deferred].
    match goal with |- context [ _ ?st = _ ] =>
      match st with mkState _ _ _ _ => set (s2 := st) end end.
    destruct (session_run ns w con s2 Hc) as (r & Hr & Hrun).
    exists (add_events (sessionTrace ns (self s2) w con) s2), r.
    split; [exact Hrun|].
    split; [reflexivity|]. split; [exact Hr|]. split; [reflexivity|].
    split; [reflexivity|].
    clear Hrun. subst s2 s1. cbn [add_events trace self].
    rewrite sessionTrace_set_locked. by rewrite <- !app_assoc.
  - unfold mbind at 1, Go_bind at 1. unfold logPrintf. rewrite steps_emit.
    unfold mbind at 1, Go_bind at 1.
    rewrite (steps_sendConstMetric ns "lnd_up" GaugeValue F64.zero []);
      [| auto
       | apply catalog_lookup; in_catalog
       | rewrite descOf_variableLabels by in_catalog; reflexivity ].
    unfold return_, exit. eexists _, _. split; [reflexivity|].
    split; [reflexivity|]. split; [reflexivity|]. split; [reflexivity|].
    split; [reflexivity|].
    subst s1. cbn [add_events trace self]. by rewrite <- !app_assoc.
Qed.

(** [Collect] on an exporter that holds the catalog and whose mutex is free:
    it returns, and adds exactly the events of [collectTrace]. *)
Lemma Collect_run ns w s :
  has_catalog ns s ->
  mutexLocked (self s) = false ->
  Collect w s = (add_events (collectTrace ns (self s) w) s, Returned).
Proof.
  intros Hc Hl. unfold Collect, call.
  set (s0 := mkState (self s) (openConns s) (trace s) []).
  destruct (CollectBody_run ns w s0 Hc Hl eq_refl) as (s' & r & Hrun & Hself & Hrest).
  rewrite Hrun. unfold collectTrace.
  change (self s0) with (self s) in *.
  change (openConns s0) with (openConns s) in *.
  change (trace s0) with (trace s) in *.
  destruct s' as [c' oc' tr' ds']. cbn [self openConns trace deferred] in *.
  destruct (connectResult w (self s)) as [con|err].
  - destruct Hrest as (Hr & -> & -> & ->). subst c'.
    assert (runDefers [DCancel sessionCtx; DClose con; DUnlock] Returned
              (mkState (set_locked true (self s)) (con :: openConns s)
                 (trace s ++ [EvLock] ++ connectTrace w (self s)
                    ++ sessionTrace ns (self s) w con) [])
            = (mkState (self s) (openConns s)
                 (trace s ++ [EvLock] ++ connectTrace w (self s)
                    ++ sessionTrace ns (self s) w con
                    ++ [EvCancel sessionCtx; EvClose con; EvUnlock]) [],
               Returned)) as Hdefers.
    { cbn [runDefers runDeferredCall emit add_events Close Unlock
           self openConns trace deferred].
      rewrite remove_conn_head. unfold Unlock. cbn [self openConns trace deferred].
      change (mutexLocked (set_locked true (self s))) with true. cbv iota.
      rewrite (set_locked_twice _ Hl). do 2 f_equal.
      rewrite <- !app_assoc. reflexivity. }
    destruct Hr as [-> | ->]; rewrite Hdefers; unfold add_events;
      cbn [self openConns trace deferred]; by rewrite <- ?app_assoc.
  - destruct Hrest as (-> & -> & -> & ->). subst c'.
    cbn [runDefers runDeferredCall]. unfold Unlock.
    cbn [self openConns trace deferred].
    change (mutexLocked (set_locked true (self s))) with true. cbv iota.
    rewrite (set_locked_twice _ Hl).
    unfold add_events; cbn [self openConns trace deferred].
    by rewrite <- !app_assoc.
Qed.

(** ** Names of the descriptors *)

Lemma NoDup_fmap_inj_on {A B} (f : A -> B) (l : list A) x y :
  NoDup (f <$> l) -> x ∈ l -> y ∈ l -> f x = f y -> x = y.
Proof.
  induction l as [|z l IH]; simpl; intros Hnd Hx Hy Hf.
  - by apply elem_of_nil in Hx.
  - apply NoDup_cons in Hnd as [Hz Hnd].
    apply elem_of_cons in Hx as [->|Hx]; apply elem_of_cons in Hy as [->|Hy].
    + done.
    + exfalso. apply Hz. rewrite Hf. by apply list_elem_of_fmap_2.
    + exfalso. apply Hz. rewrite <- Hf. by apply list_elem_of_fmap_2.
    + by apply IH.
Qed.

Lemma descOf_inj ns k1 k2 :
  k1 ∈ catalogKeys -> k2 ∈ catalogKeys -> descOf ns k1 = descOf ns k2 -> k1 = k2.
Proof.
  intros H1 H2 Hd.
  apply (NoDup_fmap_inj_on metricSuffix catalogKeys); auto using metricSuffix_NoDup.
  apply (append_inv_head ns). rewrite <- !descOf_fqName by done. by rewrite Hd.
Qed.

Lemma probeKeys_catalog p key : key ∈ probeKeys p -> key ∈ catalogKeys.
Proof.
  intros H. apply (bool_decide_unpack _).
  destruct p; simpl in H;
    repeat (apply elem_of_cons in H as [-> | H]; [by vm_compute|]);
    by apply elem_of_nil in H.
Qed.

Lemma infoKeys_catalog key : key ∈ infoKeys -> key ∈ catalogKeys.
Proof.
  intros H. apply (bool_decide_unpack _). unfold infoKeys in H.
  repeat (apply elem_of_cons in H as [-> | H]; [by vm_compute|]).
  by apply elem_of_nil in H.
Qed.

(** ** The samples of a trace *)

Lemma samples_app t1 t2 : samples (t1 ++ t2) = samples t1 ++ samples t2.
Proof. apply omap_app. Qed.

Lemma samples_sends ms : samples (EvSend <$> ms) = ms.
Proof.
  induction ms as [|m ms IH]; [done|].
  change (samples (EvSend <$> m :: ms)) with (m :: samples (EvSend <$> ms)).
  by rewrite IH.
Qed.

Lemma rpcs_app t1 t2 : rpcs (t1 ++ t2) = rpcs t1 ++ rpcs t2.
Proof. apply omap_app. Qed.

Lemma rpcs_cons_rpc m con ctx t : rpcs (EvRpc m con ctx :: t) = m :: rpcs t.
Proof. done. Qed.

Lemma samples_cons_rpc m con ctx t : samples (EvRpc m con ctx :: t) = samples t.
Proof. done. Qed.

Lemma rpcs_sends ms : rpcs (EvSend <$> ms) = [].
Proof. by induction ms. Qed.

Lemma samples_connectTrace w c : samples (connectTrace w c) = [].
Proof.
  unfold connectTrace.
  repeat match goal with |- context [match ?r with Ok _ => _ | Err _ => _ end] =>
    destruct r; try done end.
Qed.

Lemma rpcs_connectTrace w c : rpcs (connectTrace w c) = [].
Proof.
  unfold connectTrace.
  repeat match goal with |- context [match ?r with Ok _ => _ | Err _ => _ end] =>
    destruct r; try done end.
Qed.

(** The samples that an answer is mapped to; none for an error. *)
Lemma samples_answered {A} (r : result A) f lp :
  samples (answered r f lp) = match r with Ok a => f a | Err _ => [] end.
Proof.
  destruct r as [a|err]; simpl; [apply samples_sends|]. by destruct lp.
Qed.

Lemma rpcs_answered {A} (r : result A) f lp : rpcs (answered r f lp) = [].
Proof.
  destruct r as [a|err]; simpl; [apply rpcs_sends|]. by destruct lp.
Qed.

Lemma rpcs_probeTrace ns c w con ctx p :
  rpcs (probeTrace ns c w con ctx p)
  = if probeEnabled c p then [probeMethod p] else [].
Proof.
  unfold probeTrace. destruct (probeEnabled c p); [|done].
  destruct p; cbn [rpcs omap list_omap]; by rewrite rpcs_answered.
Qed.

Lemma samples_probeTrace ns c w con ctx p :
  samples (probeTrace ns c w con ctx p) = probeSamples ns c w con ctx p.
Proof.
  unfold probeTrace, probeSamples.
  destruct p; cbn [probeEnabled];
    repeat match goal with
    | |- context [if ?b then _ else _] => destruct b; [|reflexivity]
    end;
    rewrite samples_cons_rpc; apply samples_answered.
Qed.

Lemma samples_probeTrace_fails ns c w con ctx p :
  probeFails w con ctx p = true -> samples (probeTrace ns c w con ctx p) = [].
Proof.
  unfold probeTrace, probeFails. destruct (probeEnabled c p); [|done].
  destruct p; cbn [samples omap list_omap]; rewrite samples_answered;
    match goal with |- context [match ?r with Ok _ => _ | Err _ => _ end] =>
      destruct r; done end.
Qed.

Lemma samples_probeTrace_disabled ns c w con ctx p :
  probeEnabled c p = false -> samples (probeTrace ns c w con ctx p) = [].
Proof. unfold probeTrace. by intros ->. Qed.

(** What a probe sends on its own is what [probeTrace] lists. *)
Lemma samplesOf_runProbe ns c w con ctx p :
  metrics c = catalog ns ->
  samplesOf (runProbe w con ctx p) c = samples (probeTrace ns c w con ctx p).
Proof.
  intros Hc. unfold samplesOf.
  by rewrite (runProbe_steps ns w con ctx p (fresh c) Hc).
Qed.

Lemma samplesOf_sendInfo ns c stats :
  metrics c = catalog ns -> samplesOf (sendInfo stats) c = infoSamples ns stats.
Proof.
  intros Hc. unfold samplesOf.
  rewrite (sendInfo_steps ns stats (fresh c) Hc). apply samples_sends.
Qed.

Lemma samplesOf_sendChannel ns c channel :
  metrics c = catalog ns ->
  samplesOf (sendChannel channel) c = channelSamples ns channel.
Proof.
  intros Hc. unfold samplesOf.
  rewrite (sendChannel_steps ns channel (fresh c) Hc). apply samples_sends.
Qed.

Lemma samples_flat_map {A} (f : A -> list Event) (l : list A) :
  samples (flat_map f l) = flat_map (fun x => samples (f x)) l.
Proof.
  induction l as [|x l IH]; simpl; [done|]. by rewrite samples_app, IH.
Qed.

Lemma rpcs_flat_map {A} (f : A -> list Event) (l : list A) :
  rpcs (flat_map f l) = flat_map (fun x => rpcs (f x)) l.
Proof.
  induction l as [|x l IH]; simpl; [done|]. by rewrite rpcs_app, IH.
Qed.

Lemma samples_sessionTrace ns c w con :
  samples (sessionTrace ns c w con)
  = match rpcGetInfo w con sessionCtx with
    | Err _ => [lndUp ns F64.zero]
    | Ok stats =>
        infoSamples ns stats
        ++ flat_map (fun p => samples (probeTrace ns c w con sessionCtx p)) probeOrder
        ++ [lndUp ns F64.one]
    end.
Proof.
  unfold sessionTrace. destruct (rpcGetInfo w con sessionCtx) as [stats|err]; [|done].
  cbn [samples omap list_omap]. fold (samples).
  change (omap _ ?t) with (samples t).
  by rewrite !samples_app, samples_sends, samples_flat_map.
Qed.

Lemma samples_collectTrace ns c w :
  samples (collectTrace ns c w)
  = match connectResult w c with
    | Err _ => [lndUp ns F64.zero]
    | Ok con => samples (sessionTrace ns c w con)
    end.
Proof.
  unfold collectTrace. rewrite !samples_app, samples_connectTrace.
  destruct (connectResult w c) as [con|err]; [|done].
  rewrite samples_app. simpl. by rewrite app_nil_r.
Qed.

(** ** Which metric a sample is of *)

Lemma fromProbe_samples ns c w con ctx p :
  Forall (fromProbe ns p) (samples (probeTrace ns c w con ctx p)).
Proof.
  unfold probeTrace. destruct (probeEnabled c p); [|by constructor].
  destruct p; cbn [samples omap list_omap]; rewrite samples_answered;
    match goal with |- context [match ?r with Ok _ => _ | Err _ => _ end] =>
      destruct r as [a|err]; [|by constructor] end.
  - repeat constructor; eexists; (split; [|reflexivity]); set_solver.
  - repeat constructor; eexists; (split; [|reflexivity]); set_solver.
  - repeat constructor; eexists; (split; [|reflexivity]); set_solver.
  - apply Forall_flat_map, Forall_forall. intros f _.
    repeat constructor; eexists; (split; [|reflexivity]); set_solver.
  - repeat constructor; eexists; (split; [|reflexivity]); set_solver.
  - apply Forall_flat_map, Forall_forall. intros channel _.
    unfold channelSamples. destruct (F64.gtb _ _);
    repeat constructor; eexists; (split; [|reflexivity]); set_solver.
  - apply Forall_flat_map, Forall_forall. intros peer _.
    repeat constructor; eexists; (split; [|reflexivity]); set_solver.
Qed.

Lemma fromInfo_samples ns stats : Forall (fromInfo ns) (infoSamples ns stats).
Proof.
  repeat constructor; eexists; (split; [|reflexivity]); set_solver.
Qed.

Lemma Collect_fresh ns c w :
  metrics c = catalog ns ->
  mutexLocked c = false ->
  Collect w (fresh c) = (mkState c [] (collectTrace ns c w) [], Returned).
Proof. intros Hc Hl. by rewrite (Collect_run ns w (fresh c) Hc Hl). Qed.

Lemma probeKeys_disjoint X Y key :
  key ∈ probeKeys X -> key ∈ probeKeys Y -> X = Y.
Proof.
  intros HX HY.
  destruct X; simpl in HX;
    repeat (apply elem_of_cons in HX as [-> | HX]);
    try (by apply elem_of_nil in HX);
    destruct Y; try reflexivity; exfalso; simpl in HY;
    repeat (apply elem_of_cons in HY as [HY | HY]; [discriminate HY|]);
    by apply elem_of_nil in HY.
Qed.

Lemma infoKeys_probeKeys X key : key ∈ infoKeys -> key ∈ probeKeys X -> False.
Proof.
  intros HI HX. unfold infoKeys in HI.
  repeat (apply elem_of_cons in HI as [-> | HI]);
    try (by apply elem_of_nil in HI);
    destruct X; simpl in HX;
    repeat (apply elem_of_cons in HX as [HX | HX]; [discriminate HX|]);
    by apply elem_of_nil in HX.
Qed.

Lemma lnd_up_probeKeys X : "lnd_up" ∈ probeKeys X -> False.
Proof.
  intros HX. destruct X; simpl in HX;
    repeat (apply elem_of_cons in HX as [HX | HX]; [discriminate HX|]);
    by apply elem_of_nil in HX.
Qed.

Lemma lnd_up_infoKeys : "lnd_up" ∈ infoKeys -> False.
Proof.
  intros HX. unfold infoKeys in HX.
  repeat (apply elem_of_cons in HX as [HX | HX]; [discriminate HX|]).
  by apply elem_of_nil in HX.
Qed.

Lemma lnd_up_catalog : "lnd_up" ∈ catalogKeys.
Proof. apply (bool_decide_unpack _). by vm_compute. Qed.

Lemma isLiveness_lndUp ns v : isLiveness ns (lndUp ns v).
Proof.
  unfold isLiveness, lndUp, sample. cbn [desc].
  rewrite (descOf_fqName ns "lnd_up" lnd_up_catalog). reflexivity.
Qed.

(** A sample of a key of the catalog other than "lnd_up" is not a liveness
    sample. *)
Lemma not_isLiveness ns key m :
  key ∈ catalogKeys -> key <> "lnd_up" -> desc m = descOf ns key -> ~ isLiveness ns m.
Proof.
  intros Hk Hne Hd Hl. unfold isLiveness in Hl. rewrite Hd in Hl.
  rewrite (descOf_fqName ns key Hk) in Hl. apply append_inv_head in Hl.
  apply Hne.
  apply (NoDup_fmap_inj_on metricSuffix catalogKeys);
    auto using metricSuffix_NoDup, lnd_up_catalog.
Qed.

Lemma fromProbe_not_isLiveness ns p m : fromProbe ns p m -> ~ isLiveness ns m.
Proof.
  intros (key & Hk & Hd).
  apply (not_isLiveness ns key); [by apply (probeKeys_catalog p) | | exact Hd].
  intros ->. by apply lnd_up_probeKeys in Hk.
Qed.

Lemma fromInfo_not_isLiveness ns m : fromInfo ns m -> ~ isLiveness ns m.
Proof.
  intros (key & Hk & Hd).
  apply (not_isLiveness ns key); [by apply infoKeys_catalog | | exact Hd].
  intros ->. by apply lnd_up_infoKeys in Hk.
Qed.

Lemma fromProbe_functional ns X Y m : fromProbe ns X m -> fromProbe ns Y m -> X = Y.
Proof.
  intros (k1 & Hk1 & Hd1) (k2 & Hk2 & Hd2).
  assert (k1 = k2) as ->.
  { apply (descOf_inj ns);
      [by apply (probeKeys_catalog X) | by apply (probeKeys_catalog Y) | congruence]. }
  by apply (probeKeys_disjoint X Y k2).
Qed.

Lemma fromInfo_not_fromProbe ns X m : fromInfo ns m -> ~ fromProbe ns X m.
Proof.
  intros (k1 & Hk1 & Hd1) (k2 & Hk2 & Hd2).
  assert (k1 = k2) as ->.
  { apply (descOf_inj ns);
      [by apply infoKeys_catalog | by apply (probeKeys_catalog X) | congruence]. }
  by apply (infoKeys_probeKeys X k2).
Qed.

Lemma lndUp_not_fromProbe ns X v : ~ fromProbe ns X (lndUp ns v).
Proof.
  intros H. apply (fromProbe_not_isLiveness ns X _ H). apply isLiveness_lndUp.
Qed.

(** The samples of the probes hold no liveness sample. *)
Lemma probes_no_liveness ns c w con ctx (l : list Probe) :
  Forall (fun m => ~ isLiveness ns m)
    (flat_map (fun p => samples (probeTrace ns c w con ctx p)) l).
Proof.
  induction l as [|p l IH]; [by constructor|].
  cbn [flat_map]. apply Forall_app. split; [|exact IH].
  eapply Forall_impl; [apply fromProbe_samples|].
  intros m. apply fromProbe_not_isLiveness.
Qed.

Lemma info_no_liveness ns stats :
  Forall (fun m => ~ isLiveness ns m) (infoSamples ns stats).
Proof.
  eapply Forall_impl; [apply fromInfo_samples|].
  intros m. apply fromInfo_not_isLiveness.
Qed.

Lemma filter_none {A} (P : A -> Prop) `{forall x, Decision (P x)} (l : list A) :
  Forall (fun x => ~ P x) l -> filter P l = [].
Proof.
  induction 1 as [|x l Hx Hl IH]; [done|].
  rewrite filter_cons. by destruct (decide (P x)).
Qed.

Lemma emitted_eq ns c w :
  metrics c = catalog ns -> mutexLocked c = false ->
  emitted w c
  = match connectResult w c with
    | Err _ => [lndUp ns F64.zero]
    | Ok con =>
        match rpcGetInfo w con sessionCtx with
        | Err _ => [lndUp ns F64.zero]
        | Ok stats =>
            infoSamples ns stats
            ++ flat_map (fun p => samples (probeTrace ns c w con sessionCtx p)) probeOrder
            ++ [lndUp ns F64.one]
        end
    end.
Proof.
  intros Hc Hl. unfold emitted. rewrite (Collect_fresh ns c w Hc Hl).
  cbn [fst trace]. rewrite samples_collectTrace.
  destruct (connectResult w c) as [con|err]; [|done].
  apply samples_sessionTrace.
Qed.

Lemma issued_eq ns c w :
  metrics c = catalog ns -> mutexLocked c = false ->
  issued w c
  = match connectResult w c with
    | Err _ => []
    | Ok con =>
        GetInfo ::
        match rpcGetInfo w con sessionCtx with
        | Err _ => []
        | Ok stats =>
            flat_map (fun p => if probeEnabled c p then [probeMethod p] else [])
              probeOrder
        end
    end.
Proof.
  intros Hc Hl. unfold issued. rewrite (Collect_fresh ns c w Hc Hl).
  cbn [fst trace]. unfold collectTrace.
  rewrite rpcs_app, rpcs_app, (rpcs_connectTrace w c).
  destruct (connectResult w c) as [con|err]; [|done].
  rewrite rpcs_app. unfold sessionTrace. rewrite rpcs_cons_rpc.
  cbn [app]. rewrite app_nil_r. f_equal.
  destruct (rpcGetInfo w con sessionCtx) as [stats|err]; [|done].
  rewrite rpcs_app, rpcs_app, rpcs_sends, rpcs_flat_map.
  cbn [app]. rewrite app_nil_r.
  cbn [flat_map probeOrder]. by rewrite !rpcs_probeTrace.
Qed.

Lemma outcome_eq ns c w :
  metrics c = catalog ns -> mutexLocked c = false -> outcome w c = Returned.
Proof. intros Hc Hl. unfold outcome. by rewrite (Collect_fresh ns c w Hc Hl). Qed.

Lemma samplesOf_sendForwardingEvent ns c f :
  metrics c = catalog ns ->
  samplesOf (sendForwardingEvent f) c = forwardingEventSamples ns f.
Proof.
  intros Hc. unfold samplesOf.
  rewrite (sendForwardingEvent_steps ns f (fresh c) Hc). apply samples_sends.
Qed.

(** ** Label counts *)




(** ** Code that leaves the session's resources alone *)

Lemma keeps_ret {A} (a : A) : keeps (mret a).
Proof.
  intros s. repeat split; try done. exists []. simpl. by rewrite app_nil_r.
Qed.

Lemma keeps_bind {A B} (m : Go A) (f : A -> Go B) :
  keeps m -> (forall a, keeps (f a)) -> keeps (m ≫= f).
Proof.
  intros Hm Hf s. unfold mbind, Go_bind.
  specialize (Hm s). destruct (m s) as [s1 [a|x]]; cbn [fst snd] in *.
  2:{ destruct Hm as (H1 & H2 & H3 & H4 & H5).
      repeat (split; [done|]). split; [|done]. intros [=]. by subst. }
  destruct Hm as (H1 & H2 & H3 & _ & evs1 & H5 & Q1).
  destruct (Hf a s1) as (G1 & G2 & G3 & G4 & evs2 & G5 & Q2).
  repeat split; try congruence.
  exists (evs1 ++ evs2). split; [by rewrite G5, H5, app_assoc|].
  by apply Forall_app.
Qed.

Lemma keeps_emit e : quietEvent e -> keeps (emit e).
Proof.
  intros He s. repeat split; try done. exists [e]. split; [done|].
  by repeat constructor.
Qed.

Lemma keeps_panic {A} msg : keeps (@panic A msg).
Proof. intros s. repeat split; try done. exists []. simpl. by rewrite app_nil_r. Qed.

Lemma keeps_return {A} : keeps (@return_ A).
Proof. intros s. repeat split; try done. exists []. simpl. by rewrite app_nil_r. Qed.

Lemma keeps_read {A} (f : LndExporter -> A) : keeps (read f).
Proof. intros s. repeat split; try done. exists []. simpl. by rewrite app_nil_r. Qed.

Lemma keeps_invoke {A} m (oracle : ClientConn -> Context -> result A) con ctx :
  keeps (invoke m oracle con ctx).
Proof. apply keeps_bind; [by apply keeps_emit | intros; apply keeps_ret]. Qed.

Lemma keeps_MustNewConstMetric d vt v lbls : keeps (MustNewConstMetric d vt v lbls).
Proof.
  unfold MustNewConstMetric. destruct d as [d|]; [|apply keeps_panic].
  destruct (Nat.eqb _ _); [apply keeps_ret | apply keeps_panic].
Qed.

Lemma keeps_sendConstMetric key vt v lbls : keeps (sendConstMetric key vt v lbls).
Proof.
  unfold sendConstMetric, metric.
  apply keeps_bind; [apply keeps_read|]. intros d.
  apply keeps_bind; [apply keeps_MustNewConstMetric|]. intros m.
  by apply keeps_emit.
Qed.

Lemma keeps_forRange {A} (l : list A) (body : A -> Go unit) :
  (forall x, keeps (body x)) -> keeps (forRange l body).
Proof.
  intros Hb. induction l as [|x l IH]; simpl; [apply keeps_ret|].
  apply keeps_bind; [apply Hb | intros _; apply IH].
Qed.

Ltac keeps_tac :=
  repeat first
    [ apply keeps_sendConstMetric
    | apply keeps_invoke
    | apply keeps_emit; exact I
    | apply keeps_ret
    | apply keeps_return
    | apply keeps_read
    | apply keeps_forRange; intros ?
    | apply keeps_bind; [| intros ?]
    | match goal with
      | |- keeps (match ?r with Ok _ => _ | Err _ => _ end) => destruct r
      | |- keeps (if ?b then _ else _) => destruct b
      end ].

Lemma keeps_sendInfo stats : keeps (sendInfo stats).
Proof. unfold sendInfo. keeps_tac. Qed.

Lemma keeps_runProbe w con ctx p : keeps (runProbe w con ctx p).
Proof.
  destruct p; simpl;
    unfold probeWalletBalance, probePendingChannels, probeChannelBalance,
      probeForwardingHistory, probeNetworkInfo, probeListChannels, probeListPeers,
      sendForwardingEvent, sendChannel, sendPeer, logPrintf;
    keeps_tac.
Qed.

(** The part of [CollectBody] that follows a failed [getGrpcClient]. *)
Lemma keeps_failed err :
  keeps (logPrintf ("getGrpcClient() err: " +:+ err) ;;
         sendConstMetric "lnd_up" GaugeValue F64.zero [] ;;
         @return_ unit).
Proof. unfold logPrintf. keeps_tac. Qed.

(** The part of [CollectBody] that follows the deferred calls of an
    established connection. *)
Lemma keeps_session w con ctx :
  keeps (r ← invoke GetInfo (rpcGetInfo w) con ctx;
         match r with
         | Err err =>
             logPrintf ("rpcClient.GetInfo() err: " +:+ err) ;;
             sendConstMetric "lnd_up" GaugeValue F64.zero [] ;;
             return_
         | Ok stats =>
             sendInfo stats ;;
             probeWalletBalance w con ctx ;;
             probePendingChannels w con ctx ;;
             probeChannelBalance w con ctx ;;
             probeForwardingHistory w con ctx ;;
             probeNetworkInfo w con ctx ;;
             probeListChannels w con ctx ;;
             probeListPeers w con ctx ;;
             sendConstMetric "lnd_up" GaugeValue F64.one []
         end).
Proof.
  apply keeps_bind; [apply keeps_invoke|]. intros [stats|err].
  - apply keeps_bind; [apply keeps_sendInfo|]. intros _.
    apply keeps_bind; [apply (keeps_runProbe w con ctx PWalletBalance)|]. intros _.
    apply keeps_bind; [apply (keeps_runProbe w con ctx PPendingChannels)|]. intros _.
    apply keeps_bind; [apply (keeps_runProbe w con ctx PChannelBalance)|]. intros _.
    apply keeps_bind; [apply (keeps_runProbe w con ctx PForwardingHistory)|]. intros _.
    apply keeps_bind; [apply (keeps_runProbe w con ctx PNetworkInfo)|]. intros _.
    apply keeps_bind; [apply (keeps_runProbe w con ctx PListChannels)|]. intros _.
    apply keeps_bind; [apply (keeps_runProbe w con ctx PListPeers)|]. intros _.
    apply keeps_sendConstMetric.
  - unfold logPrintf. keeps_tac.
Qed.

(** [CollectBody] on any exporter whose mutex is free: where it stops, the
    mutex is held, the deferred calls are registered, and the connection,
    if one was established, is open. *)
Lemma keeps_run {A} (m : Go A) s :
  keeps m ->
  exists s' r evs,
    m s = (s', r) /\ r <> inr ExitBlocked /\ self s' = self s /\
    openConns s' = openConns s /\ deferred s' = deferred s /\
    trace s' = trace s ++ evs /\ Forall quietEvent evs.
Proof.
  intros Hm. destruct (Hm s) as (K1 & K2 & K3 & K4 & evs & K5 & K6).
  destruct (m s) as [s' r]. cbn [fst snd] in *. by exists s', r, evs.
Qed.

Lemma quiet_connectTrace w c : Forall quietEvent (connectTrace w c).
Proof.
  unfold connectTrace.
  repeat match goal with |- context [match ?r with Ok _ => _ | Err _ => _ end] =>
    destruct r; try by repeat constructor end.
Qed.

Lemma CollectBody_resources w s :
  mutexLocked (self s) = false ->
  deferred s = [] ->
  exists s' r evs,
    CollectBody w s = (s', r) /\
    r <> inr ExitBlocked /\
    self s' = set_locked true (self s) /\
    trace s' = trace s ++ EvLock :: evs /\
    Forall quietEvent evs /\
    match connectResult w (self s) with
    | Err _ => openConns s' = openConns s /\ deferred s' = [DUnlock]
    | Ok con =>
        openConns s' = con :: openConns s /\
        deferred s' = [DCancel sessionCtx; DClose con; DUnlock]
    end.
Proof.
  intros Hl Hd. unfold CollectBody.
  unfold mbind at 1, Go_bind at 1. unfold Lock at 1. rewrite Hl.
  unfold mbind at 1, Go_bind at 1. unfold defer at 1. cbn [self openConns trace deferred].
  rewrite Hd.
  set (s1 := mkState (set_locked true (self s)) (openConns s) (trace s ++ [EvLock]) [DUnlock]).
  do 3 (unfold mbind at 1, Go_bind at 1; unfold read at 1).
  unfold mbind at 1, Go_bind at 1.
  rewrite (getGrpcClient_run w s1).
  change (self s1) with (set_locked true (self s)).
  rewrite connectResult_set_locked, connectTrace_set_locked.
  destruct (connectResult w (self s)) as [con|err].
  - unfold mbind at 1, Go_bind at 1. unfold defer at 1.
    unfold mbind at 1, Go_bind at 1. unfold defer at 1.
    cbn [self openConns trace deferred].
    match goal with |- context [ _ ?st = _ ] =>
      match st with mkState _ _ _ _ => set (s2 := st) end end.
    destruct (keeps_run _ s2 (keeps_session w con sessionCtx))
      as (s' & r & evs & Hrun & Hr & K1 & K2 & K3 & K5 & K6).
    exists s', r, (connectTrace w (self s) ++ evs).
    split; [exact Hrun|]. split; [exact Hr|]. split; [by rewrite K1|].
    split; [|split; [|by rewrite K2, K3]].
    + rewrite K5. subst s2 s1. cbn [trace]. by rewrite <- !app_assoc.
    + apply Forall_app. split; [apply quiet_connectTrace | exact K6].
  - match goal with |- context [ _ ?st = _ ] =>
      match st with mkState _ _ _ _ => set (s2 := st) end end.
    destruct (keeps_run _ s2 (keeps_failed err))
      as (s' & r & evs & Hrun & Hr & K1 & K2 & K3 & K5 & K6).
    exists s', r, (connectTrace w (self s) ++ evs).
    split; [exact Hrun|]. split; [exact Hr|]. split; [by rewrite K1|].
    split; [|split; [|by rewrite K2, K3]].
    + rewrite K5. subst s2 s1. cbn [trace]. by rewrite <- !app_assoc.
    + apply Forall_app. split; [apply quiet_connectTrace | exact K6].
Qed.

Lemma runDefers_unlock o c oc tr :
  runDefers [DUnlock] o (mkState (set_locked true c) oc tr [])
  = (mkState (set_locked false (set_locked true c)) oc (tr ++ [EvUnlock]) [], o).
Proof. done. Qed.

Lemma runDefers_session o c ctx con oc tr :
  runDefers [DCancel ctx; DClose con; DUnlock] o
    (mkState (set_locked true c) (con :: oc) tr [])
  = (mkState (set_locked false (set_locked true c)) oc
       (tr ++ [EvCancel ctx; EvClose con; EvUnlock]) [], o).
Proof.
  cbn [runDefers runDeferredCall emit add_events Close self openConns trace deferred].
  rewrite remove_conn_head. unfold Unlock. cbn [self openConns trace deferred].
  change (mutexLocked (set_locked true c)) with true. cbv iota.
  by rewrite <- !app_assoc.
Qed.

(** ** Code that does not read the stored timeout *)

Lemma oblivious_ret {A} (a : A) : oblivious (mret a).
Proof. done. Qed.

Lemma oblivious_bind {A B} (m : Go A) (f : A -> Go B) :
  oblivious m -> (forall a, oblivious (f a)) -> oblivious (m ≫= f).
Proof.
  intros Hm Hf t s. unfold mbind, Go_bind. rewrite Hm.
  destruct (m s) as [s1 [a|x]]; cbn [fst snd]; [apply Hf | done].
Qed.

Lemma oblivious_emit e : oblivious (emit e).
Proof. done. Qed.

Lemma oblivious_exit {A} x : oblivious (@exit A x).
Proof. done. Qed.

(** A field other than [timeout]. *)
Lemma oblivious_read {A} (f : LndExporter -> A) :
  (forall t c, f (withTimeout t c) = f c) -> oblivious (read f).
Proof. intros Hf t s. unfold read. simpl. by rewrite Hf. Qed.

Lemma oblivious_Lock : oblivious Lock.
Proof. intros t s. unfold Lock. simpl. by destruct (mutexLocked (self s)). Qed.

Lemma oblivious_Unlock : oblivious Unlock.
Proof. intros t s. unfold Unlock. simpl. by destruct (mutexLocked (self s)). Qed.

Lemma oblivious_defer d : oblivious (defer d).
Proof. done. Qed.

Lemma oblivious_Close con : oblivious (Close con).
Proof. done. Qed.

Lemma oblivious_grpcDial w addr opts : oblivious (grpcDial w addr opts).
Proof. intros t s. unfold grpcDial. by destruct (Dial w addr opts). Qed.

Lemma oblivious_forRange {A} (l : list A) (body : A -> Go unit) :
  (forall x, oblivious (body x)) -> oblivious (forRange l body).
Proof.
  intros Hb. induction l as [|x l IH]; simpl; [apply oblivious_ret|].
  apply oblivious_bind; [apply Hb | intros _; apply IH].
Qed.

Lemma oblivious_MustNewConstMetric d vt v lbls :
  oblivious (MustNewConstMetric d vt v lbls).
Proof.
  unfold MustNewConstMetric. destruct d as [d|]; [|apply oblivious_exit].
  destruct (Nat.eqb _ _); [apply oblivious_ret | apply oblivious_exit].
Qed.

Ltac oblivious_tac :=
  repeat first
    [ apply oblivious_MustNewConstMetric
    | apply oblivious_emit
    | apply oblivious_ret
    | apply oblivious_exit
    | apply oblivious_defer
    | apply oblivious_Lock
    | apply oblivious_grpcDial
    | apply oblivious_read; reflexivity
    | apply oblivious_forRange; intros ?
    | apply oblivious_bind; [| intros ?]
    | match goal with
      | |- oblivious (match ?r with Ok _ => _ | Err _ => _ end) => destruct r
      | |- oblivious (if ?b then _ else _) => destruct b
      end ].

Lemma oblivious_getGrpcClient w addr certPath macPath :
  oblivious (getGrpcClient w addr certPath macPath).
Proof. unfold getGrpcClient, logPrintln, logPrintf. oblivious_tac. Qed.

Lemma oblivious_CollectBody w : oblivious (CollectBody w).
Proof.
  unfold CollectBody.
  apply oblivious_bind; [apply oblivious_Lock|]. intros _.
  apply oblivious_bind; [apply oblivious_defer|]. intros _.
  apply oblivious_bind; [by apply oblivious_read|]. intros addr.
  apply oblivious_bind; [by apply oblivious_read|]. intros certPath.
  apply oblivious_bind; [by apply oblivious_read|]. intros macPath.
  apply oblivious_bind; [apply oblivious_getGrpcClient|]. intros r.
  unfold sendInfo, probeWalletBalance, probePendingChannels, probeChannelBalance,
    probeForwardingHistory, probeNetworkInfo, probeListChannels, probeListPeers,
    sendForwardingEvent, sendChannel, sendPeer, sendConstMetric, metric, send,
    invoke, logPrintf, return_.
  oblivious_tac.
Qed.

Lemma oblivious_runDefers ds o t s :
  runDefers ds o (withTimeoutState t s)
  = (withTimeoutState t (runDefers ds o s).1, (runDefers ds o s).2).
Proof.
  revert o s. induction ds as [|d ds IH]; intros o s; [done|].
  cbn [runDefers].
  assert (oblivious (runDeferredCall d)) as Hd.
  { destruct d; simpl;
      [apply oblivious_Unlock | apply oblivious_Close | apply oblivious_emit]. }
  rewrite Hd. destruct (runDeferredCall d s) as [s1 [a|[| |]]]; cbn [fst snd];
    auto.
Qed.

Lemma Collect_withTimeout w t s :
  Collect w (withTimeoutState t s)
  = (withTimeoutState t (Collect w s).1, (Collect w s).2).
Proof.
  unfold Collect, call.
  change (mkState (self (withTimeoutState t s)) (openConns (withTimeoutState t s))
            (trace (withTimeoutState t s)) [])
    with (withTimeoutState t (mkState (self s) (openConns s) (trace s) [])).
  rewrite oblivious_CollectBody.
  destruct (CollectBody w _) as [s1 r]. cbn [fst snd].
  change (deferred (withTimeoutState t s1)) with (deferred s1).
  change (mkState (self (withTimeoutState t s1)) (openConns (withTimeoutState t s1))
            (trace (withTimeoutState t s1)) [])
    with (withTimeoutState t (mkState (self s1) (openConns s1) (trace s1) [])).
  destruct r as [[]|[| |]]; try done;
    rewrite oblivious_runDefers;
    by destruct (runDefers _ _ _) as [s2 o'].
Qed.

(** ** The contexts of a scrape *)

Lemma usesSessionCtx_sends ms : Forall usesSessionCtx (EvSend <$> ms).
Proof. induction ms; by constructor. Qed.

Lemma usesSessionCtx_collectTrace ns c w : Forall usesSessionCtx (collectTrace ns c w).
Proof.
  unfold collectTrace. apply Forall_app. split; [by repeat constructor|].
  apply Forall_app. split.
  { unfold connectTrace.
    repeat match goal with |- context [match ?r with Ok _ => _ | Err _ => _ end] =>
      destruct r; try by repeat constructor end. }
  destruct (connectResult w c) as [con|err]; [|by repeat constructor].
  apply Forall_app. split; [|by repeat constructor].
  unfold sessionTrace. constructor; [done|].
  destruct (rpcGetInfo w con sessionCtx) as [stats|err]; [|by repeat constructor].
  apply Forall_app. split; [apply usesSessionCtx_sends|].
  apply Forall_app. split; [|by repeat constructor].
  apply Forall_flat_map, Forall_forall. intros p _.
  unfold probeTrace. destruct (probeEnabled c p); [|by constructor].
  constructor; [done|].
  destruct p;
    match goal with |- context [answered ?r _ ?lp] =>
      unfold answered; destruct r;
        [apply usesSessionCtx_sends | by repeat constructor] end.
Qed.

(** What [Collect] leaves behind, on any exporter whose mutex is free. *)
Lemma Collect_resources w s :
  mutexLocked (self s) = false ->
  (Collect w s).2 <> Blocked /\
  self (Collect w s).1 = self s /\
  openConns (Collect w s).1 = openConns s /\
  exists evs,
    trace (Collect w s).1 = trace s ++ EvLock :: evs ++ [EvUnlock] /\
    Forall quietEvent evs /\
    forall con, connectResult w (self s) = Ok con -> EvClose con ∈ evs.
Proof.
  intros Hl. unfold Collect, call.
  set (s0 := mkState (self s) (openConns s) (trace s) []).
  destruct (CollectBody_resources w s0 Hl eq_refl)
    as (s' & r & evs & Hrun & Hr & Hself & Htr & Hq & Hrest).
  rewrite Hrun.
  change (self s0) with (self s) in *.
  change (openConns s0) with (openConns s) in *.
  change (trace s0) with (trace s) in *.
  destruct s' as [c' oc' tr' ds']. cbn [self openConns trace deferred] in *.
  subst c' tr'.
  set (o := match r with
            | inr (ExitPanic msg) => Panicked msg
            | inr ExitBlocked => Blocked
            | _ => Returned
            end).
  assert (o <> Blocked) as Ho.
  { subst o. destruct r as [[]|[]]; done. }
  destruct (connectResult w (self s)) as [con|err].
  - destruct Hrest as [-> ->].
    assert (match o with
            | Blocked =>
                (mkState (set_locked true (self s)) (con :: openConns s)
                   (trace s ++ EvLock :: evs)
                   [DCancel sessionCtx; DClose con; DUnlock], Blocked)
            | _ =>
                let '(s2, o') :=
                  runDefers [DCancel sessionCtx; DClose con; DUnlock] o
                    (mkState (set_locked true (self s)) (con :: openConns s)
                       (trace s ++ EvLock :: evs) []) in
                (mkState (self s2) (openConns s2) (trace s2) (deferred s), o')
            end
            = (mkState (self s) (openConns s)
                 (trace s ++ EvLock :: (evs ++ [EvCancel sessionCtx; EvClose con])
                    ++ [EvUnlock]) (deferred s), o)) as ->.
    { rewrite runDefers_session, (set_locked_twice _ Hl).
      cbn [self openConns trace]. rewrite <- ?app_assoc. cbn [app].
      rewrite <- ?app_assoc. cbn [app]. by destruct o. }
    cbn [fst snd self openConns trace].
    split; [done|]. split; [done|]. split; [done|].
    eexists. split; [reflexivity|]. split.
    { apply Forall_app. split; [exact Hq | by repeat constructor]. }
    intros con' [= <-]. set_solver.
  - destruct Hrest as [-> ->].
    assert (match o with
            | Blocked =>
                (mkState (set_locked true (self s)) (openConns s)
                   (trace s ++ EvLock :: evs) [DUnlock], Blocked)
            | _ =>
                let '(s2, o') :=
                  runDefers [DUnlock] o
                    (mkState (set_locked true (self s)) (openConns s)
                       (trace s ++ EvLock :: evs) []) in
                (mkState (self s2) (openConns s2) (trace s2) (deferred s), o')
            end
            = (mkState (self s) (openConns s)
                 (trace s ++ EvLock :: evs ++ [EvUnlock]) (deferred s), o)) as ->.
    { rewrite runDefers_unlock, (set_locked_twice _ Hl).
      cbn [self openConns trace]. rewrite <- ?app_assoc. cbn [app]. by destruct o. }
    cbn [fst snd self openConns trace].
    split; [done|]. split; [done|]. split; [done|].
    eexists. split; [reflexivity|]. split; [exact Hq|]. intros con' [=].
Qed.

(** A [Collect] that finds the mutex held waits, and changes nothing. *)
Lemma Collect_blocked w s :
  mutexLocked (self s) = true ->
  Collect w s = (mkState (self s) (openConns s) (trace s) [], Blocked).
Proof.
  intros Hl. unfold Collect, call, CollectBody.
  unfold mbind at 1, Go_bind at 1. unfold Lock at 1.
  cbn [self]. by rewrite Hl.
Qed.

Lemma Collect_self w s : self (Collect w s).1 = self s.
Proof.
  destruct (mutexLocked (self s)) eqn:Hl.
  - by rewrite Collect_blocked.
  - by apply Collect_resources.
Qed.

(** ** The descriptors of the catalog *)

Lemma descriptors_NoDup ns : NoDup ((catalogTable ns).*2).
Proof.
  rewrite catalogTable_descs.
  apply NoDup_fmap_2_strong; [|apply catalogKeys_NoDup].
  intros k1 k2 H1 H2. by apply descOf_inj.
Qed.

Lemma map_to_list_catalog ns : map_to_list (catalog ns) ≡ₚ catalogTable ns.
Proof.
  apply map_to_list_to_map. rewrite catalogTable_keys. apply catalogKeys_NoDup.
Qed.

Lemma Describe_catalog ns c out :
  metrics c = catalog ns -> Describe c out -> out ≡ₚ (catalogTable ns).*2.
Proof.
  intros Hc (order & Hp & ->). unfold DescribeIn.
  rewrite Hp, Hc. by rewrite map_to_list_catalog.
Qed.

(** ** float64: conversion of integers and the sign of a difference *)

Local Open Scope Z_scope.

Lemma digits2_pos_bounds p :
  2 ^ (Zpos (digits2_pos p) - 1) <= Zpos p < 2 ^ Zpos (digits2_pos p).
Proof.
  induction p as [p IH|p IH|]; cbn [digits2_pos].
  - rewrite Pos2Z.inj_succ, Z.pow_succ_r by lia.
    replace (Z.succ (Z.pos (digits2_pos p)) - 1) with (Z.succ (Z.pos (digits2_pos p) - 1)) by lia.
    rewrite Z.pow_succ_r by lia. lia.
  - rewrite Pos2Z.inj_succ, Z.pow_succ_r by lia.
    replace (Z.succ (Z.pos (digits2_pos p)) - 1) with (Z.succ (Z.pos (digits2_pos p) - 1)) by lia.
    rewrite Z.pow_succ_r by lia. lia.
  - simpl. lia.
Qed.

Lemma shr_m_shr_1 mrs : 0 <= shr_m mrs -> shr_m (shr_1 mrs) = shr_m mrs / 2.
Proof.
  destruct mrs as [m r s]. cbn [shr_m]. intros Hm. unfold shr_1.
  destruct m as [|[p|p|]|p]; cbn [shr_m]; try lia.
  - done.
  - rewrite Pos2Z.inj_xI. apply Z.div_unique with 1; lia.
  - rewrite Pos2Z.inj_xO. apply Z.div_unique with 0; lia.
  - done.
Qed.

Lemma shr_m_iter p mrs :
  0 <= shr_m mrs -> shr_m (SpecFloat.iter_pos shr_1 p mrs) = shr_m mrs / 2 ^ Zpos p.
Proof.
  revert mrs. induction p as [p IH|p IH|]; intros mrs Hm; cbn [SpecFloat.iter_pos].
  - assert (0 <= shr_m (shr_1 mrs)) as H1.
    { rewrite shr_m_shr_1 by done. apply Z.div_pos; lia. }
    assert (0 <= shr_m (SpecFloat.iter_pos shr_1 p (shr_1 mrs))) as H2.
    { rewrite IH by done. apply Z.div_pos; [done|]. apply Z.pow_pos_nonneg; lia. }
    rewrite IH, IH, shr_m_shr_1 by done.
    rewrite !Z.div_div by (try apply Z.pow_pos_nonneg; lia).
    f_equal.
    assert (2 ^ Z.pos p~1 = 2 * (2 ^ Z.pos p * 2 ^ Z.pos p)) as ->; [|lia].
    rewrite Pos2Z.inj_xI, <- Z.pow_add_r, <- Z.pow_succ_r by lia. f_equal. lia.
  - assert (0 <= shr_m (SpecFloat.iter_pos shr_1 p mrs)) as H2.
    { rewrite IH by done. apply Z.div_pos; [done|]. apply Z.pow_pos_nonneg; lia. }
    rewrite IH, IH by done.
    rewrite !Z.div_div by (try apply Z.pow_pos_nonneg; lia).
    f_equal.
    rewrite Pos2Z.inj_xO, <- Z.pow_add_r by lia. f_equal. lia.
  - by apply shr_m_shr_1.
Qed.

Lemma fexp_eq x : fexp 53 1024 x = Z.max (x - 53) (-1074).
Proof. reflexivity. Qed.

Lemma shr_record_of_loc_m m l : shr_m (shr_record_of_loc m l) = m.
Proof. by destruct l as [|[]]. Qed.

Lemma shr_fexp_pos m e l :
  0 < m -> -1074 <= e ->
  0 < shr_m (shr_fexp 53 1024 m e l).1 /\ -1074 <= (shr_fexp 53 1024 m e l).2.
Proof.
  intros Hm He. unfold shr_fexp, shr. rewrite fexp_eq.
  destruct m as [|p|p]; try lia. cbn [Zdigits2].
  pose proof (digits2_pos_bounds p) as [Hlo Hhi].
  assert (0 < Z.pos (digits2_pos p)) as Hd by lia.
  set (d := Z.pos (digits2_pos p)) in *.
  destruct (Z.max (d + e - 53) (-1074) - e) as [|n|n] eqn:En; cbn [fst snd];
    rewrite ?shr_record_of_loc_m; try (split; lia).
  rewrite shr_m_iter by (rewrite shr_record_of_loc_m; lia).
  rewrite shr_record_of_loc_m.
  split; [|lia].
  apply Z.div_str_pos. split; [apply Z.pow_pos_nonneg; lia|].
  transitivity (2 ^ (d - 1)); [|done]. apply Z.pow_le_mono_r; lia.
Qed.

Lemma round_nearest_even_pos m l : 0 < m -> 0 < round_nearest_even m l.
Proof.
  intros Hm. destruct l as [|[]]; simpl; try done; [destruct (Z.even m)|]; lia.
Qed.

(** A rounded positive mantissa keeps the sign it is given: the result is
    above zero exactly when the sign is positive. *)
Lemma binary_round_aux_sign sx m e l :
  0 < m -> -1074 <= e ->
  SFltb (S754_zero false) (binary_round_aux 53 1024 sx m e l) = negb sx.
Proof.
  intros Hm He. unfold binary_round_aux.
  pose proof (shr_fexp_pos m e l Hm He) as [H1 H2].
  destruct (shr_fexp 53 1024 m e l) as [mrs' e']. cbn [fst snd] in *.
  pose proof (round_nearest_even_pos _ (loc_of_shr_record mrs') H1) as H3.
  pose proof (shr_fexp_pos _ e' loc_Exact H3 H2) as [H4 H5].
  destruct (shr_fexp 53 1024 _ e' loc_Exact) as [mrs'' e'']. cbn [fst snd] in *.
  destruct (shr_m mrs'') as [|q|q]; try lia.
  destruct (Z.leb e'' (1024 - 53)); by destruct sx.
Qed.

Lemma binary_round_sign sx mx ex :
  -1074 <= ex ->
  SFltb (S754_zero false) (binary_round 53 1024 sx mx ex) = negb sx.
Proof.
  intros He. unfold binary_round, shl_align.
  pose proof (fexp_eq (Z.pos (digits2_pos mx) + ex)) as Hf.
  destruct (fexp 53 1024 (Z.pos (digits2_pos mx) + ex) - ex);
    apply binary_round_aux_sign; lia.
Qed.

Lemma binary_normalize_gtb m e :
  -1074 <= e ->
  SFltb (S754_zero false) (binary_normalize 53 1024 m e false) = (0 <? m).
Proof.
  intros He. destruct m as [|p|p]; cbn [binary_normalize].
  - done.
  - by rewrite binary_round_sign.
  - by rewrite binary_round_sign.
Qed.

Lemma iter_xO_val m k : Z.pos (Pos.iter xO m k) = Z.pos m * 2 ^ Z.pos k.
Proof.
  induction k as [|k IH] using Pos.peano_ind.
  - simpl. lia.
  - rewrite Pos.iter_succ, Pos2Z.inj_xO, IH, Pos2Z.inj_succ, Z.pow_succ_r by lia. lia.
Qed.

Lemma iter_xO_digits m k :
  Z.pos (digits2_pos (Pos.iter xO m k)) = Z.pos (digits2_pos m) + Z.pos k.
Proof.
  induction k as [|k IH] using Pos.peano_ind.
  - simpl. lia.
  - rewrite Pos.iter_succ. cbn [digits2_pos]. rewrite Pos2Z.inj_succ, IH. lia.
Qed.

(** A mantissa of 53 digits with an exponent in range is kept as it is. *)
Lemma binary_round_aux_canonical sx mz ez :
  Z.pos (digits2_pos mz) = 53 -> -1074 <= ez <= 971 ->
  binary_round_aux 53 1024 sx (Z.pos mz) ez loc_Exact = S754_finite sx mz ez.
Proof.
  intros Hd He. unfold binary_round_aux.
  assert (shr_fexp 53 1024 (Z.pos mz) ez loc_Exact
          = (Build_shr_record (Z.pos mz) false false, ez)) as Hs.
  { unfold shr_fexp. cbn [Zdigits2]. rewrite Hd, fexp_eq.
    replace (Z.max (53 + ez - 53) (-1074) - ez) with 0 by lia. done. }
  rewrite Hs. cbn [shr_m loc_of_shr_record round_nearest_even]. rewrite Hs.
  cbn [shr_m]. replace (ez <=? 1024 - 53) with true; [done|].
  symmetry. apply Z.leb_le. lia.
Qed.

(** The float of a nonzero integer below 2^53 in magnitude is exact. *)
Lemma binary_round_exact sx mx :
  Z.pos mx < 2 ^ 53 ->
  exists mz ez,
    binary_round 53 1024 sx mx 0 = S754_finite sx mz ez /\
    -52 <= ez <= 0 /\ Z.pos mz * 2 ^ (ez + 52) = Z.pos mx * 2 ^ 52.
Proof.
  intros Hlt. unfold binary_round, shl_align. rewrite fexp_eq.
  pose proof (digits2_pos_bounds mx) as [Hlo Hhi].
  assert (0 < Z.pos (digits2_pos mx)) as Hd0 by lia.
  set (d := Z.pos (digits2_pos mx)) in *.
  assert (d <= 53) as Hd.
  { destruct (Z.le_gt_cases d 53) as [|Hgt]; [done|]. exfalso.
    assert (2 ^ 53 <= 2 ^ (d - 1)) by (apply Z.pow_le_mono_r; lia). lia. }
  replace (Z.max (d + 0 - 53) (-1074)) with (d - 53) by lia.
  destruct (d - 53 - 0) as [|k|k] eqn:Ek; try lia.
  - exists mx, 0. split; [|split; [lia|done]].
    apply binary_round_aux_canonical; [fold d|]; lia.
  - exists (Pos.iter xO mx k), (d - 53). split; [|split; [lia|]].
    + apply binary_round_aux_canonical; [|lia].
      rewrite iter_xO_digits. fold d. lia.
    + rewrite iter_xO_val, <- Z.mul_assoc, <- Z.pow_add_r by lia.
      do 2 f_equal. lia.
Qed.

Lemma of_Z_represents a :
  Z.abs a <= 2 ^ 53 -> F64.represents (F64.of_Z a) a.
Proof.
  intros Ha. unfold F64.of_Z, F64.prec, F64.emax.
  destruct a as [|p|p]; cbn [binary_normalize].
  - done.
  - destruct (Z.eq_dec (Z.pos p) 9007199254740992) as [Heq|Hne].
    + injection Heq as ->. vm_compute. split; [discriminate|reflexivity].
    + destruct (binary_round_exact false p) as (mz & ez & -> & He & Hv).
      { change (2 ^ 53) with 9007199254740992 in *. lia. }
      cbn [F64.represents cond_Zopp]. split; [lia|done].
  - destruct (Z.eq_dec (Z.pos p) 9007199254740992) as [Heq|Hne].
    + injection Heq as ->. vm_compute. split; [discriminate|reflexivity].
    + destruct (binary_round_exact true p) as (mz & ez & -> & He & Hv).
      { change (2 ^ 53) with 9007199254740992 in *. lia. }
      cbn [F64.represents cond_Zopp]. split; [lia|]. rewrite Hv. lia.
Qed.

Lemma shl_align_val mx ex ez :
  ez <= ex -> Z.pos (shl_align mx ex ez).1 = Z.pos mx * 2 ^ (ex - ez).
Proof.
  intros Hle. unfold shl_align.
  destruct (ez - ex) as [|d|d] eqn:Ed; cbn [fst]; try lia.
  - replace (ex - ez) with 0 by lia. lia.
  - rewrite iter_xO_val. do 2 f_equal. lia.
Qed.

Lemma represents_scaled s m e a :
  F64.represents (S754_finite s m e) a ->
  forall ez, -52 <= ez -> ez <= e ->
  cond_Zopp s (Z.pos m * 2 ^ (e - ez)) * 2 ^ (ez + 52) = a * 2 ^ 52.
Proof.
  intros [He Hv] ez Hz Hle. rewrite <- Hv.
  replace (e + 52) with ((e - ez) + (ez + 52)) by lia.
  rewrite (Z.pow_add_r 2 (e - ez) (ez + 52)) by lia.
  destruct s; cbn [cond_Zopp]; ring.
Qed.

Lemma represents_sign s m e a :
  F64.represents (S754_finite s m e) a -> negb s = (0 <? a) /\ s = (a <? 0).
Proof.
  intros [He Hv].
  assert (0 < Z.pos m * 2 ^ (e + 52)) as Hpos.
  { apply Z.mul_pos_pos; [lia|]. apply Z.pow_pos_nonneg; lia. }
  change (2 ^ 52) with 4503599627370496 in Hv.
  destruct s; cbn [cond_Zopp negb] in *; split; symmetry.
  - apply Z.ltb_ge. lia.
  - apply Z.ltb_lt. lia.
  - apply Z.ltb_lt. lia.
  - apply Z.ltb_ge. lia.
Qed.

(** The sign of a float difference of two exactly represented integers is
    the sign of their difference. *)
Lemma sub_gtb x y a b :
  F64.represents x a -> F64.represents y b ->
  F64.gtb (F64.sub x y) F64.zero = (0 <? a - b).
Proof.
  intros Hx Hy. unfold F64.gtb, F64.sub, F64.zero.
  change F64.prec with 53. change F64.emax with 1024.
  destruct x as [sx| | |sx mx ex]; try done; destruct y as [sy| | |sy my ey]; try done.
  - cbn [F64.represents] in *. subst. by destruct sx, sy.
  - cbn [F64.represents] in Hx. subst a. cbn [SFsub].
    destruct (represents_sign _ _ _ _ Hy) as [_ Hs].
    transitivity (negb (negb sy)); [by destruct sy|].
    rewrite negb_involutive, Hs. replace (0 - b) with (- b) by lia.
    destruct (Z.ltb_spec b 0), (Z.ltb_spec 0 (- b)); (done || lia).
  - cbn [F64.represents] in Hy. subst b. cbn [SFsub].
    destruct (represents_sign _ _ _ _ Hx) as [Hs _].
    transitivity (negb sx); [by destruct sx|].
    rewrite Hs. by replace (a - 0) with a by lia.
  - cbn [SFsub].
    pose proof Hx as [Hex _]. pose proof Hy as [Hey _].
    set (ez := Z.min ex ey).
    assert (-52 <= ez) as Hez by (subst ez; lia).
    rewrite binary_normalize_gtb by lia.
    rewrite !shl_align_val by (subst ez; lia).
    pose proof (represents_scaled _ _ _ _ Hx ez Hez ltac:(subst ez; lia)) as Ha.
    pose proof (represents_scaled _ _ _ _ Hy ez Hez ltac:(subst ez; lia)) as Hb.
    assert (0 < 2 ^ (ez + 52)) as Hp by (apply Z.pow_pos_nonneg; lia).
    set (P := 2 ^ (ez + 52)) in *.
    set (X := cond_Zopp sx (Z.pos mx * 2 ^ (ex - ez))) in *.
    set (Y := cond_Zopp sy (Z.pos my * 2 ^ (ey - ez))) in *.
    change (2 ^ 52) with 4503599627370496 in *.
    destruct (Z.ltb_spec 0 (X - Y)), (Z.ltb_spec 0 (a - b)); try done; nia.
Qed.

(** The guard of the balance ratio, for capacities and fees that [float64]
    holds exactly. *)
Lemma realCapacity_gtb channel :
  Z.abs (lnrpc.Capacity channel) <= 2 ^ 53 ->
  Z.abs (lnrpc.CommitFee channel) <= 2 ^ 53 ->
  F64.gtb (realCapacity channel) F64.zero
  = (0 <? lnrpc.Capacity channel - lnrpc.CommitFee channel).
Proof.
  intros Hc Hf. unfold realCapacity. apply sub_gtb; by apply of_Z_represents.
Qed.

(** ** Two goroutines and one mutex *)

Lemma interleaving_sym held t1 t2 g :
  interleaving held t1 t2 g -> interleaving held t2 t1 g.
Proof.
  induction 1; [constructor | eapply interleaving_right | eapply interleaving_left];
    eauto.
Qed.

Lemma mutexAfter_quiet held e : quietEvent e -> mutexAfter held e = Some held.
Proof. by destruct e. Qed.

(** One goroutine alone runs its events in order. *)
Lemma interleaving_alone held t g : interleaving held [] t g -> g = t.
Proof.
  remember [] as t1 eqn:E. induction 1 as [| |held held' e t1 t2 g Hm Hi IH];
    [done | discriminate | by rewrite IH].
Qed.

Lemma interleaving_run_alone b :
  Forall quietEvent b ->
  interleaving true (b ++ [EvUnlock]) [] (b ++ [EvUnlock]).
Proof.
  intros Hb. induction Hb as [|e b He Hb IH]; simpl.
  - eapply interleaving_left; [done|]. constructor.
  - eapply interleaving_left; [by apply mutexAfter_quiet|]. exact IH.
Qed.

(** While one goroutine holds the mutex and the other is about to lock it,
    the holder runs up to its unlock before the other starts. *)
Lemma interleaving_holder b t2 g :
  Forall quietEvent b ->
  interleaving true (b ++ [EvUnlock]) (EvLock :: t2) g ->
  exists g', g = b ++ [EvUnlock] ++ g' /\ interleaving false [] (EvLock :: t2) g'.
Proof.
  intros Hb. revert g. induction Hb as [|e b He Hb IH]; intros g Hi; simpl in *.
  - inversion Hi as [|held held' e' t1' t2' g' Hm Hi'|held held' e' t1' t2' g' Hm Hi'];
      subst; [|discriminate Hm].
    injection Hm as <-. by exists g'.
  - inversion Hi as [|held held' e' t1' t2' g' Hm Hi'|held held' e' t1' t2' g' Hm Hi'];
      subst; [|discriminate Hm].
    rewrite (mutexAfter_quiet true e He) in Hm. injection Hm as <-.
    destruct (IH _ Hi') as (g'' & -> & Hi''). by exists g''.
Qed.

(** Two goroutines that each lock first, unlock last and leave the mutex
    alone in between are serialized by any schedule. *)
Lemma interleaving_serial b1 b2 g :
  Forall quietEvent b1 -> Forall quietEvent b2 ->
  interleaving false (EvLock :: b1 ++ [EvUnlock]) (EvLock :: b2 ++ [EvUnlock]) g ->
  g = (EvLock :: b1 ++ [EvUnlock]) ++ (EvLock :: b2 ++ [EvUnlock]) \/
  g = (EvLock :: b2 ++ [EvUnlock]) ++ (EvLock :: b1 ++ [EvUnlock]).
Proof.
  intros H1 H2 Hi.
  inversion Hi as [|held held' e' t1' t2' g' Hm Hi'|held held' e' t1' t2' g' Hm Hi'];
    subst; injection Hm as <-.
  - left. destruct (interleaving_holder _ _ _ H1 Hi') as (g'' & -> & Hi'').
    apply interleaving_alone in Hi''. subst g''. simpl. by rewrite <- app_assoc.
  - right. apply interleaving_sym in Hi'.
    destruct (interleaving_holder _ _ _ H2 Hi') as (g'' & -> & Hi'').
    apply interleaving_alone in Hi''. subst g''. simpl. by rewrite <- app_assoc.
Qed.

(** The schedule that runs one goroutine and then the other is possible. *)
Lemma interleaving_sequential b1 b2 :
  Forall quietEvent b1 -> Forall quietEvent b2 ->
  interleaving false (EvLock :: b1 ++ [EvUnlock]) (EvLock :: b2 ++ [EvUnlock])
    ((EvLock :: b1 ++ [EvUnlock]) ++ (EvLock :: b2 ++ [EvUnlock])).
Proof.
  intros H1 H2. simpl. eapply interleaving_left; [done|].
  induction H1 as [|e b He Hb IH]; simpl.
  - eapply interleaving_left; [done|].
    eapply interleaving_right; [done|].
    apply interleaving_sym.
    by apply interleaving_run_alone.
  - eapply interleaving_left; [by apply mutexAfter_quiet|]. exact IH.
Qed.

Lemma scrapeEvents_shape w c :
  mutexLocked c = false ->
  exists b, scrapeEvents w c = EvLock :: b ++ [EvUnlock] /\ Forall quietEvent b.
Proof.
  intros Hl. unfold scrapeEvents.
  destruct (Collect_resources w (fresh c) Hl) as (_ & _ & _ & evs & Htr & Hq & _).
  exists evs. by rewrite Htr.
Qed.

(** ** The descriptors of the samples, and registration *)

Lemma emitted_desc ns c w m :
  metrics c = catalog ns -> mutexLocked c = false ->
  m ∈ emitted w c -> exists key, key ∈ catalogKeys /\ desc m = descOf ns key.
Proof.
  intros Hc Hl. rewrite (emitted_eq ns c w Hc Hl).
  assert (forall v, exists key, key ∈ catalogKeys /\ desc (lndUp ns v) = descOf ns key)
    as Hup by (intros v; exists "lnd_up"; split; [apply lnd_up_catalog | done]).
  destruct (connectResult w c) as [con|err].
  2:{ intros ->%list_elem_of_singleton. apply Hup. }
  destruct (rpcGetInfo w con sessionCtx) as [stats|err].
  2:{ intros ->%list_elem_of_singleton. apply Hup. }
  rewrite !elem_of_app. intros [Hm|[Hm|Hm]].
  - pose proof (fromInfo_samples ns stats) as HF.
    rewrite Forall_forall in HF. destruct (HF m Hm) as (key & Hk & Hd).
    exists key. split; [by apply infoKeys_catalog | done].
  - apply list_elem_of_In, in_flat_map in Hm as (p & _ & Hm).
    apply list_elem_of_In in Hm.
    pose proof (fromProbe_samples ns c w con sessionCtx p) as HF.
    rewrite Forall_forall in HF. destruct (HF m Hm) as (key & Hk & Hd).
    exists key. split; [by apply (probeKeys_catalog p) | done].
  - apply list_elem_of_singleton in Hm as ->. apply Hup.
Qed.

Lemma registerDescs_err dims descs :
  registerDescs dims descs = Ok tt -> Forall (fun d => err d = None) descs.
Proof.
  revert dims. induction descs as [|d descs IH]; intros dims H; [constructor|].
  cbn [registerDescs] in H. destruct (err d) eqn:E; [done|].
  constructor; [done|].
  destruct (dims !! fqName d) as [dim|].
  - destruct (decide _); [by eapply IH | done].
  - by eapply IH.
Qed.

Lemma registerDescs_accepts dims descs :
  Forall (fun d => err d = None) descs ->
  NoDup (fqName <$> descs) ->
  (forall d, d ∈ descs -> dims !! fqName d = None) ->
  registerDescs dims descs = Ok tt.
Proof.
  revert dims. induction descs as [|d descs IH]; intros dims He Hn Hd; [done|].
  apply Forall_cons in He as [He1 He].
  cbn [fmap list_fmap] in Hn. apply NoDup_cons in Hn as [Hn1 Hn].
  cbn [registerDescs]. rewrite He1, (Hd d) by left.
  apply IH; [done|done|]. intros d' Hd'.
  rewrite lookup_insert_ne; [apply Hd; by right|].
  intros Heq. apply Hn1. rewrite Heq. by apply list_elem_of_fmap_2.
Qed.

Lemma catalog_names_NoDup ns : NoDup (fqName <$> (descOf ns <$> catalogKeys)).
Proof.
  rewrite <- list_fmap_compose.
  apply NoDup_fmap_2_strong; [|apply catalogKeys_NoDup].
  intros k1 k2 H1 H2 Heq. cbn in Heq.
  rewrite !descOf_fqName in Heq by done. apply append_inv_head in Heq.
  by apply (NoDup_fmap_inj_on metricSuffix catalogKeys);
    auto using metricSuffix_NoDup.
Qed.

Lemma metricNameRest_app a b :
  model.metricNameRest (a +:+ b) = model.metricNameRest a && model.metricNameRest b.
Proof.
  induction a as [|ch a IH]; [done|].
  simpl. rewrite IH. by rewrite andb_assoc.
Qed.

(** The name that [newGlobalMetric] builds is valid exactly when the
    namespace is. *)
Lemma IsValidMetricName_namespaced ns name :
  model.metricNameRest name = true ->
  model.IsValidMetricName (ns +:+ "_" +:+ name) = validNamespace ns.
Proof.
  intros Hn. destruct ns as [|ch ns]; simpl.
  - exact Hn.
  - rewrite metricNameRest_app. simpl.
    change ("" +:+ name) with name. rewrite Hn.
    by rewrite !andb_true_r.
Qed.

Lemma catalogTable_errs ns :
  Forall (fun kd => err kd.2 = None <-> validNamespace ns = true) (catalogTable ns).
Proof.
  unfold catalogTable.
  repeat (constructor;
          [unfold newGlobalMetric, NewDesc; cbn [err snd];
           rewrite IsValidMetricName_namespaced by (by vm_compute);
           destruct (validNamespace ns); cbn [negb];
           [split; [done|]; intros _; by vm_compute | by split]|]).
  constructor.
Qed.

Lemma descOf_err ns key :
  key ∈ catalogKeys -> err (descOf ns key) = None <-> validNamespace ns = true.
Proof.
  intros Hk%(catalog_entry ns).
  pose proof (catalogTable_errs ns) as HF. rewrite Forall_forall in HF.
  exact (HF _ Hk).
Qed.

(** * Part III: the properties of a scrape *)

(** C1. Every scrape sends exactly one liveness sample, as its last sample:
    with value 0 and nothing before it when the connection cannot be
    established (or the node status cannot be read, which the collector
    treats the same way), with value 1 when the session runs to its end,
    whatever the probes did. *)
Theorem liveness_once_and_last ns c w :
  metrics c = catalog ns ->
  mutexLocked c = false ->
  length (filter (isLiveness ns) (emitted w c)) = 1%nat /\
  exists pre v,
    emitted w c = pre ++ [lndUp ns v] /\
    match connectResult w c with
    | Err _ => pre = [] /\ v = F64.zero
    | Ok con =>
        match rpcGetInfo w con sessionCtx with
        | Err _ => pre = [] /\ v = F64.zero
        | Ok _ => v = F64.one
        end
    end.
Proof.
  intros Hc Hl. rewrite (emitted_eq ns c w Hc Hl).
  assert (forall v, filter (isLiveness ns) [lndUp ns v] = [lndUp ns v]) as Hup.
  { intros v. rewrite filter_cons.
    destruct (decide (isLiveness ns (lndUp ns v))) as [|Hn]; [done|].
    destruct Hn. apply isLiveness_lndUp. }
  destruct (connectResult w c) as [con|err].
  - destruct (rpcGetInfo w con sessionCtx) as [stats|err].
    + split.
      * rewrite !filter_app, Hup.
        rewrite (filter_none _ _ (info_no_liveness ns stats)).
        by rewrite (filter_none _ _ (probes_no_liveness ns c w con sessionCtx probeOrder)).
      * eexists _, F64.one. split; [|done]. by rewrite app_assoc.
    + split; [by rewrite Hup|]. by exists [], F64.zero.
  - split; [by rewrite Hup|]. by exists [], F64.zero.
Qed.

Lemma liveness_once_and_last_witness :
  metrics mainExporter = catalog "lnd" /\
  mutexLocked mainExporter = false /\
  length (filter (isLiveness "lnd") (emitted (demoWorld []) mainExporter)) = 1%nat /\
  exists pre v,
    emitted (demoWorld []) mainExporter = pre ++ [lndUp "lnd" v] /\
    match connectResult (demoWorld []) mainExporter with
    | Err _ => pre = [] /\ v = F64.zero
    | Ok con =>
        match rpcGetInfo (demoWorld []) con sessionCtx with
        | Err _ => pre = [] /\ v = F64.zero
        | Ok _ => v = F64.one
        end
    end.
Proof.
  split; [reflexivity|]. split; [reflexivity|].
  apply (liveness_once_and_last "lnd" mainExporter (demoWorld [])); reflexivity.
Defined.

(** C2. When the connection cannot be established, the scrape sends the
    liveness sample with value 0 and nothing else, and issues no RPC. *)
Theorem connection_failure_only_liveness ns c w err :
  metrics c = catalog ns ->
  mutexLocked c = false ->
  connectResult w c = Err err ->
  emitted w c = [lndUp ns F64.zero] /\ issued w c = [] /\ outcome w c = Returned.
Proof.
  intros Hc Hl He.
  rewrite (emitted_eq ns c w Hc Hl), (issued_eq ns c w Hc Hl), (outcome_eq ns c w Hc Hl).
  by rewrite He.
Qed.

Lemma connection_failure_only_liveness_witness :
  metrics mainExporter = catalog "lnd" /\
  mutexLocked mainExporter = false /\
  connectResult offlineWorld mainExporter = Err "open: no such file or directory" /\
  emitted offlineWorld mainExporter = [lndUp "lnd" F64.zero] /\
  issued offlineWorld mainExporter = [] /\
  outcome offlineWorld mainExporter = Returned.
Proof.
  split; [reflexivity|]. split; [reflexivity|]. split; [reflexivity|].
  apply (connection_failure_only_liveness "lnd" mainExporter offlineWorld
           "open: no such file or directory"); reflexivity.
Defined.

(** C3. When the RPC of a skippable probe fails in a session, the scrape
    still returns, with liveness 1 as its last sample; it sends the samples
    of the node status and, for every other probe, the samples of the
    answer of the node, and none of the metrics of the failed probe; and
    every enabled probe is attempted, in order. *)
Theorem probe_failure_is_isolated ns c w con stats X :
  metrics c = catalog ns ->
  mutexLocked c = false ->
  connectResult w c = Ok con ->
  rpcGetInfo w con sessionCtx = Ok stats ->
  probeFails w con sessionCtx X = true ->
  outcome w c = Returned /\
  emitted w c
  = infoSamples ns stats
    ++ flat_map (fun Y => if decide (Y = X) then []
                          else probeSamples ns c w con sessionCtx Y) probeOrder
    ++ [lndUp ns F64.one] /\
  Forall (fun m => ~ fromProbe ns X m) (emitted w c) /\
  issued w c = GetInfo :: (probeMethod <$> filter (probeEnabled c) probeOrder).
Proof.
  intros Hc Hl Hcon Hinfo HX.
  rewrite (emitted_eq ns c w Hc Hl), (issued_eq ns c w Hc Hl), (outcome_eq ns c w Hc Hl).
  rewrite Hcon, Hinfo.
  assert (forall l,
    flat_map (fun p => samples (probeTrace ns c w con sessionCtx p)) l
    = flat_map (fun Y => if decide (Y = X) then []
                         else probeSamples ns c w con sessionCtx Y) l) as Heq.
  { induction l as [|Y l IH]; [done|]. cbn [flat_map]. rewrite IH. f_equal.
    destruct (decide (Y = X)) as [->|_].
    - by apply samples_probeTrace_fails.
    - apply samples_probeTrace. }
  split; [done|]. split; [by rewrite Heq|]. split.
  - apply Forall_app. split.
    { eapply Forall_impl; [apply fromInfo_samples|].
      intros m. apply fromInfo_not_fromProbe. }
    apply Forall_app. split.
    2:{ repeat constructor. apply lndUp_not_fromProbe. }
    generalize probeOrder. intros l.
    induction l as [|Y l IH]; [by constructor|].
    cbn [flat_map]. apply Forall_app. split; [|exact IH].
    destruct (decide (Y = X)) as [->|Hne].
    { rewrite samples_probeTrace_fails by done. constructor. }
    eapply Forall_impl; [apply fromProbe_samples|].
    intros m HY HXm. apply Hne. by apply (fromProbe_functional ns Y X m).
  - f_equal. generalize probeOrder. intros l.
    induction l as [|Y l IH]; [done|].
    cbn [flat_map]. rewrite filter_cons, IH.
    destruct (probeEnabled c Y) eqn:E.
    + rewrite decide_True by done. done.
    + rewrite decide_False; [done|]. by intros [].
Qed.

Lemma probe_failure_is_isolated_witness :
  metrics mainExporter = catalog "lnd" /\
  mutexLocked mainExporter = false /\
  connectResult (demoWorld []) mainExporter = Ok 7%nat /\
  rpcGetInfo (demoWorld []) 7%nat sessionCtx = Ok demoInfo /\
  probeFails (demoWorld []) 7%nat sessionCtx PWalletBalance = true /\
  outcome (demoWorld []) mainExporter = Returned /\
  emitted (demoWorld []) mainExporter
  = infoSamples "lnd" demoInfo
    ++ flat_map (fun Y => if decide (Y = PWalletBalance) then []
                          else probeSamples "lnd" mainExporter (demoWorld []) 7%nat
                                 sessionCtx Y) probeOrder
    ++ [lndUp "lnd" F64.one] /\
  Forall (fun m => ~ fromProbe "lnd" PWalletBalance m)
    (emitted (demoWorld []) mainExporter) /\
  issued (demoWorld []) mainExporter
  = GetInfo :: (probeMethod <$> filter (probeEnabled mainExporter) probeOrder).
Proof.
  split; [reflexivity|]. split; [reflexivity|]. split; [reflexivity|].
  split; [reflexivity|]. split; [reflexivity|].
  apply (probe_failure_is_isolated "lnd" mainExporter (demoWorld []) 7%nat demoInfo
           PWalletBalance); reflexivity.
Defined.

(** C7. The forwarding-history probe is gated by [exportPaymentMetrics]:
    with the flag off, the scrape issues no ForwardingHistory RPC and sends
    no forwarding-history sample; with the flag on, a session that reaches
    its probes issues the RPC and, when it is answered, sends for every
    forwarding event of the answer the sample of the metric
    forwarding_history_info, a gauge of value 1 with the eight labels of the
    event. *)
Theorem forwarding_probe_is_gated ns c w :
  metrics c = catalog ns ->
  mutexLocked c = false ->
  (exportPaymentMetrics c = false ->
     (ForwardingHistory ∉ issued w c) /\
     Forall (fun m => ~ fromProbe ns PForwardingHistory m) (emitted w c)) /\
  (exportPaymentMetrics c = true ->
     forall con stats,
       connectResult w c = Ok con ->
       rpcGetInfo w con sessionCtx = Ok stats ->
       (ForwardingHistory ∈ issued w c) /\
       forall r f,
         rpcForwardingHistory w con sessionCtx = Ok r ->
         f ∈ lnrpc.ForwardingEvents r ->
         sample ns "forwarding_history_info" GaugeValue F64.one
           [ lnrpc.PeerAliasIn f;
             lnrpc.PeerAliasOut f;
             strconv.FormatUint (lnrpc.AmtIn f);
             strconv.FormatUint (lnrpc.AmtOut f);
             strconv.FormatUint (lnrpc.Fee f);
             strconv.FormatUint (lnrpc.ChanIdIn f);
             strconv.FormatUint (lnrpc.ChanIdOut f);
             strconv.FormatUint (lnrpc.TimestampNs f) ]
         ∈ emitted w c).
Proof.
  intros Hc Hl.
  rewrite (emitted_eq ns c w Hc Hl), (issued_eq ns c w Hc Hl).
  split.
  - intros Hoff. split.
    + destruct (connectResult w c) as [con|err]; [|apply not_elem_of_nil].
      destruct (rpcGetInfo w con sessionCtx) as [stats|err].
      * cbn [flat_map probeOrder probeEnabled probeMethod]. rewrite Hoff.
        destruct (exportPeerMetrics c);
          apply (bool_decide_unpack _); by vm_compute.
      * apply (bool_decide_unpack _); by vm_compute.
    + destruct (connectResult w c) as [con|err].
      2:{ repeat constructor. apply lndUp_not_fromProbe. }
      destruct (rpcGetInfo w con sessionCtx) as [stats|err].
      2:{ repeat constructor. apply lndUp_not_fromProbe. }
      apply Forall_app. split.
      { eapply Forall_impl; [apply fromInfo_samples|].
        intros m. apply fromInfo_not_fromProbe. }
      apply Forall_app. split.
      2:{ repeat constructor. apply lndUp_not_fromProbe. }
      generalize probeOrder. intros l.
      induction l as [|Y l IH]; [by constructor|].
      cbn [flat_map]. apply Forall_app. split; [|exact IH].
      destruct (decide (Y = PForwardingHistory)) as [->|Hne].
      * rewrite samples_probeTrace_disabled; [by constructor | exact Hoff].
      * eapply Forall_impl; [apply fromProbe_samples|].
        intros m HY HXm. apply Hne.
        by apply (fromProbe_functional ns Y PForwardingHistory m).
  - intros Hon con stats -> ->. split.
    + cbn [flat_map probeOrder probeEnabled probeMethod]. rewrite Hon.
      destruct (exportPeerMetrics c);
        apply (bool_decide_unpack _); by vm_compute.
    + intros r f Hr Hf.
      apply elem_of_app. right. apply elem_of_app. left.
      cbn [flat_map probeOrder]. rewrite !elem_of_app.
      do 3 right. left.
      unfold probeTrace. cbn [probeEnabled]. rewrite Hon.
      cbn [samples omap list_omap probeMethod].
      change (omap _ ?t) with (samples t).
      rewrite samples_answered, Hr. unfold forwardingHistorySamples.
      apply list_elem_of_In, in_flat_map. exists f.
      split; apply list_elem_of_In; [done|]. by left.
Qed.

Lemma forwarding_probe_is_gated_witness :
  (metrics noPaymentsExporter = catalog "lnd" /\
   mutexLocked noPaymentsExporter = false /\
   exportPaymentMetrics noPaymentsExporter = false /\
   (ForwardingHistory ∉ issued (demoWorld []) noPaymentsExporter) /\
   Forall (fun m => ~ fromProbe "lnd" PForwardingHistory m)
     (emitted (demoWorld []) noPaymentsExporter)) /\
  (metrics mainExporter = catalog "lnd" /\
   mutexLocked mainExporter = false /\
   exportPaymentMetrics mainExporter = true /\
   connectResult (demoWorld []) mainExporter = Ok 7%nat /\
   rpcGetInfo (demoWorld []) 7%nat sessionCtx = Ok demoInfo /\
   (ForwardingHistory ∈ issued (demoWorld []) mainExporter) /\
   sample "lnd" "forwarding_history_info" GaugeValue F64.one
     [ "bob"; "carol"; "1001"; "1000"; "1"; "1"; "2"; "1700000000000000000" ]
   ∈ emitted (demoWorld []) mainExporter).
Proof.
  split.
  - split; [reflexivity|]. split; [reflexivity|]. split; [reflexivity|].
    apply (proj1 (forwarding_probe_is_gated "lnd" noPaymentsExporter (demoWorld [])
                    eq_refl eq_refl)).
    reflexivity.
  - split; [reflexivity|]. split; [reflexivity|]. split; [reflexivity|].
    split; [reflexivity|]. split; [reflexivity|].
    destruct (proj2 (forwarding_probe_is_gated "lnd" mainExporter (demoWorld [])
                       eq_refl eq_refl) eq_refl 7%nat demoInfo eq_refl eq_refl)
      as [Hrpc Hsample].
    split; [exact Hrpc|].
    refine (Hsample _ {| lnrpc.PeerAliasIn := "bob";
                         lnrpc.PeerAliasOut := "carol";
                         lnrpc.AmtIn := 1001;
                         lnrpc.AmtOut := 1000;
                         lnrpc.Fee := 1;
                         lnrpc.ChanIdIn := 1;
                         lnrpc.ChanIdOut := 2;
                         lnrpc.TimestampNs := 1700000000000000000 |} eq_refl _).
    by left.
Defined.



(** C5. However a scrape ends (the body of [Collect] runs to its end,
    returns early or panics; RPC errors include the expiry of the deadline
    and cancellation), [Collect] does not leave the mutex held or a
    connection open: the exporter object is as before the call, with its
    mutex free; the open connections are those of before the call; the last
    event is the unlock; and a connection that was established is closed. *)
Theorem resources_released_on_every_path w s :
  mutexLocked (self s) = false ->
  (Collect w s).2 <> Blocked /\
  mutexLocked (self (Collect w s).1) = false /\
  self (Collect w s).1 = self s /\
  openConns (Collect w s).1 = openConns s /\
  exists evs,
    trace (Collect w s).1 = trace s ++ EvLock :: evs ++ [EvUnlock] /\
    forall con, connectResult w (self s) = Ok con -> EvClose con ∈ evs.
Proof.
  intros Hl.
  destruct (Collect_resources w s Hl) as (Ho & Hs & Hc & evs & Htr & _ & Hcl).
  split; [exact Ho|]. split; [by rewrite Hs|]. split; [exact Hs|].
  split; [exact Hc|]. by exists evs.
Qed.

Lemma resources_released_on_every_path_witness :
  mutexLocked (self (fresh mainExporter)) = false /\
  (Collect (demoWorld []) (fresh mainExporter)).2 <> Blocked /\
  mutexLocked (self (Collect (demoWorld []) (fresh mainExporter)).1) = false /\
  self (Collect (demoWorld []) (fresh mainExporter)).1 = self (fresh mainExporter) /\
  openConns (Collect (demoWorld []) (fresh mainExporter)).1
  = openConns (fresh mainExporter) /\
  exists evs,
    trace (Collect (demoWorld []) (fresh mainExporter)).1
    = trace (fresh mainExporter) ++ EvLock :: evs ++ [EvUnlock] /\
    forall con,
      connectResult (demoWorld []) (self (fresh mainExporter)) = Ok con ->
      EvClose con ∈ evs.
Proof.
  split; [reflexivity|].
  apply (resources_released_on_every_path (demoWorld []) (fresh mainExporter)).
  reflexivity.
Defined.


(** C10. [Collect] does not depend on the timeout stored in the exporter:
    two exporters that differ only in that field give the same events (the
    same samples, RPCs and log lines, in the same order), the same open
    connections and the same outcome in the same world; and the deadline of
    every RPC of a scrape is the 15 seconds written in [Collect]. *)
Theorem collect_ignores_stored_timeout w s t1 t2 :
  trace (Collect w (withTimeoutState t1 s)).1
  = trace (Collect w (withTimeoutState t2 s)).1 /\
  openConns (Collect w (withTimeoutState t1 s)).1
  = openConns (Collect w (withTimeoutState t2 s)).1 /\
  (Collect w (withTimeoutState t1 s)).2 = (Collect w (withTimeoutState t2 s)).2 /\
  forall ns addr certPath macPath peer,
    Forall (fun e => match e with
                     | EvRpc _ _ ctx | EvCancel ctx => ctxTimeout ctx = 15 * Second
                     | _ => True
                     end)
      (trace (Collect w (fresh (NewLightningExporter ns addr certPath macPath t1 peer))).1).
Proof.
  rewrite !Collect_withTimeout. cbn [fst snd].
  split; [done|]. split; [done|]. split; [done|].
  intros ns addr certPath macPath peer.
  rewrite (Collect_fresh ns) by done. cbn [fst trace].
  eapply Forall_impl; [apply (usesSessionCtx_collectTrace ns)|].
  intros [] H; try done; simpl in H; by subst.
Qed.

(** C6, as the code has it. [Describe] sends each of the twenty descriptors
    of the catalog exactly once, whatever order the runtime iterates in;
    such a call is always possible; and [Collect] leaves the catalog as it
    was, so that the calls of [Describe] before and after any scrape send
    the same descriptors. *)
Theorem describe_fixed_set ns c :
  metrics c = catalog ns ->
  (forall out,
     Describe c out ->
     out ≡ₚ (catalogTable ns).*2 /\ length out = 20%nat /\ NoDup out) /\
  (exists out, Describe c out) /\
  (forall w s,
     self s = c ->
     metrics (self (Collect w s).1) = catalog ns /\
     forall out, Describe (self (Collect w s).1) out <-> Describe c out).
Proof.
  intros Hc. split; [|split].
  - intros out Hd. pose proof (Describe_catalog ns c out Hc Hd) as Hp.
    split; [done|]. split.
    + by rewrite Hp.
    + rewrite Hp. apply descriptors_NoDup.
  - exists (DescribeIn (map_to_list (metrics c))). by eexists.
  - intros w s <-. rewrite Collect_self. done.
Qed.

Lemma describe_fixed_set_witness :
  metrics mainExporter = catalog "lnd" /\
  (forall out,
     Describe mainExporter out ->
     out ≡ₚ (catalogTable "lnd").*2 /\ length out = 20%nat /\ NoDup out) /\
  (exists out, Describe mainExporter out) /\
  (forall w s,
     self s = mainExporter ->
     metrics (self (Collect w s).1) = catalog "lnd" /\
     forall out, Describe (self (Collect w s).1) out <-> Describe mainExporter out).
Proof.
  split; [reflexivity|].
  apply (describe_fixed_set "lnd" mainExporter). reflexivity.
Defined.

(** C6, counterexample to the order: two calls of [Describe] on the
    exporter of [main] need not send the descriptors in the same order. *)
Lemma describe_order_not_fixed :
  ~ (forall out1 out2,
       Describe mainExporter out1 -> Describe mainExporter out2 -> out1 = out2).
Proof.
  intros H.
  specialize (H (DescribeIn (map_to_list (metrics mainExporter)))
                (DescribeIn (reverse (map_to_list (metrics mainExporter))))).
  assert (DescribeIn (map_to_list (metrics mainExporter))
          = DescribeIn (reverse (map_to_list (metrics mainExporter)))) as Heq.
  { apply H; eexists; (split; [|reflexivity]); [done | apply reverse_Permutation]. }
  vm_compute in Heq. discriminate Heq.
Qed.

(** C9. Two goroutines that call [Collect] on the same exporter, whose
    mutex is free, are serialized: each takes the mutex as its first event
    and gives it back as its last, so that in every schedule that the mutex
    allows all the events of one scrape (its connection, its RPCs, its
    samples) come before those of the other; both orders can happen; and a
    scrape that runs after another does what it does on its own, with its
    own connection and its own RPCs. *)
Theorem concurrent_scrapes_are_serialized w1 w2 c :
  mutexLocked c = false ->
  (forall g,
     interleaving false (scrapeEvents w1 c) (scrapeEvents w2 c) g ->
     g = scrapeEvents w1 c ++ scrapeEvents w2 c \/
     g = scrapeEvents w2 c ++ scrapeEvents w1 c) /\
  interleaving false (scrapeEvents w1 c) (scrapeEvents w2 c)
    (scrapeEvents w1 c ++ scrapeEvents w2 c) /\
  interleaving false (scrapeEvents w1 c) (scrapeEvents w2 c)
    (scrapeEvents w2 c ++ scrapeEvents w1 c) /\
  (exists b1 b2,
     scrapeEvents w1 c = EvLock :: b1 ++ [EvUnlock] /\ Forall quietEvent b1 /\
     scrapeEvents w2 c = EvLock :: b2 ++ [EvUnlock] /\ Forall quietEvent b2) /\
  (forall ns,
     metrics c = catalog ns ->
     trace (Collect w2 (Collect w1 (fresh c)).1).1
     = scrapeEvents w1 c ++ scrapeEvents w2 c).
Proof.
  intros Hl. split; [|split; [|split; [|split]]].
  5:{ intros ns Hc. unfold scrapeEvents.
      rewrite !(Collect_fresh ns) by done. cbn [fst trace].
      by rewrite (Collect_run ns w2). }
  - destruct (scrapeEvents_shape w1 c Hl) as (b1 & E1 & Q1).
    destruct (scrapeEvents_shape w2 c Hl) as (b2 & E2 & Q2).
    rewrite E1, E2. intros g. by apply interleaving_serial.
  - destruct (scrapeEvents_shape w1 c Hl) as (b1 & E1 & Q1).
    destruct (scrapeEvents_shape w2 c Hl) as (b2 & E2 & Q2).
    rewrite E1, E2. by apply interleaving_sequential.
  - destruct (scrapeEvents_shape w1 c Hl) as (b1 & E1 & Q1).
    destruct (scrapeEvents_shape w2 c Hl) as (b2 & E2 & Q2).
    rewrite E1, E2. apply interleaving_sym. by apply interleaving_sequential.
  - destruct (scrapeEvents_shape w1 c Hl) as (b1 & E1 & Q1).
    destruct (scrapeEvents_shape w2 c Hl) as (b2 & E2 & Q2).
    by exists b1, b2.
Qed.

Lemma concurrent_scrapes_are_serialized_witness :
  mutexLocked mainExporter = false /\
  forall g,
    interleaving false (scrapeEvents (demoWorld []) mainExporter)
      (scrapeEvents offlineWorld mainExporter) g ->
    g = scrapeEvents (demoWorld []) mainExporter ++ scrapeEvents offlineWorld mainExporter \/
    g = scrapeEvents offlineWorld mainExporter ++ scrapeEvents (demoWorld []) mainExporter.
Proof.
  split; [reflexivity|].
  apply (concurrent_scrapes_are_serialized (demoWorld []) offlineWorld mainExporter).
  reflexivity.
Defined.

(** C4, as the code has it. For every channel that ListChannels returns,
    the scrape sends what [sendChannel] sends for it: always the balance
    sample, and before it the ratio sample when the float64 difference
    float64(capacity) - float64(commit fee) is above zero, with the float64
    quotient of float64(local balance) by that difference as its value.
    When capacity and commit fee are at most 2^53 in magnitude (every amount
    of satoshis is), that guard is capacity - commit fee > 0 on the
    integers. Capacity 100, fee 10 and balance 45 give the ratio 1/2;
    capacity 10 and fee 10 give the balance sample alone. *)
Theorem balance_ratio_guard ns c w con stats r :
  metrics c = catalog ns ->
  mutexLocked c = false ->
  connectResult w c = Ok con ->
  rpcGetInfo w con sessionCtx = Ok stats ->
  rpcListChannels w con sessionCtx = Ok r ->
  (exists pre post,
     emitted w c
     = pre ++ flat_map (fun channel => samplesOf (sendChannel channel) c)
                (lnrpc.Channels r) ++ post) /\
  forall channel,
    samplesOf (sendChannel channel) c
    = (if F64.gtb (F64.sub (F64.of_Z (lnrpc.Capacity channel))
                           (F64.of_Z (lnrpc.CommitFee channel))) F64.zero
       then [ratioSample ns channel] else [])
      ++ [balanceSample ns channel] /\
    value (ratioSample ns channel)
    = F64.div (F64.of_Z (lnrpc.LocalBalance channel))
        (F64.sub (F64.of_Z (lnrpc.Capacity channel))
                 (F64.of_Z (lnrpc.CommitFee channel))) /\
    value (balanceSample ns channel) = F64.of_Z (lnrpc.LocalBalance channel) /\
    (Z.abs (lnrpc.Capacity channel) <= 2 ^ 53 ->
     Z.abs (lnrpc.CommitFee channel) <= 2 ^ 53 ->
     samplesOf (sendChannel channel) c
     = if 0 <? lnrpc.Capacity channel - lnrpc.CommitFee channel
       then [ratioSample ns channel; balanceSample ns channel]
       else [balanceSample ns channel]) /\
    (lnrpc.Capacity channel = 100 ->
     lnrpc.CommitFee channel = 10 ->
     lnrpc.LocalBalance channel = 45 ->
     samplesOf (sendChannel channel) c
     = [ratioSample ns channel; balanceSample ns channel] /\
     value (ratioSample ns channel) = F64.pow2 4503599627370496 (-53)) /\
    (lnrpc.Capacity channel = 10 ->
     lnrpc.CommitFee channel = 10 ->
     samplesOf (sendChannel channel) c = [balanceSample ns channel]).
Proof.
  intros Hc Hl Hcon Hinfo Hr. split.
  - rewrite (emitted_eq ns c w Hc Hl), Hcon, Hinfo.
    cbn [flat_map probeOrder].
    assert (samples (probeTrace ns c w con sessionCtx PListChannels)
            = flat_map (fun channel => samplesOf (sendChannel channel) c)
                (lnrpc.Channels r)) as ->.
    { unfold probeTrace. cbn [probeEnabled probeMethod].
      rewrite samples_cons_rpc, samples_answered, Hr.
      unfold listChannelsSamples. apply flat_map_ext.
      intros channel. by rewrite (samplesOf_sendChannel ns). }
    exists (infoSamples ns stats
            ++ samples (probeTrace ns c w con sessionCtx PWalletBalance)
            ++ samples (probeTrace ns c w con sessionCtx PPendingChannels)
            ++ samples (probeTrace ns c w con sessionCtx PChannelBalance)
            ++ samples (probeTrace ns c w con sessionCtx PForwardingHistory)
            ++ samples (probeTrace ns c w con sessionCtx PNetworkInfo)),
           (samples (probeTrace ns c w con sessionCtx PListPeers)
            ++ [lndUp ns F64.one]).
    rewrite app_nil_r. by rewrite <- !app_assoc.
  - intros channel. rewrite (samplesOf_sendChannel ns c channel Hc).
    unfold channelSamples. fold (realCapacity channel).
    split; [done|]. split; [done|]. split; [done|]. split; [|split].
    + intros Hcap Hfee. rewrite (realCapacity_gtb channel Hcap Hfee).
      by destruct (0 <? _).
    + intros Hcap Hfee Hloc. unfold ratioSample, sample, realCapacity. cbn [value].
      rewrite Hcap, Hfee, Hloc. split; [|by vm_compute].
      replace (F64.gtb (F64.sub (F64.of_Z 100) (F64.of_Z 10)) F64.zero) with true
        by (by vm_compute).
      done.
    + intros Hcap Hfee. unfold realCapacity. rewrite Hcap, Hfee.
      replace (F64.gtb (F64.sub (F64.of_Z 10) (F64.of_Z 10)) F64.zero) with false
        by (by vm_compute).
      done.
Qed.

Lemma balance_ratio_guard_witness :
  metrics mainExporter = catalog "lnd" /\
  mutexLocked mainExporter = false /\
  connectResult (demoWorld [channelOf 100 10 45]) mainExporter = Ok 7%nat /\
  rpcGetInfo (demoWorld [channelOf 100 10 45]) 7%nat sessionCtx = Ok demoInfo /\
  rpcListChannels (demoWorld [channelOf 100 10 45]) 7%nat sessionCtx
  = Ok {| lnrpc.Channels := [channelOf 100 10 45] |} /\
  Z.abs (lnrpc.Capacity (channelOf 100 10 45)) <= 2 ^ 53 /\
  Z.abs (lnrpc.CommitFee (channelOf 100 10 45)) <= 2 ^ 53 /\
  samplesOf (sendChannel (channelOf 100 10 45)) mainExporter
  = [ratioSample "lnd" (channelOf 100 10 45); balanceSample "lnd" (channelOf 100 10 45)] /\
  value (ratioSample "lnd" (channelOf 100 10 45)) = F64.pow2 4503599627370496 (-53).
Proof.
  split; [reflexivity|]. split; [reflexivity|]. split; [reflexivity|].
  split; [reflexivity|]. split; [reflexivity|].
  split; [by vm_compute|]. split; [by vm_compute|].
  apply (proj2 (balance_ratio_guard "lnd" mainExporter
                  (demoWorld [channelOf 100 10 45]) 7%nat demoInfo
                  {| lnrpc.Channels := [channelOf 100 10 45] |}
                  eq_refl eq_refl eq_refl eq_refl eq_refl)
               (channelOf 100 10 45));
    reflexivity.
Defined.

(** C4, counterexample: a channel whose capacity exceeds its commit fee by
    one, both above 2^53. The difference is positive, float64 rounds both to
    2^53, and the scrape sends the balance sample and no ratio sample. *)
Lemma balance_ratio_missing_above_2_53 :
  0 < lnrpc.Capacity hugeChannel - lnrpc.CommitFee hugeChannel /\
  Forall (fun m => fqName (desc m) <> "lnd_channel_balance_percentage")
    (emitted (demoWorld [hugeChannel]) mainExporter) /\
  samplesOf (sendChannel hugeChannel) mainExporter
  = [balanceSample "lnd" hugeChannel].
Proof.
  split; [done|]. split.
  - apply (bool_decide_unpack _). by vm_compute.
  - by vm_compute.
Qed.

(** * Part IV: further properties of the collector and of [main] *)

(** ** What [getGrpcClient] does *)

(** X1. [getGrpcClient] ends with a connection or an error (it does not
    panic, return early or block) and leaves the exporter and the deferred
    calls alone. It dials only when the TLS certificate, the macaroon file,
    its decoding and the credential have all succeeded, with these
    credentials and the receive limit of 50 MiB; afterwards one more
    connection is open exactly when it returns one, and it has logged
    nothing in that case. *)
Theorem getGrpcClient_opens_only_on_success w s :
  exists r evs,
    (connect w s).2 = inl r /\
    self (connect w s).1 = self s /\
    deferred (connect w s).1 = deferred s /\
    trace (connect w s).1 = trace s ++ evs /\
    (EvDial (rpcAddr (self s)) ∈ evs <->
     exists tlsCreds bytes mac cred,
       NewClientTLSFromFile w (tlsCertPath (self s)) "" = Ok tlsCreds /\
       ReadFile w (macaroonPath (self s)) = Ok bytes /\
       UnmarshalBinary w bytes = Ok mac /\
       NewMacaroonCredential w mac = Ok cred) /\
    match r with
    | Err _ => openConns (connect w s).1 = openConns s
    | Ok con =>
        openConns (connect w s).1 = con :: openConns s /\
        evs = [EvDial (rpcAddr (self s))] /\
        exists tlsCreds bytes mac cred,
          NewClientTLSFromFile w (tlsCertPath (self s)) "" = Ok tlsCreds /\
          ReadFile w (macaroonPath (self s)) = Ok bytes /\
          UnmarshalBinary w bytes = Ok mac /\
          NewMacaroonCredential w mac = Ok cred /\
          Dial w (rpcAddr (self s))
            [ WithTransportCredentials tlsCreds;
              WithPerRPCCredentials cred;
              WithDefaultCallOptions 52428800 ] = Ok con
    end.
Proof.
  unfold connect. rewrite getGrpcClient_run. cbn [fst snd self deferred trace openConns].
  exists (connectResult w (self s)), (connectTrace w (self s)).
  split; [done|]. split; [done|]. split; [done|]. split; [done|].
  unfold connectResult, connectTrace.
  destruct (NewClientTLSFromFile w (tlsCertPath (self s)) "") as [tlsCreds|e1].
  2:{ split; [|done]. split.
      - intros H. apply list_elem_of_singleton in H. discriminate H.
      - intros (? & ? & ? & ? & [=] & _). }
  destruct (ReadFile w (macaroonPath (self s))) as [bytes|e2].
  2:{ split; [|done]. split.
      - intros H. apply list_elem_of_singleton in H. discriminate H.
      - intros (? & ? & ? & ? & _ & [=] & _). }
  destruct (UnmarshalBinary w bytes) as [mac|e3] eqn:E3.
  2:{ split; [|done]. split.
      - intros H. apply list_elem_of_singleton in H. discriminate H.
      - intros (? & b & ? & ? & _ & [= <-] & H & _). congruence. }
  destruct (NewMacaroonCredential w mac) as [cred|e4] eqn:E4.
  2:{ split; [|done]. split.
      - intros H. by apply elem_of_nil in H.
      - intros (? & b & m & ? & _ & [= <-] & H3 & H4). congruence. }
  split.
  { split; [by exists tlsCreds, bytes, mac, cred|]. intros _. apply elem_of_cons. by left. }
  destruct (Dial w (rpcAddr (self s)) _) as [con|e5] eqn:E5; [|done].
  split; [done|]. split; [done|]. by exists tlsCreds, bytes, mac, cred.
Qed.

(** ** What a scrape logs *)

Lemma logs_app t1 t2 : logs (t1 ++ t2) = logs t1 ++ logs t2.
Proof. apply omap_app. Qed.

Lemma logs_sends ms : logs (EvSend <$> ms) = [].
Proof. by induction ms. Qed.

Lemma logs_cons_rpc m con ctx t : logs (EvRpc m con ctx :: t) = logs t.
Proof. done. Qed.

Lemma logs_flat_map {A} (f : A -> list Event) (l : list A) :
  logs (flat_map f l) = flat_map (fun x => logs (f x)) l.
Proof.
  induction l as [|x l IH]; simpl; [done|]. by rewrite logs_app, IH.
Qed.

Lemma logsOf_runProbe ns c w con ctx p :
  metrics c = catalog ns ->
  logsOf (runProbe w con ctx p) c = logs (probeTrace ns c w con ctx p).
Proof.
  intros Hc. unfold logsOf.
  by rewrite (runProbe_steps ns w con ctx p (fresh c) Hc).
Qed.

Lemma logs_answered {A} (r : result A) f lp :
  logs (answered r f lp)
  = match r, lp with
    | Err err, Some prefix => [prefix +:+ err]
    | _, _ => []
    end.
Proof.
  destruct r as [a|err]; simpl; [apply logs_sends|]. by destruct lp.
Qed.

Lemma logs_connectTrace_ok w c con :
  connectResult w c = Ok con -> logs (connectTrace w c) = [].
Proof.
  unfold connectResult, connectTrace.
  repeat match goal with |- context [match ?r with Ok _ => _ | Err _ => _ end] =>
    destruct r; try done end.
Qed.

(** X2. Which failures a scrape logs. A failed connection is logged last
    with the error that [getGrpcClient] returned, a failed GetInfo is the
    only line of its scrape, and in a session the log is that of the probes
    in order: nothing for a probe that is answered or switched off, one
    line ending in the error for a probe that fails, except that a failing
    GetNetworkInfo is not logged at all. *)
Theorem failures_are_logged ns c w :
  metrics c = catalog ns ->
  mutexLocked c = false ->
  match connectResult w c with
  | Err err =>
      last (logs (scrapeEvents w c)) = Some ("getGrpcClient() err: " +:+ err)
  | Ok con =>
      match rpcGetInfo w con sessionCtx with
      | Err err => logs (scrapeEvents w c) = ["rpcClient.GetInfo() err: " +:+ err]
      | Ok _ =>
          logs (scrapeEvents w c)
          = flat_map (fun p => logsOf (runProbe w con sessionCtx p) c) probeOrder /\
          forall p,
            (probeError w con sessionCtx p = None ->
             logsOf (runProbe w con sessionCtx p) c = []) /\
            (probeEnabled c p = false ->
             logsOf (runProbe w con sessionCtx p) c = []) /\
            (p = PNetworkInfo -> logsOf (runProbe w con sessionCtx p) c = []) /\
            (forall err,
               probeError w con sessionCtx p = Some err ->
               probeEnabled c p = true ->
               p <> PNetworkInfo ->
               exists prefix,
                 logsOf (runProbe w con sessionCtx p) c = [prefix +:+ err])
      end
  end.
Proof.
  intros Hc Hl. unfold scrapeEvents. rewrite (Collect_fresh ns c w Hc Hl).
  cbn [fst trace]. unfold collectTrace.
  destruct (connectResult w c) as [con|err] eqn:Econ.
  - rewrite logs_app, logs_app, logs_app.
    rewrite (logs_connectTrace_ok w c con) by done.
    unfold sessionTrace. rewrite logs_cons_rpc.
    destruct (rpcGetInfo w con sessionCtx) as [stats|err]; [|done].
    rewrite logs_app, logs_app, logs_sends, logs_flat_map.
    cbn [logs omap list_omap app]. rewrite !app_nil_r. split.
    + apply flat_map_ext. intros p. by rewrite (logsOf_runProbe ns).
    + intros p. rewrite (logsOf_runProbe ns) by done.
      unfold probeTrace, probeError.
      destruct (probeEnabled c p) eqn:En.
      2:{ repeat split; try done. }
      rewrite logs_cons_rpc.
      destruct p; rewrite logs_answered;
        match goal with |- context [match ?r with Ok _ => _ | Err _ => _ end] =>
          destruct r as [a|err] end;
        (split; [done|]); (split; [done|]); (split; [done|]);
        intros err' [= <-] _ Hne; try done; by eexists.
  - rewrite logs_app, logs_app. cbn [logs omap list_omap app].
    apply last_snoc.
Qed.

Lemma failures_are_logged_witness :
  metrics mainExporter = catalog "lnd" /\
  mutexLocked mainExporter = false /\
  last (logs (scrapeEvents offlineWorld mainExporter))
  = Some "getGrpcClient() err: open: no such file or directory".
Proof.
  split; [reflexivity|]. split; [reflexivity|].
  exact (failures_are_logged "lnd" mainExporter offlineWorld eq_refl eq_refl).
Defined.

(** ** How a scrape is put together *)

(** X3. In a session, the samples of a scrape are those of the node status,
    then those that each probe sends on its own, in the order of the
    probes, then liveness 1; and what a probe sends depends on the world
    only through the answer to its own RPC. *)
Theorem scrape_is_composed ns c w con stats :
  metrics c = catalog ns ->
  mutexLocked c = false ->
  connectResult w c = Ok con ->
  rpcGetInfo w con sessionCtx = Ok stats ->
  emitted w c
  = samplesOf (sendInfo stats) c
    ++ flat_map (fun p => samplesOf (runProbe w con sessionCtx p) c) probeOrder
    ++ [lndUp ns F64.one] /\
  forall w' p,
    sameAnswer w w' con sessionCtx p ->
    samplesOf (runProbe w con sessionCtx p) c
    = samplesOf (runProbe w' con sessionCtx p) c.
Proof.
  intros Hc Hl Hcon Hinfo. split.
  - rewrite (emitted_eq ns c w Hc Hl), Hcon, Hinfo.
    rewrite (samplesOf_sendInfo ns c stats Hc). do 2 f_equal.
    apply flat_map_ext. intros p. by rewrite (samplesOf_runProbe ns).
  - intros w' p Hsame. rewrite !(samplesOf_runProbe ns) by done.
    unfold probeTrace. destruct (probeEnabled c p); [|done].
    destruct p; cbn [sameAnswer] in Hsame; by rewrite Hsame.
Qed.

Lemma scrape_is_composed_witness :
  metrics mainExporter = catalog "lnd" /\
  mutexLocked mainExporter = false /\
  connectResult (demoWorld []) mainExporter = Ok 7%nat /\
  rpcGetInfo (demoWorld []) 7%nat sessionCtx = Ok demoInfo /\
  emitted (demoWorld []) mainExporter
  = samplesOf (sendInfo demoInfo) mainExporter
    ++ flat_map (fun p => samplesOf (runProbe (demoWorld []) 7%nat sessionCtx p)
                            mainExporter) probeOrder
    ++ [lndUp "lnd" F64.one].
Proof.
  split; [reflexivity|]. split; [reflexivity|]. split; [reflexivity|].
  split; [reflexivity|].
  apply (scrape_is_composed "lnd" mainExporter (demoWorld []) 7%nat demoInfo);
    reflexivity.
Defined.

(** X4. A scrape issues each RPC at most once and in the fixed order of
    [Collect] (no call is retried): none when the connection fails, GetInfo
    alone when GetInfo fails, and otherwise GetInfo and every enabled probe,
    whatever the probes answer. *)
Theorem rpcs_once_in_order ns c w :
  metrics c = catalog ns ->
  mutexLocked c = false ->
  NoDup (issued w c) /\
  sublist (issued w c) allRpcs /\
  match connectResult w c with
  | Err _ => issued w c = []
  | Ok con =>
      match rpcGetInfo w con sessionCtx with
      | Err _ => issued w c = [GetInfo]
      | Ok _ =>
          issued w c = GetInfo :: (probeMethod <$> filter (probeEnabled c) probeOrder)
      end
  end.
Proof.
  intros Hc Hl. rewrite (issued_eq ns c w Hc Hl).
  destruct (connectResult w c) as [con|err].
  2:{ split; [constructor|]. split; [apply sublist_nil_l | done]. }
  destruct (rpcGetInfo w con sessionCtx) as [stats|err].
  2:{ split; [apply NoDup_singleton|]. split; [|done].
      apply sublist_skip, sublist_nil_l. }
  cbn [flat_map probeOrder probeEnabled probeMethod].
  unfold allRpcs.
  destruct (exportPaymentMetrics c) eqn:E1, (exportPeerMetrics c) eqn:E2;
    cbn [app]; (split; [apply (bool_decide_unpack _); by vm_compute|]);
    (split; [repeat first [apply sublist_nil | apply sublist_skip | apply sublist_cons]|]);
    unfold probeOrder; rewrite !filter_cons, filter_nil;
    cbn [probeEnabled]; rewrite E1, E2; reflexivity.
Qed.

Lemma rpcs_once_in_order_witness :
  metrics mainExporter = catalog "lnd" /\
  mutexLocked mainExporter = false /\
  NoDup (issued (demoWorld []) mainExporter) /\
  sublist (issued (demoWorld []) mainExporter) allRpcs.
Proof.
  split; [reflexivity|]. split; [reflexivity|].
  pose proof (rpcs_once_in_order "lnd" mainExporter (demoWorld []) eq_refl eq_refl)
    as (H1 & H2 & _).
  by split.
Defined.

(** ** [Describe] and [Collect] agree *)

(** X5. Every sample that a scrape sends is of a descriptor that [Describe]
    sends, whatever the order of [Describe]: the collector never sends a
    sample of a metric that it has not described. *)
Theorem collected_is_described ns c w m out :
  metrics c = catalog ns ->
  mutexLocked c = false ->
  m ∈ emitted w c ->
  Describe c out ->
  desc m ∈ out.
Proof.
  intros Hc Hl Hm Hd.
  destruct (emitted_desc ns c w m Hc Hl Hm) as (key & Hk & ->).
  rewrite (Describe_catalog ns c out Hc Hd), catalogTable_descs.
  by apply list_elem_of_fmap_2.
Qed.

Lemma collected_is_described_witness :
  metrics mainExporter = catalog "lnd" /\
  mutexLocked mainExporter = false /\
  lndUp "lnd" F64.zero ∈ emitted offlineWorld mainExporter /\
  Describe mainExporter (DescribeIn (map_to_list (metrics mainExporter))) /\
  desc (lndUp "lnd" F64.zero) ∈ DescribeIn (map_to_list (metrics mainExporter)).
Proof.
  assert (lndUp "lnd" F64.zero ∈ emitted offlineWorld mainExporter) as Hm.
  { apply list_elem_of_singleton. reflexivity. }
  assert (Describe mainExporter (DescribeIn (map_to_list (metrics mainExporter))))
    as Hd by (by eexists).
  split; [reflexivity|]. split; [reflexivity|]. split; [exact Hm|].
  split; [exact Hd|].
  exact (collected_is_described "lnd" mainExporter offlineWorld _ _
           eq_refl eq_refl Hm Hd).
Defined.

(** X6. For every namespace, the descriptors that [Describe] sends have
    pairwise different names, and their names are, up to the order, the
    twenty metric names of the table of [NewLightningExporter], each after
    the namespace and an underscore. *)
Theorem described_names_are_distinct ns c out :
  metrics c = catalog ns ->
  Describe c out ->
  NoDup (fqName <$> out) /\
  fqName <$> out ≡ₚ (fun name => ns +:+ "_" +:+ name) <$> metricNames.
Proof.
  intros Hc Hd. pose proof (Describe_catalog ns c out Hc Hd) as Hp.
  rewrite Hp, catalogTable_descs. split.
  - rewrite <- list_fmap_compose.
    apply NoDup_fmap_2_strong; [|apply catalogKeys_NoDup].
    intros k1 k2 H1 H2 Heq. cbn in Heq.
    rewrite !descOf_fqName in Heq by done. apply append_inv_head in Heq.
    by apply (NoDup_fmap_inj_on metricSuffix catalogKeys);
      auto using metricSuffix_NoDup.
  - rewrite <- catalogTable_descs. vm_compute. reflexivity.
Qed.

Lemma described_names_are_distinct_witness :
  metrics mainExporter = catalog "lnd" /\
  Describe mainExporter (DescribeIn (map_to_list (metrics mainExporter))) /\
  NoDup (fqName <$> DescribeIn (map_to_list (metrics mainExporter))) /\
  fqName <$> DescribeIn (map_to_list (metrics mainExporter))
  ≡ₚ (fun name => "lnd" +:+ "_" +:+ name) <$> metricNames.
Proof.
  assert (Describe mainExporter (DescribeIn (map_to_list (metrics mainExporter))))
    as Hd by (by eexists).
  split; [reflexivity|]. split; [exact Hd|].
  exact (described_names_are_distinct "lnd" mainExporter _ eq_refl Hd).
Defined.

(** ** The time series of a scrape *)

Lemma fqName_descOf_inj ns k1 k2 :
  k1 ∈ catalogKeys -> k2 ∈ catalogKeys ->
  fqName (descOf ns k1) = fqName (descOf ns k2) -> k1 = k2.
Proof.
  intros H1 H2 Hd. rewrite !descOf_fqName in Hd by done.
  apply append_inv_head in Hd.
  by apply (NoDup_fmap_inj_on metricSuffix catalogKeys);
    auto using metricSuffix_NoDup.
Qed.

Lemma seriesOf_sample_inj ns k1 k2 vt1 vt2 v1 v2 l1 l2 :
  k1 ∈ catalogKeys -> k2 ∈ catalogKeys ->
  seriesOf (sample ns k1 vt1 v1 l1) = seriesOf (sample ns k2 vt2 v2 l2) ->
  k1 = k2 /\ l1 = l2.
Proof.
  intros H1 H2 H.
  pose proof (f_equal fst H) as Hn. pose proof (f_equal snd H) as Hl.
  change (fqName (descOf ns k1) = fqName (descOf ns k2)) in Hn.
  change (l1 = l2) in Hl.
  split; [|exact Hl]. exact (fqName_descOf_inj ns k1 k2 H1 H2 Hn).
Qed.

Lemma seriesOf_keys ns (K1 K2 : list string) m1 m2 :
  (exists key, key ∈ K1 /\ desc m1 = descOf ns key) ->
  (exists key, key ∈ K2 /\ desc m2 = descOf ns key) ->
  (forall key, key ∈ K1 -> key ∈ catalogKeys) ->
  (forall key, key ∈ K2 -> key ∈ catalogKeys) ->
  seriesOf m1 = seriesOf m2 ->
  exists key, key ∈ K1 /\ key ∈ K2.
Proof.
  intros (k1 & Hk1 & Hd1) (k2 & Hk2 & Hd2) HK1 HK2 H.
  pose proof (f_equal fst H) as Hn.
  change (fqName (desc m1) = fqName (desc m2)) in Hn.
  rewrite Hd1, Hd2 in Hn.
  pose proof (fqName_descOf_inj ns k1 k2 (HK1 k1 Hk1) (HK2 k2 Hk2) Hn) as <-.
  exists k1. by split.
Qed.

Lemma NoDup_series_flat_map {A B} (f : A -> list Metric) (g : A -> B) (l : list A) :
  NoDup (g <$> l) ->
  (forall a, a ∈ l -> NoDup (seriesOf <$> f a)) ->
  (forall a b m1 m2,
     m1 ∈ f a -> m2 ∈ f b -> seriesOf m1 = seriesOf m2 -> g a = g b) ->
  NoDup (seriesOf <$> flat_map f l).
Proof.
  intros Hnd Hf Hg. induction l as [|a l IH]; [constructor|].
  cbn [flat_map]. rewrite fmap_app. cbn [fmap list_fmap] in Hnd.
  apply NoDup_cons in Hnd as [Ha Hnd].
  apply NoDup_app. split; [apply Hf; left|].
  split; [|apply IH; [done|intros; apply Hf; by right]].
  intros x (m1 & -> & Hm1)%list_elem_of_fmap (m2 & Heq & Hm2)%list_elem_of_fmap.
  apply list_elem_of_In, in_flat_map in Hm2 as (b & Hb & Hm2).
  apply list_elem_of_In in Hb, Hm2.
  apply Ha. rewrite (Hg a b m1 m2 Hm1 Hm2 Heq). by apply list_elem_of_fmap_2.
Qed.

(** The other way round: items that share what [g] gives send one series
    twice. *)
Lemma NoDup_series_flat_map_inv {A B} (f : A -> list Metric) (g : A -> B)
    (pick : A -> Metric) (l : list A) :
  (forall a, pick a ∈ f a) ->
  (forall a b, g a = g b -> seriesOf (pick a) = seriesOf (pick b)) ->
  NoDup (seriesOf <$> flat_map f l) ->
  NoDup (g <$> l).
Proof.
  intros Hp Hg. induction l as [|a l IH]; [constructor|].
  cbn [flat_map]. rewrite fmap_app. intros (Ha & Hx & Hl)%NoDup_app.
  cbn [fmap list_fmap]. apply NoDup_cons. split; [|by apply IH].
  intros (b & Heq & Hb)%list_elem_of_fmap.
  apply (Hx (seriesOf (pick a))); [apply list_elem_of_fmap_2, Hp|].
  rewrite (Hg a b Heq). apply list_elem_of_fmap_2.
  apply list_elem_of_In, in_flat_map. exists b.
  split; apply list_elem_of_In; [done|apply Hp].
Qed.

Lemma NoDup_series_part {A} (f : A -> list Metric) (l : list A) a :
  a ∈ l -> NoDup (seriesOf <$> flat_map f l) -> NoDup (seriesOf <$> f a).
Proof.
  induction l as [|b l IH]; [by intros ?%elem_of_nil|].
  cbn [flat_map]. rewrite fmap_app. intros Ha (Hb & _ & Hl)%NoDup_app.
  apply elem_of_cons in Ha as [->|Ha]; auto.
Qed.


Ltac series_notin H :=
  let Hk := fresh "Hk" in
  let Hl := fresh "Hl" in
  repeat (apply elem_of_cons in H as [H|H];
          [apply seriesOf_sample_inj in H as [Hk Hl];
           [first [discriminate Hk | discriminate Hl] | in_catalog..]|]);
  by apply elem_of_nil in H.

Ltac series_distinct :=
  cbn [fmap list_fmap app];
  repeat (apply NoDup_cons; split;
          [let H := fresh "H" in intros H; series_notin H|]);
  apply NoDup_nil_2.

Lemma NoDup_series_info ns stats : NoDup (seriesOf <$> infoSamples ns stats).
Proof. unfold infoSamples. series_distinct. Qed.

Lemma labelValues_channelSamples ns channel m :
  m ∈ channelSamples ns channel -> labelValues m = channelLabels channel.
Proof.
  unfold channelSamples. rewrite elem_of_app.
  destruct (F64.gtb _ _);
    rewrite ?list_elem_of_singleton, ?elem_of_nil; by intros [?|?]; subst.
Qed.

Lemma labelValues_peerSamples ns peer m :
  m ∈ peerSamples ns peer -> head (labelValues m) = Some (lnrpc.Address peer).
Proof.
  unfold peerSamples. rewrite !elem_of_cons, elem_of_nil.
  by intros [?|[?|[?|?]]]; subst.
Qed.

Lemma seriesOf_labelValues m1 m2 :
  seriesOf m1 = seriesOf m2 -> labelValues m1 = labelValues m2.
Proof. intros H. exact (f_equal snd H). Qed.

(** The samples of one probe are of different series when its items are. *)
Lemma NoDup_series_probe ns c w con ctx p :
  (forall r, exportPaymentMetrics c = true ->
     rpcForwardingHistory w con ctx = Ok r ->
     NoDup (forwardingLabels <$> lnrpc.ForwardingEvents r)) ->
  (forall r, rpcListChannels w con ctx = Ok r ->
     NoDup (channelLabels <$> lnrpc.Channels r)) ->
  (forall r, exportPeerMetrics c = true ->
     rpcListPeers w con ctx = Ok r ->
     NoDup (lnrpc.Address <$> lnrpc.Peers r)) ->
  NoDup (seriesOf <$> samples (probeTrace ns c w con ctx p)).
Proof.
  intros Hf Hc Hp. unfold probeTrace.
  destruct (probeEnabled c p) eqn:En; [|constructor].
  rewrite samples_cons_rpc.
  destruct p; rewrite samples_answered;
    match goal with |- context [match ?r with Ok _ => _ | Err _ => _ end] =>
      destruct r as [a|err] eqn:Er; [|constructor] end.
  - unfold walletBalanceSamples. series_distinct.
  - unfold pendingChannelsSamples. series_distinct.
  - unfold channelBalanceSamples. series_distinct.
  - apply (NoDup_series_flat_map _ forwardingLabels); [by apply Hf| |].
    + intros f _. unfold forwardingEventSamples. series_distinct.
    + intros f1 f2 m1 m2 ->%list_elem_of_singleton ->%list_elem_of_singleton.
      apply seriesOf_labelValues.
  - unfold networkInfoSamples. series_distinct.
  - apply (NoDup_series_flat_map _ channelLabels); [by apply Hc| |].
    + intros ch _. unfold channelSamples, ratioSample, balanceSample.
      destruct (F64.gtb _ _); series_distinct.
    + intros c1 c2 m1 m2 H1 H2 Heq.
      rewrite <- (labelValues_channelSamples ns c1 m1 H1).
      rewrite <- (labelValues_channelSamples ns c2 m2 H2).
      by apply seriesOf_labelValues.
  - apply (NoDup_series_flat_map _ lnrpc.Address); [by apply Hp| |].
    + intros peer _. unfold peerSamples. series_distinct.
    + intros p1 p2 m1 m2 H1 H2 Heq.
      apply (inj Some).
      rewrite <- (labelValues_peerSamples ns p1 m1 H1).
      rewrite <- (labelValues_peerSamples ns p2 m2 H2).
      by rewrite (seriesOf_labelValues m1 m2 Heq).
Qed.

Lemma lnd_up_not_infoKeys : "lnd_up" ∉ infoKeys.
Proof. apply (bool_decide_unpack _). by vm_compute. Qed.

Lemma lnd_up_not_probeKeys p : "lnd_up" ∉ probeKeys p.
Proof. destruct p; apply (bool_decide_unpack _); by vm_compute. Qed.

Lemma keyed_lndUp ns v :
  exists key, key ∈ ["lnd_up"] /\ desc (lndUp ns v) = descOf ns key.
Proof. exists "lnd_up". split; [by left | done]. Qed.

Lemma lnd_up_only key : key ∈ ["lnd_up"] -> key ∈ catalogKeys.
Proof. intros ->%list_elem_of_singleton. apply lnd_up_catalog. Qed.

Lemma in_probes_fromProbe ns c w con ctx (l : list Probe) m :
  m ∈ flat_map (fun p => samples (probeTrace ns c w con ctx p)) l ->
  exists p, fromProbe ns p m.
Proof.
  intros (p & _ & Hm)%list_elem_of_In%in_flat_map. exists p.
  apply list_elem_of_In in Hm.
  pose proof (fromProbe_samples ns c w con ctx p) as HF.
  rewrite Forall_forall in HF. by apply HF.
Qed.

(** X7. In a session, the samples of a scrape are of pairwise different time
    series (metric name and label values) exactly when the items of the
    answers are: the forwarding events differ in their labels, the open
    channels differ in their labels, and the peers differ in their address
    (the two byte counters of a peer carry its address alone). The first
    and the last are asked only of a probe that is enabled. *)
Theorem series_are_distinct ns c w con stats :
  metrics c = catalog ns ->
  mutexLocked c = false ->
  connectResult w c = Ok con ->
  rpcGetInfo w con sessionCtx = Ok stats ->
  NoDup (seriesOf <$> emitted w c) <->
  (forall r, exportPaymentMetrics c = true ->
     rpcForwardingHistory w con sessionCtx = Ok r ->
     NoDup (forwardingLabels <$> lnrpc.ForwardingEvents r)) /\
  (forall r, rpcListChannels w con sessionCtx = Ok r ->
     NoDup (channelLabels <$> lnrpc.Channels r)) /\
  (forall r, exportPeerMetrics c = true ->
     rpcListPeers w con sessionCtx = Ok r ->
     NoDup (lnrpc.Address <$> lnrpc.Peers r)).
Proof.
  intros Hc Hl Hcon Hinfo.
  rewrite (emitted_eq ns c w Hc Hl), Hcon, Hinfo.
  set (F := fun p => samples (probeTrace ns c w con sessionCtx p)).
  rewrite !fmap_app. split.
  - intros (_ & _ & (Hprobes & _ & _)%NoDup_app)%NoDup_app.
    assert (forall p, NoDup (seriesOf <$> F p)) as Hpart.
    { intros p. apply (NoDup_series_part F probeOrder); [|done].
      destruct p; apply (bool_decide_unpack _); by vm_compute. }
    split; [|split].
    + intros r En Er. pose proof (Hpart PForwardingHistory) as H.
      unfold F, probeTrace in H. cbn [probeEnabled] in H.
      rewrite En, samples_cons_rpc, samples_answered, Er in H.
      revert H.
      apply (NoDup_series_flat_map_inv _ forwardingLabels
               (fun f => sample ns "forwarding_history_info" GaugeValue F64.one
                           (forwardingLabels f))).
      * intros f. by left.
      * intros f1 f2 Heq. unfold seriesOf, sample. cbn [desc labelValues].
        by rewrite Heq.
    + intros r Er. pose proof (Hpart PListChannels) as H.
      unfold F, probeTrace in H. cbn [probeEnabled] in H.
      rewrite samples_cons_rpc, samples_answered, Er in H.
      revert H.
      apply (NoDup_series_flat_map_inv _ channelLabels (balanceSample ns)).
      * intros ch. unfold channelSamples. apply elem_of_app. right. by left.
      * intros c1 c2 Heq. unfold seriesOf, balanceSample, sample.
        cbn [desc labelValues]. by rewrite Heq.
    + intros r En Er. pose proof (Hpart PListPeers) as H.
      unfold F, probeTrace in H. cbn [probeEnabled] in H.
      rewrite En, samples_cons_rpc, samples_answered, Er in H.
      revert H.
      apply (NoDup_series_flat_map_inv _ lnrpc.Address
               (fun peer => sample ns "peer_info_received_bytes_total" CounterValue
                              (F64.of_Z (lnrpc.BytesRecv peer))
                              [lnrpc.Address peer])).
      * intros peer. right. by left.
      * intros p1 p2 Heq. unfold seriesOf, sample. cbn [desc labelValues].
        by rewrite Heq.
  - intros (Hf & Hch & Hp).
    assert (forall m, m ∈ infoSamples ns stats -> fromInfo ns m) as Hinf.
    { apply Forall_forall, fromInfo_samples. }
    apply NoDup_app. split; [apply NoDup_series_info|]. split.
    + intros x (m1 & -> & Hm1)%list_elem_of_fmap.
      rewrite <- fmap_app.
      intros (m2 & Heq & [Hm2|Hm2]%elem_of_app)%list_elem_of_fmap.
      * destruct (in_probes_fromProbe ns c w con sessionCtx _ m2 Hm2) as [p Hfp].
        destruct (seriesOf_keys ns infoKeys (probeKeys p) m1 m2
                    (Hinf m1 Hm1) Hfp infoKeys_catalog (probeKeys_catalog p) Heq)
          as (key & Hk1 & Hk2).
        exact (infoKeys_probeKeys p key Hk1 Hk2).
      * apply list_elem_of_singleton in Hm2 as ->.
        destruct (seriesOf_keys ns infoKeys ["lnd_up"] m1 _
                    (Hinf m1 Hm1) (keyed_lndUp ns F64.one)
                    infoKeys_catalog lnd_up_only Heq)
          as (key & Hk1 & ->%list_elem_of_singleton).
        exact (lnd_up_not_infoKeys Hk1).
    + apply NoDup_app. split; [|split].
      * apply (NoDup_series_flat_map F id).
        -- rewrite list_fmap_id. apply (bool_decide_unpack _). by vm_compute.
        -- intros p _. by apply NoDup_series_probe.
        -- intros p q m1 m2 Hm1 Hm2 Heq.
           pose proof (fromProbe_samples ns c w con sessionCtx p) as HF1.
           pose proof (fromProbe_samples ns c w con sessionCtx q) as HF2.
           rewrite Forall_forall in HF1. rewrite Forall_forall in HF2.
           destruct (seriesOf_keys ns (probeKeys p) (probeKeys q) m1 m2
                       (HF1 m1 Hm1) (HF2 m2 Hm2)
                       (probeKeys_catalog p) (probeKeys_catalog q) Heq)
             as (key & Hk1 & Hk2).
           exact (probeKeys_disjoint p q key Hk1 Hk2).
      * intros x (m1 & -> & Hm1)%list_elem_of_fmap.
        intros (m2 & Heq & ->%list_elem_of_singleton)%list_elem_of_fmap.
        destruct (in_probes_fromProbe ns c w con sessionCtx _ m1 Hm1) as [p Hfp].
        destruct (seriesOf_keys ns (probeKeys p) ["lnd_up"] m1 _
                    Hfp (keyed_lndUp ns F64.one)
                    (probeKeys_catalog p) lnd_up_only Heq)
          as (key & Hk1 & ->%list_elem_of_singleton).
        exact (lnd_up_not_probeKeys p Hk1).
      * apply NoDup_singleton.
Qed.

Lemma series_are_distinct_witness :
  metrics mainExporter = catalog "lnd" /\
  mutexLocked mainExporter = false /\
  connectResult (demoWorld []) mainExporter = Ok 7%nat /\
  rpcGetInfo (demoWorld []) 7%nat sessionCtx = Ok demoInfo /\
  (NoDup (seriesOf <$> emitted (demoWorld []) mainExporter) <->
   (forall r, exportPaymentMetrics mainExporter = true ->
      rpcForwardingHistory (demoWorld []) 7%nat sessionCtx = Ok r ->
      NoDup (forwardingLabels <$> lnrpc.ForwardingEvents r)) /\
   (forall r, rpcListChannels (demoWorld []) 7%nat sessionCtx = Ok r ->
      NoDup (channelLabels <$> lnrpc.Channels r)) /\
   (forall r, exportPeerMetrics mainExporter = true ->
      rpcListPeers (demoWorld []) 7%nat sessionCtx = Ok r ->
      NoDup (lnrpc.Address <$> lnrpc.Peers r))).
Proof.
  split; [reflexivity|]. split; [reflexivity|]. split; [reflexivity|].
  split; [reflexivity|].
  apply (series_are_distinct "lnd" mainExporter (demoWorld []) 7%nat demoInfo);
    reflexivity.
Defined.

(** ** Counters and gauges *)

Ltac kinded_tac :=
  repeat constructor;
  eexists; (split; [|split; reflexivity]); in_catalog.

Lemma kinded_probe ns c w con ctx p :
  Forall (kinded ns) (samples (probeTrace ns c w con ctx p)).
Proof.
  unfold probeTrace. destruct (probeEnabled c p); [|by constructor].
  rewrite samples_cons_rpc.
  destruct p; rewrite samples_answered;
    match goal with |- context [match ?r with Ok _ => _ | Err _ => _ end] =>
      destruct r as [a|err]; [|by constructor] end.
  - kinded_tac.
  - kinded_tac.
  - kinded_tac.
  - apply Forall_flat_map, Forall_forall. intros f _. kinded_tac.
  - kinded_tac.
  - apply Forall_flat_map, Forall_forall. intros ch _.
    unfold channelSamples. destruct (F64.gtb _ _); cbn [app]; kinded_tac.
  - apply Forall_flat_map, Forall_forall. intros peer _. kinded_tac.
Qed.

Lemma kinded_emitted ns c w :
  metrics c = catalog ns -> mutexLocked c = false ->
  Forall (kinded ns) (emitted w c).
Proof.
  intros Hc Hl. rewrite (emitted_eq ns c w Hc Hl).
  assert (forall v, kinded ns (lndUp ns v)) as Hup.
  { intros v. exists "lnd_up". split; [apply lnd_up_catalog|]. by split. }
  destruct (connectResult w c) as [con|err]; [|by repeat constructor].
  destruct (rpcGetInfo w con sessionCtx) as [stats|err]; [|by repeat constructor].
  apply Forall_app. split; [unfold infoSamples; kinded_tac|].
  apply Forall_app. split; [|by repeat constructor].
  induction probeOrder as [|p l IH]; [constructor|].
  cbn [flat_map]. apply Forall_app. split; [apply kinded_probe | exact IH].
Qed.

(** X8. The only counters of a scrape are the two byte totals of the peers:
    every other sample is a gauge. Samples of one name are of one
    descriptor and of one kind. *)
Theorem counters_are_the_byte_totals ns c w :
  metrics c = catalog ns ->
  mutexLocked c = false ->
  (forall m, m ∈ emitted w c ->
     (valType m = CounterValue <->
      fqName (desc m) = ns +:+ "_peer_info_received_bytes_total" \/
      fqName (desc m) = ns +:+ "_peer_info_sent_bytes_total")) /\
  (forall m1 m2, m1 ∈ emitted w c -> m2 ∈ emitted w c ->
     fqName (desc m1) = fqName (desc m2) ->
     desc m1 = desc m2 /\ valType m1 = valType m2).
Proof.
  intros Hc Hl. pose proof (kinded_emitted ns c w Hc Hl) as HK.
  rewrite Forall_forall in HK. split.
  - intros m (key & Hk & Hd & Hv)%HK. rewrite Hv, Hd.
    rewrite (descOf_fqName ns key Hk).
    change (ns +:+ "_peer_info_received_bytes_total")
      with (ns +:+ metricSuffix "peer_info_received_bytes_total").
    change (ns +:+ "_peer_info_sent_bytes_total")
      with (ns +:+ metricSuffix "peer_info_sent_bytes_total").
    assert (forall k, k ∈ counterKeys -> k ∈ catalogKeys) as Hck.
    { intros k Hin. unfold counterKeys in Hin.
      repeat (apply elem_of_cons in Hin as [->|Hin]; [in_catalog|]).
      by apply elem_of_nil in Hin. }
    destruct (bool_decide (key ∈ counterKeys)) eqn:Ec.
    + apply bool_decide_eq_true in Ec. split; [intros _|done].
      unfold counterKeys in Ec.
      apply elem_of_cons in Ec as [->|Ec]; [by left|].
      apply list_elem_of_singleton in Ec as ->. by right.
    + apply bool_decide_eq_false in Ec. split; [done|].
      intros [H|H]; apply append_inv_head in H.
      * exfalso. apply Ec.
        rewrite (NoDup_fmap_inj_on metricSuffix catalogKeys key
                   "peer_info_received_bytes_total" metricSuffix_NoDup Hk
                   (Hck _ ltac:(by left)) H).
        by left.
      * exfalso. apply Ec.
        rewrite (NoDup_fmap_inj_on metricSuffix catalogKeys key
                   "peer_info_sent_bytes_total" metricSuffix_NoDup Hk
                   (Hck _ ltac:(by right; left)) H).
        by right; left.
  - intros m1 m2 (k1 & Hk1 & Hd1 & Hv1)%HK (k2 & Hk2 & Hd2 & Hv2)%HK Hn.
    rewrite Hd1, Hd2 in Hn.
    pose proof (fqName_descOf_inj ns k1 k2 Hk1 Hk2 Hn) as <-.
    split; congruence.
Qed.

Lemma counters_are_the_byte_totals_witness :
  metrics mainExporter = catalog "lnd" /\
  mutexLocked mainExporter = false /\
  forall m, m ∈ emitted (demoWorld []) mainExporter ->
    (valType m = CounterValue <->
     fqName (desc m) = "lnd" +:+ "_peer_info_received_bytes_total" \/
     fqName (desc m) = "lnd" +:+ "_peer_info_sent_bytes_total").
Proof.
  split; [reflexivity|]. split; [reflexivity|].
  exact (proj1 (counters_are_the_byte_totals "lnd" mainExporter (demoWorld [])
                  eq_refl eq_refl)).
Defined.

(** ** The order of the cleanup *)

Lemma beforeCleanup_connectTrace w c con : Forall (beforeCleanup con) (connectTrace w c).
Proof.
  unfold connectTrace.
  repeat match goal with |- context [match ?r with Ok _ => _ | Err _ => _ end] =>
    destruct r; try by repeat constructor end.
Qed.

Lemma withoutConnection_connectTrace w c : Forall withoutConnection (connectTrace w c).
Proof.
  unfold connectTrace.
  repeat match goal with |- context [match ?r with Ok _ => _ | Err _ => _ end] =>
    destruct r; try by repeat constructor end.
Qed.

Lemma beforeCleanup_sends con ms : Forall (beforeCleanup con) (EvSend <$> ms).
Proof. induction ms; by constructor. Qed.

Lemma beforeCleanup_probeTrace ns c w con ctx p :
  Forall (beforeCleanup con) (probeTrace ns c w con ctx p).
Proof.
  unfold probeTrace. destruct (probeEnabled c p); [|constructor].
  constructor; [done|].
  destruct p; unfold answered;
    match goal with |- context [match ?r with Ok _ => _ | Err _ => _ end] =>
      destruct r; [apply beforeCleanup_sends | by repeat constructor] end.
Qed.

Lemma beforeCleanup_sessionTrace ns c w con :
  Forall (beforeCleanup con) (sessionTrace ns c w con).
Proof.
  unfold sessionTrace. constructor; [done|].
  destruct (rpcGetInfo w con sessionCtx) as [stats|err]; [|by repeat constructor].
  apply Forall_app. split; [apply beforeCleanup_sends|].
  apply Forall_app. split; [|by repeat constructor].
  induction probeOrder as [|p l IH]; [constructor|].
  cbn [flat_map]. apply Forall_app. split; [apply beforeCleanup_probeTrace | exact IH].
Qed.

(** X9. The deferred calls run last and in reverse order of their
    registration. With a connection, the events of a scrape end with the
    cancel of the session context, the close of the connection and the
    unlock, in this order, and before them nothing is closed, cancelled or
    unlocked and every RPC is on that connection. Without a connection, the
    unlock is last and there is no RPC, no close and no cancel. *)
Theorem cleanup_is_last_and_in_order ns c w :
  metrics c = catalog ns ->
  mutexLocked c = false ->
  match connectResult w c with
  | Ok con =>
      exists body,
        scrapeEvents w c = body ++ [EvCancel sessionCtx; EvClose con; EvUnlock] /\
        Forall (beforeCleanup con) body
  | Err _ =>
      exists body,
        scrapeEvents w c = body ++ [EvUnlock] /\
        Forall withoutConnection body
  end.
Proof.
  intros Hc Hl. unfold scrapeEvents. rewrite (Collect_fresh ns c w Hc Hl).
  cbn [fst trace]. unfold collectTrace.
  destruct (connectResult w c) as [con|err].
  - exists ([EvLock] ++ connectTrace w c ++ sessionTrace ns c w con).
    split; [by rewrite <- !app_assoc|].
    apply Forall_app. split; [by repeat constructor|].
    apply Forall_app. split;
      [apply beforeCleanup_connectTrace | apply beforeCleanup_sessionTrace].
  - exists ([EvLock] ++ connectTrace w c
            ++ [EvLog ("getGrpcClient() err: " +:+ err); EvSend (lndUp ns F64.zero)]).
    split; [by rewrite <- !app_assoc|].
    apply Forall_app. split; [by repeat constructor|].
    apply Forall_app. split; [apply withoutConnection_connectTrace|].
    by repeat constructor.
Qed.

Lemma cleanup_is_last_and_in_order_witness :
  metrics mainExporter = catalog "lnd" /\
  mutexLocked mainExporter = false /\
  exists body,
    scrapeEvents (demoWorld []) mainExporter
    = body ++ [EvCancel sessionCtx; EvClose 7%nat; EvUnlock] /\
    Forall (beforeCleanup 7%nat) body.
Proof.
  split; [reflexivity|]. split; [reflexivity|].
  exact (cleanup_is_last_and_in_order "lnd" mainExporter (demoWorld [])
           eq_refl eq_refl).
Defined.

(** ** Amounts as float64 *)

Lemma represents_inj x a b : F64.represents x a -> F64.represents x b -> a = b.
Proof.
  destruct x as [s| | |s m e]; cbn [F64.represents]; try done.
  - by intros -> ->.
  - intros [_ Ha] [_ Hb]. rewrite Ha in Hb.
    change (2 ^ 52) with 4503599627370496 in Hb. lia.
Qed.

(** X10. The conversion [float64(x)] of the amounts loses nothing up to
    2^53 in magnitude: the balance sample of a channel, the last that the
    channel sends, carries exactly its local balance, and two such integers
    are sent as different values. The bound is tight: 2^53 + 1 is sent as
    2^53. *)
Theorem amounts_are_sent_exactly ns c channel a b :
  metrics c = catalog ns ->
  Z.abs (lnrpc.LocalBalance channel) <= 2 ^ 53 ->
  Z.abs a <= 2 ^ 53 ->
  Z.abs b <= 2 ^ 53 ->
  (exists m,
     last (samplesOf (sendChannel channel) c) = Some m /\
     labelValues m = channelLabels channel /\
     F64.represents (value m) (lnrpc.LocalBalance channel)) /\
  F64.represents (F64.of_Z a) a /\
  (F64.of_Z a = F64.of_Z b -> a = b) /\
  F64.of_Z (2 ^ 53 + 1) = F64.of_Z (2 ^ 53).
Proof.
  intros Hc Hl Ha Hb. split; [|split; [|split]].
  - exists (balanceSample ns channel).
    rewrite (samplesOf_sendChannel ns c channel Hc). unfold channelSamples.
    split; [apply last_snoc|]. split; [done|].
    by apply of_Z_represents.
  - by apply of_Z_represents.
  - intros Heq. apply (represents_inj (F64.of_Z a)); [by apply of_Z_represents|].
    rewrite Heq. by apply of_Z_represents.
  - by vm_compute.
Qed.

Lemma amounts_are_sent_exactly_witness :
  metrics mainExporter = catalog "lnd" /\
  Z.abs (lnrpc.LocalBalance hugeChannel) <= 2 ^ 53 /\
  Z.abs 2100000000000000 <= 2 ^ 53 /\
  Z.abs 45 <= 2 ^ 53 /\
  F64.represents (F64.of_Z 2100000000000000) 2100000000000000.
Proof.
  split; [reflexivity|]. split; [by vm_compute|].
  split; [by vm_compute|]. split; [by vm_compute|].
  refine (proj1 (proj2 (amounts_are_sent_exactly "lnd" mainExporter hugeChannel
                          2100000000000000 45 eq_refl _ _ _))); by vm_compute.
Defined.

(** ** [main]: from the settings to the scrape *)

Lemma dialsOnly_sends addr ms : Forall (dialsOnly addr) (EvSend <$> ms).
Proof. induction ms; by constructor. Qed.

Lemma dialsOnly_probeTrace addr ns c w con ctx p :
  Forall (dialsOnly addr) (probeTrace ns c w con ctx p).
Proof.
  unfold probeTrace. destruct (probeEnabled c p); [|constructor].
  constructor; [done|].
  destruct p; unfold answered;
    match goal with |- context [match ?r with Ok _ => _ | Err _ => _ end] =>
      destruct r; [apply dialsOnly_sends | by repeat constructor] end.
Qed.

Lemma dialsOnly_collectTrace ns c w :
  Forall (dialsOnly (rpcAddr c)) (collectTrace ns c w).
Proof.
  unfold collectTrace. apply Forall_app. split; [by repeat constructor|].
  apply Forall_app. split.
  { unfold connectTrace.
    repeat match goal with |- context [match ?r with Ok _ => _ | Err _ => _ end] =>
      destruct r; try by repeat constructor end. }
  destruct (connectResult w c) as [con|err]; [|by repeat constructor].
  apply Forall_app. split; [|by repeat constructor].
  unfold sessionTrace. constructor; [done|].
  destruct (rpcGetInfo w con sessionCtx) as [stats|err]; [|by repeat constructor].
  apply Forall_app. split; [apply dialsOnly_sends|].
  apply Forall_app. split; [|by repeat constructor].
  induction probeOrder as [|p l IH]; [constructor|].
  cbn [flat_map]. apply Forall_app. split; [apply dialsOnly_probeTrace | exact IH].
Qed.

Lemma fqName_catalog ns key :
  key ∈ catalogKeys ->
  exists name, name ∈ metricNames /\ fqName (descOf ns key) = ns +:+ "_" +:+ name.
Proof.
  intros Hk. rewrite (descOf_fqName ns key Hk).
  unfold catalogKeys in Hk. cbn [catalogTable fmap list_fmap fst] in Hk.
  repeat (apply elem_of_cons in Hk as [-> | Hk];
          [eexists; (split; [|vm_compute; reflexivity]);
           apply (bool_decide_unpack _); by vm_compute|]).
  by apply elem_of_nil in Hk.
Qed.

(** X11. When [main] gets past [flag.Parse] and [MustRegister], each setting
    is the value of its flag if the command line set it, else of its
    environment variable if set, else the built-in default; and the
    collector that is registered is wired to them: both optional probes are
    switched on, a scrape returns, dials no address but the RPC address of
    the settings, sends only samples named by the namespace, an underscore
    and a metric name of the table, and in a session issues all eight
    RPCs. *)
Theorem main_wires_the_settings env args actual flags out w :
  flag.Parse main.formal args = Ok actual ->
  main.registered env args flags out ->
  let c := main.exporter flags in
  let setting flag var value :=
    match actual !! flag, env !! var with
    | Some (flag.StringValue given), _ => given
    | _, Some exported => exported
    | _, None => value
    end in
  main.namespace flags = setting "namespace" "NAMESPACE" "lnd" /\
  main.listenAddr flags = setting "web.listen-address" "LISTEN_ADDRESS" ":9113" /\
  main.metricsPath flags = setting "web.telemetry-path" "TELEMETRY_PATH" "/metrics" /\
  rpcAddr c = setting "rpc.addr" "RPC_ADDR" "localhost:10009" /\
  tlsCertPath c = setting "lnd.tls-cert-path" "TLS_CERT_PATH" "/root/.lnd" /\
  macaroonPath c = setting "lnd.macaroon-path" "MACAROON_PATH" "" /\
  exportPeerMetrics c = true /\
  exportPaymentMetrics c = true /\
  outcome w c = Returned /\
  (forall addr, EvDial addr ∈ scrapeEvents w c ->
     addr = setting "rpc.addr" "RPC_ADDR" "localhost:10009") /\
  (forall m, m ∈ emitted w c ->
     err (desc m) = None /\
     exists name,
       name ∈ metricNames /\
       fqName (desc m) = setting "namespace" "NAMESPACE" "lnd" +:+ "_" +:+ name) /\
  (forall con stats,
     connectResult w c = Ok con -> rpcGetInfo w con sessionCtx = Ok stats ->
     issued w c = allRpcs).
Proof.
  intros Hparse (Hflags & Hd & Hr) c setting.
  unfold main.parseFlags in Hflags. rewrite Hparse in Hflags.
  injection Hflags as <-.
  assert (forall flag var value,
            main.flagString actual flag (getEnv env var value) = setting flag var value)
    as Hset.
  { intros flag var value. unfold main.flagString, getEnv, setting.
    destruct (actual !! flag) as [[b|given]|], (env !! var); reflexivity. }
  assert (metrics c = catalog (main.namespace (main.settings env actual))) as Hc
    by reflexivity.
  assert (mutexLocked c = false) as Hl by reflexivity.
  change (rpcAddr c) with (main.rpcAddr (main.settings env actual)).
  change (tlsCertPath c) with (main.tlsCertPath (main.settings env actual)).
  change (macaroonPath c) with (main.macaroonPath (main.settings env actual)).
  cbn [main.settings main.namespace main.listenAddr main.metricsPath main.rpcAddr
       main.tlsCertPath main.macaroonPath].
  rewrite !Hset.
  do 6 (split; [reflexivity|]). do 2 (split; [reflexivity|]).
  split; [exact (outcome_eq _ c w Hc Hl)|]. split; [|split].
  - intros addr Hin.
    unfold scrapeEvents in Hin. rewrite (Collect_fresh _ c w Hc Hl) in Hin.
    cbn [fst trace] in Hin.
    pose proof (dialsOnly_collectTrace
                  (main.namespace (main.settings env actual)) c w) as HF.
    rewrite Forall_forall in HF. specialize (HF _ Hin). cbn [dialsOnly] in HF.
    rewrite HF. change (rpcAddr c) with (main.rpcAddr (main.settings env actual)).
    cbn [main.settings main.rpcAddr]. apply Hset.
  - intros m Hm.
    destruct (emitted_desc _ c w m Hc Hl Hm) as (key & Hk & ->). split.
    + pose proof (registerDescs_err _ _ Hr) as HF. rewrite Forall_forall in HF.
      apply HF. rewrite (Describe_catalog _ c out Hc Hd), catalogTable_descs.
      by apply list_elem_of_fmap_2.
    + destruct (fqName_catalog (main.namespace (main.settings env actual)) key Hk)
        as (name & Hn & Heq).
      exists name. split; [done|]. rewrite Heq.
      cbn [main.settings main.namespace]. by rewrite Hset.
  - intros con stats Hcon Hinfo.
    rewrite (issued_eq _ c w Hc Hl), Hcon, Hinfo. reflexivity.
Qed.

Lemma main_wires_the_settings_witness :
  exists actual flags out,
    flag.Parse main.formal ["-namespace=btc"; "--lnd.tls-cert-path"; "/tls.cert"]
    = Ok actual /\
    main.registered {[ "RPC_ADDR" := "node:10009"; "NAMESPACE" := "ln" ]}
      ["-namespace=btc"; "--lnd.tls-cert-path"; "/tls.cert"] flags out /\
    main.namespace flags = "btc" /\
    rpcAddr (main.exporter flags) = "node:10009" /\
    tlsCertPath (main.exporter flags) = "/tls.cert" /\
    macaroonPath (main.exporter flags) = "".
Proof.
  eexists _, _, _.
  assert (flag.Parse main.formal ["-namespace=btc"; "--lnd.tls-cert-path"; "/tls.cert"]
          = Ok {[ "namespace" := flag.StringValue "btc";
                  "lnd.tls-cert-path" := flag.StringValue "/tls.cert" ]}) as Hp
    by (by vm_compute).
  assert (main.registered {[ "RPC_ADDR" := "node:10009"; "NAMESPACE" := "ln" ]}
            ["-namespace=btc"; "--lnd.tls-cert-path"; "/tls.cert"]
            (main.settings {[ "RPC_ADDR" := "node:10009"; "NAMESPACE" := "ln" ]}
               {[ "namespace" := flag.StringValue "btc";
                  "lnd.tls-cert-path" := flag.StringValue "/tls.cert" ]})
            (DescribeIn (map_to_list (catalog "btc")))) as Hs.
  { split; [by vm_compute|]. split; [by eexists | by vm_compute]. }
  split; [exact Hp|]. split; [exact Hs|].
  pose proof (main_wires_the_settings _ _ _ _ _ (demoWorld []) Hp Hs)
    as (H1 & _ & _ & H4 & H5 & H6 & _).
  split; [exact H1|]. split; [exact H4|]. split; [exact H5 | exact H6].
Defined.

(** X12. [main] looks up seven environment variables and no other: setting
    or unsetting any other variable changes nothing. This holds for
    RPC_HOST, which the usage text of the flag rpc.addr names: the variable
    that is read is RPC_ADDR. *)
Theorem main_reads_only_its_variables env cmd key value :
  key ∉ envNames ->
  main.parseFlags (<[key := value]> env) cmd = main.parseFlags env cmd /\
  main.parseFlags (delete key env) cmd = main.parseFlags env cmd /\
  main.parseFlags (<["RPC_HOST" := value]> env) cmd = main.parseFlags env cmd.
Proof.
  intros Hk.
  assert (forall k var dflt, k ∉ envNames -> var ∈ envNames ->
            getEnv (<[k := value]> env) var dflt = getEnv env var dflt /\
            getEnv (delete k env) var dflt = getEnv env var dflt) as Hget.
  { intros k var dflt Hk' Hv. unfold getEnv.
    assert (k <> var) as Hne by (by intros ->).
    by rewrite lookup_insert_ne, lookup_delete_ne. }
  assert ("RPC_HOST" ∉ envNames) as Hhost.
  { apply (bool_decide_unpack _). by vm_compute. }
  assert (forall var, bool_decide (var ∈ envNames) = true -> var ∈ envNames) as Hin.
  { intros var. apply bool_decide_eq_true_1. }
  unfold main.parseFlags. destruct (flag.Parse main.formal cmd) as [actual|e]; [|done].
  unfold main.settings.
  split; [|split];
    repeat match goal with
    | |- context [getEnv (<[?k := value]> env) ?var ?dflt] =>
        rewrite (proj1 (Hget k var dflt ltac:(assumption) (Hin var eq_refl)))
    | |- context [getEnv (delete ?k env) ?var ?dflt] =>
        rewrite (proj2 (Hget k var dflt ltac:(assumption) (Hin var eq_refl)))
    end; reflexivity.
Qed.

Lemma main_reads_only_its_variables_witness :
  ("RPC_HOST" ∉ envNames) /\
  main.parseFlags (<["RPC_HOST" := "node:10009"]> ∅) ["-rpc.addr"; "lnd:10009"]
  = main.parseFlags ∅ ["-rpc.addr"; "lnd:10009"].
Proof.
  assert ("RPC_HOST" ∉ envNames) as H.
  { apply (bool_decide_unpack _). by vm_compute. }
  split; [exact H|].
  exact (proj1 (main_reads_only_its_variables ∅ ["-rpc.addr"; "lnd:10009"]
                  "RPC_HOST" "node:10009" H)).
Defined.


(** ** Which namespaces get past the registration *)

(** X14. The registry accepts the collector of a namespace exactly when the
    namespace is empty or a valid metric name (letters, digits, underscores
    and colons, not starting with a digit), whatever the order in which
    [Describe] sends the descriptors. With any other namespace
    [MustRegister] panics, and [main] ends before it serves a scrape. *)
Theorem registration_needs_a_valid_namespace ns c out :
  metrics c = catalog ns ->
  Describe c out ->
  Register out = Ok tt <-> validNamespace ns = true.
Proof.
  intros Hc Hd. pose proof (Describe_catalog ns c out Hc Hd) as Hp.
  rewrite catalogTable_descs in Hp. split.
  - intros Hr. pose proof (registerDescs_err _ _ Hr) as HF.
    rewrite Forall_forall in HF.
    apply (descOf_err ns "lnd_up" lnd_up_catalog). apply HF.
    rewrite Hp. apply list_elem_of_fmap_2, lnd_up_catalog.
  - intros Hv. apply registerDescs_accepts.
    + rewrite Hp. apply Forall_fmap, Forall_forall. intros key Hk. cbn.
      by apply (descOf_err ns key Hk).
    + rewrite Hp. apply catalog_names_NoDup.
    + intros d _. apply lookup_empty.
Qed.

Lemma registration_needs_a_valid_namespace_witness :
  metrics mainExporter = catalog "lnd" /\
  Describe mainExporter (DescribeIn (map_to_list (metrics mainExporter))) /\
  (Register (DescribeIn (map_to_list (metrics mainExporter))) = Ok tt <->
   validNamespace "lnd" = true).
Proof.
  assert (Describe mainExporter (DescribeIn (map_to_list (metrics mainExporter))))
    as Hd by (by eexists).
  split; [reflexivity|]. split; [exact Hd|].
  exact (registration_needs_a_valid_namespace "lnd" mainExporter _ eq_refl Hd).
Defined.
